(** * Discord clip scraper: a shallow embedding of the three core engines

    The development follows the repository file by file:

    - [DiscordBotHandler]: [trim_attachment_url] and [generate_message_id]
      ([discord_bot_handler.py]), together with the UTF-8 encoder and the MD5
      digest they rely on;
    - [ThumbnailGenerator]: [process_video] and [batch_save_metadata]
      ([thumbnail_gen.py]) and the uploader's [upload_thumbnail]
      ([uploader.py]);
    - [MessageHandler]: the ingestion batcher ([message_handler.py]);
    - [Heapq] and [RefetchHandler]: Python's [heapq] on lists and the
      expiration scheduler ([refetch_handler.py]);
    - [DatastoreHandler]: the two batch writers of the datastore
      ([datastore.py]).

    External collaborators (the HTTP client, ffprobe/ffmpeg, the stores, the
    clock) are not computed: their outcome at each call is an explicit input
    of the model, and every call is recorded in a trace of events. *)

From Stdlib Require Import ZArith QArith Lia Lqa.
From stdpp Require Import gmap strings list sorting.
From Stdlib Require Import Ascii.

#[local] Set Warnings "-clear-no-such-hyp".

Local Open Scope Z_scope.

(** ** Python values shared by the components *)

(** Outcome of a Python call: a value, or a raised exception. *)
Inductive pyresult (A : Type) : Type :=
  | Returns (a : A)
  | Raises (exc : string).
Arguments Returns {A} a.
Arguments Raises {A} exc.

(** A Python [float], as far as truthiness and comparisons see it: a finite
    value (a rational; [0.0] and [-0.0] compare equal), an infinity, or NaN. *)
Inductive pyfloat : Type :=
  | FFinite (q : Q)
  | FInf (negative : bool)
  | FNaN.

(** [bool(x)] for a float: [x != 0.0]. *)
Definition float_truthy (x : pyfloat) : bool :=
  match x with
  | FFinite q => negb (Qeq_bool q 0)
  | FInf _ => true
  | FNaN => true
  end.

(** [x != y] for floats (NaN differs from everything, itself included). *)
Definition float_ne (x y : pyfloat) : bool :=
  match x, y with
  | FFinite p, FFinite q => negb (Qeq_bool p q)
  | FInf a, FInf b => negb (Bool.eqb a b)
  | _, _ => true
  end.

(** [bool(s)] for a [str]. *)
Definition str_truthy (s : string) : bool :=
  match s with
  | EmptyString => false
  | String _ _ => true
  end.

(** Readings of [time.time()], in seconds. *)
Definition time_ge (elapsed threshold : Q) : bool := Qle_bool threshold elapsed.

(** ** discord_bot_handler.py *)

Module DiscordBotHandler.

(** A Python [str] is a sequence of Unicode code points. *)
Definition pystr : Type := list Z.

Definition pystr_of_string (s : string) : pystr :=
  map (fun a => Z.of_N (Ascii.N_of_ascii a)) (String.list_ascii_of_string s).

(** [l.startswith(needle)] *)
Fixpoint starts_with (needle l : pystr) : bool :=
  match needle, l with
  | [], _ => true
  | _ :: _, [] => false
  | a :: needle', b :: l' => (a =? b) && starts_with needle' l'
  end.

(** [needle in l] *)
Fixpoint str_contains (needle l : pystr) : bool :=
  starts_with needle l ||
  match l with
  | [] => false
  | _ :: l' => str_contains needle l'
  end.

(** Start of the last occurrence of [needle] in [l], if there is one. *)
Fixpoint last_occurrence (needle l : pystr) : option nat :=
  match l with
  | [] => if starts_with needle [] then Some 0%nat else None
  | _ :: l' =>
      match last_occurrence needle l' with
      | Some k => Some (S k)
      | None => if starts_with needle l then Some 0%nat else None
      end
  end.

(** [l.rfind(needle)]: the highest index where [needle] starts, or [-1]. *)
Definition str_rfind (needle l : pystr) : Z :=
  match last_occurrence needle l with
  | Some k => Z.of_nat k
  | None => -1
  end.

(** [l[:k]], with Python's reading of a negative bound. *)
Definition str_slice_to (l : pystr) (k : Z) : pystr :=
  if k <? 0 then firstn (length l - Z.to_nat (- k)) l
  else firstn (Z.to_nat k) l.

Definition ex_marker : pystr := pystr_of_string "?ex=".

(** [trim_attachment_url]: drop everything from the last ["?ex="] on. *)
Definition trim_attachment_url (URL : pystr) : pystr :=
  if str_contains ex_marker URL then
    let trimmed_url := str_slice_to URL (str_rfind ex_marker URL) in
    trimmed_url
  else URL.

(** *** [str.encode()]: UTF-8, strict error handler *)

Definition is_surrogate (c : Z) : bool := (0xD800 <=? c) && (c <=? 0xDFFF).

Definition utf8_encode_char (c : Z) : option (list Z) :=
  if c <? 0 then None
  else if c <? 0x80 then Some [c]
  else if c <? 0x800 then
    Some [Z.lor 0xC0 (Z.shiftr c 6); Z.lor 0x80 (Z.land c 0x3F)]
  else if c <? 0x10000 then
    if is_surrogate c then None
    else Some [Z.lor 0xE0 (Z.shiftr c 12);
               Z.lor 0x80 (Z.land (Z.shiftr c 6) 0x3F);
               Z.lor 0x80 (Z.land c 0x3F)]
  else if c <? 0x110000 then
    Some [Z.lor 0xF0 (Z.shiftr c 18);
          Z.lor 0x80 (Z.land (Z.shiftr c 12) 0x3F);
          Z.lor 0x80 (Z.land (Z.shiftr c 6) 0x3F);
          Z.lor 0x80 (Z.land c 0x3F)]
  else None.

(** A code point that UTF-8 can carry: in range and not a surrogate. *)
Definition unicode_scalar (c : Z) : Prop :=
  0 <= c <= 0x10FFFF /\ ~ (0xD800 <= c <= 0xDFFF).

Global Instance unicode_scalar_dec (c : Z) : Decision (unicode_scalar c).
Proof. unfold unicode_scalar. apply _. Defined.

Fixpoint utf8_encode (s : pystr) : option (list Z) :=
  match s with
  | [] => Some []
  | c :: s' =>
      match utf8_encode_char c, utf8_encode s' with
      | Some b, Some bs => Some (b ++ bs)
      | _, _ => None
      end
  end.

(** *** [hashlib.md5] (RFC 1321) on 32-bit words held in [Z] *)

Definition w32 (x : Z) : Z := x mod 2 ^ 32.

Definition rotl32 (x c : Z) : Z :=
  w32 (Z.lor (Z.shiftl x c) (Z.shiftr x (32 - c))).

Definition not32 (x : Z) : Z := Z.lxor x 0xFFFFFFFF.

Definition md5_shift : list Z :=
  [7; 12; 17; 22; 7; 12; 17; 22; 7; 12; 17; 22; 7; 12; 17; 22;
   5; 9; 14; 20; 5; 9; 14; 20; 5; 9; 14; 20; 5; 9; 14; 20;
   4; 11; 16; 23; 4; 11; 16; 23; 4; 11; 16; 23; 4; 11; 16; 23;
   6; 10; 15; 21; 6; 10; 15; 21; 6; 10; 15; 21; 6; 10; 15; 21].

(** [floor (2^32 * |sin (i + 1)|)] for [i = 0 .. 63]. *)
Definition md5_sine : list Z :=
  [3614090360; 3905402710; 606105819; 3250441966;
   4118548399; 1200080426; 2821735955; 4249261313;
   1770035416; 2336552879; 4294925233; 2304563134;
   1804603682; 4254626195; 2792965006; 1236535329;
   4129170786; 3225465664; 643717713; 3921069994;
   3593408605; 38016083; 3634488961; 3889429448;
   568446438; 3275163606; 4107603335; 1163531501;
   2850285829; 4243563512; 1735328473; 2368359562;
   4294588738; 2272392833; 1839030562; 4259657740;
   2763975236; 1272893353; 4139469664; 3200236656;
   681279174; 3936430074; 3572445317; 76029189;
   3654602809; 3873151461; 530742520; 3299628645;
   4096336452; 1126891415; 2878612391; 4237533241;
   1700485571; 2399980690; 4293915773; 2240044497;
   1873313359; 4264355552; 2734768916; 1309151649;
   4149444226; 3174756917; 718787259; 3951481745].

Definition nthZ (l : list Z) (i : Z) : Z := nth (Z.to_nat i) l 0.

Record md5_state : Type := MD5State { md5_a : Z; md5_b : Z; md5_c : Z; md5_d : Z }.

Definition md5_init : md5_state :=
  MD5State 0x67452301 0xefcdab89 0x98badcfe 0x10325476.

(** One of the 64 operations of a block. *)
Definition md5_round (M : list Z) (st : md5_state) (i : Z) : md5_state :=
  let '(MD5State A B C D) := st in
  let '(F, g) :=
    if i <? 16 then (Z.lor (Z.land B C) (Z.land (not32 B) D), i)
    else if i <? 32 then
      (Z.lor (Z.land D B) (Z.land (not32 D) C), (5 * i + 1) mod 16)
    else if i <? 48 then (Z.lxor (Z.lxor B C) D, (3 * i + 5) mod 16)
    else (Z.lxor C (Z.lor B (not32 D)), (7 * i) mod 16) in
  let F' := w32 (F + A + nthZ md5_sine i + nthZ M g) in
  MD5State D (w32 (B + rotl32 F' (nthZ md5_shift i))) B C.

Definition le32 (b0 b1 b2 b3 : Z) : Z :=
  b0 + 256 * b1 + 65536 * b2 + 16777216 * b3.

Fixpoint words_of_bytes (bs : list Z) : list Z :=
  match bs with
  | b0 :: b1 :: b2 :: b3 :: rest => le32 b0 b1 b2 b3 :: words_of_bytes rest
  | _ => []
  end.

Definition md5_block (st : md5_state) (block : list Z) : md5_state :=
  let M := words_of_bytes block in
  let st' := fold_left (md5_round M) (map Z.of_nat (seq 0 64)) st in
  MD5State (w32 (md5_a st + md5_a st')) (w32 (md5_b st + md5_b st'))
           (w32 (md5_c st + md5_c st')) (w32 (md5_d st + md5_d st')).

Definition bytes_le (n : nat) (x : Z) : list Z :=
  map (fun k => Z.shiftr x (8 * Z.of_nat k) mod 256) (seq 0 n).

Definition md5_pad (msg : list Z) : list Z :=
  let len := Z.of_nat (length msg) in
  msg ++ [0x80] ++ repeat 0 (Z.to_nat ((55 - len) mod 64))
      ++ bytes_le 8 ((8 * len) mod 2 ^ 64).

Fixpoint md5_blocks (fuel : nat) (st : md5_state) (bs : list Z) : md5_state :=
  match fuel, bs with
  | S fuel', _ :: _ => md5_blocks fuel' (md5_block st (firstn 64 bs)) (skipn 64 bs)
  | _, _ => st
  end.

(** [hashlib.md5(msg).digest()]: the four state words, little endian. *)
Definition md5_digest (msg : list Z) : list Z :=
  let padded := md5_pad msg in
  let st := md5_blocks (length padded) md5_init padded in
  bytes_le 4 (md5_a st) ++ bytes_le 4 (md5_b st)
    ++ bytes_le 4 (md5_c st) ++ bytes_le 4 (md5_d st).

Definition hex_alphabet : list ascii := String.list_ascii_of_string "0123456789abcdef".

Definition hex_digit (n : Z) : ascii := nth (Z.to_nat n) hex_alphabet "0"%char.

Definition hex_of_byte (b : Z) : list ascii := [hex_digit (b / 16); hex_digit (b mod 16)].

(** [.hexdigest()] *)
Definition md5_hexdigest (msg : list Z) : list ascii :=
  flat_map hex_of_byte (md5_digest msg).

(** [generate_message_id]: the f-string renders the three arguments and
    joins the renderings; the arguments here are those renderings.
    [hashlib.md5(f"{author_name}{created_at}{attachment}".encode()).hexdigest()[:8]] *)
Definition generate_message_id (author_name created_at attachment : pystr)
  : pyresult string :=
  match utf8_encode (author_name ++ created_at ++ attachment) with
  | None => Raises "UnicodeEncodeError"
  | Some bytes => Returns (String.string_of_list_ascii (firstn 8 (md5_hexdigest bytes)))
  end.

(** The id [process_message] gives an attachment: the digest of the poster,
    the creation time and the trimmed URL. *)
Definition attachment_uuid (author_id created_at url : pystr) : pyresult string :=
  let trimmed_url := trim_attachment_url url in
  generate_message_id author_id created_at trimmed_url.

Definition is_lower_hex (a : ascii) : bool :=
  let n := Ascii.N_of_ascii a in
  ((48 <=? n) && (n <=? 57) || (97 <=? n) && (n <=? 102))%N.

(** *** [get_expiration_timestamp] *)

(** [l.split(sep)] for a one-character separator: the pieces between the
    separators, of which there is always at least one. *)
Fixpoint str_split (sep : Z) (l : pystr) : list pystr :=
  match l with
  | [] => [[]]
  | c :: l' =>
      if c =? sep then [] :: str_split sep l'
      else
        match str_split sep l' with
        | piece :: pieces => (c :: piece) :: pieces
        | [] => [[c]]
        end
  end.

Definition ex_param : pystr := pystr_of_string "ex=".

(** [str.replace(old, "")] for a non-empty [old]: the occurrences of [old]
    are removed from left to right, without overlap; [skip] counts the
    characters of the current occurrence still to drop. *)
Fixpoint str_remove (old : pystr) (skip : nat) (l : pystr) : pystr :=
  match l with
  | [] => []
  | c :: l' =>
      match skip with
      | S skip' => str_remove old skip' l'
      | O =>
          if starts_with old l then str_remove old (length old - 1) l'
          else c :: str_remove old 0 l'
      end
  end.

Definition mp4 : pystr := pystr_of_string ".mp4".

(** *** [process_message] and [build_message_data] *)

Record attachment : Type := Attachment { att_url : pystr; att_filename : pystr }.

(** What [process_message] reads of a [discord.Message]; the integers
    and the date are given by their renderings as text. *)
Record discord_message : Type := DiscordMessage {
  msg_id : pystr;                    (* str(message.id) *)
  msg_channel_id : pystr;            (* str(message.channel.id) *)
  msg_guild_id : option pystr;       (* str(message.guild.id); no guild in a DM *)
  msg_author_name : pystr;           (* message.author.name *)
  msg_author : pystr;                (* str(message.author) *)
  msg_author_id : pystr;             (* str(message.author.id) *)
  msg_avatar_url : option pystr;     (* message.author.avatar.url, if any *)
  msg_created_at : pystr;            (* str(message.created_at) *)
  msg_timestamp : Q;                 (* message.created_at.timestamp() *)
  msg_clean_content : pystr;
  msg_attachments : list attachment
}.

(** The dictionary built by [build_message_data]. *)
Record message_record : Type := MessageRecord {
  rec_Id : string;
  rec_Discord_id : pystr;
  rec_Poster : pystr;
  rec_Date : Q;
  rec_Link_to_message : pystr;
  rec_Description : pystr;
  rec_Attachment_URL : pystr;
  rec_Filename : pystr;
  rec_Expire_Timestamp : option Z;
  rec_channelId : pystr
}.

Record user_record : Type := UserRecord { user_Name : pystr; user_Url : option pystr }.

Inductive bot_event : Type :=
  | LogProcessing (channel_id author_name : pystr)
  | ThumbnailQueuePut (uuid : string) (url : pystr)
  | MessageQueuePut (data : message_record) (user : user_record)
  | LogQueued (uuid : string).

Section Bot.

(** [int(s, 16)], [None] when it raises [ValueError]. *)
Variable int16 : pystr -> option Z.

(** [get_expiration_timestamp]: the first parameter of the last query
    string that starts with ["ex="] decides; a [ValueError] is caught, any
    other exception would escape. *)
Definition get_expiration_timestamp (url : pystr) : pyresult (option Z) :=
  let query := List.last (str_split 63 url) [] in
  match List.find (starts_with ex_param) (str_split 38 query) with
  | Some param =>
      match str_split 61 param !! 1%nat with
      | Some value => Returns (int16 value)
      | None => Raises "IndexError"
      end
  | None => Returns None
  end.

(** [build_message_data] *)
Definition build_message_data (message : discord_message) (message_id : string)
    (a : attachment) : pyresult message_record :=
  match msg_guild_id message with
  | None => Raises "AttributeError"
  | Some guild_id =>
      let link_to_message :=
        pystr_of_string "https://discord.com/channels/" ++ guild_id
        ++ [47] ++ msg_channel_id message ++ [47] ++ msg_id message in
      match get_expiration_timestamp (att_url a) with
      | Raises exc => Raises exc
      | Returns expire =>
          Returns (MessageRecord message_id (msg_id message) (msg_author message)
                     (msg_timestamp message) link_to_message
                     (msg_clean_content message) (att_url a)
                     (str_remove mp4 0 (att_filename a)) expire
                     (msg_channel_id message))
      end
  end.

(** The [for] loop of [process_message]. *)
Fixpoint process_attachments (message : discord_message) (attachments : list attachment)
  : list bot_event * pyresult unit :=
  match attachments with
  | [] => ([], Returns tt)
  | a :: attachments' =>
      match attachment_uuid (msg_author_id message) (msg_created_at message) (att_url a) with
      | Raises exc => ([], Raises exc)
      | Returns uuid =>
          if negb (str_contains mp4 (att_url a)) then
            process_attachments message attachments'
          else
            let user_data := UserRecord (msg_author_name message) (msg_avatar_url message) in
            match build_message_data message uuid a with
            | Raises exc => ([ThumbnailQueuePut uuid (att_url a)], Raises exc)
            | Returns message_data =>
                let '(t, r) := process_attachments message attachments' in
                (ThumbnailQueuePut uuid (att_url a)
                 :: MessageQueuePut message_data user_data
                 :: LogQueued uuid :: t, r)
            end
      end
  end.

(** [process_message] *)
Definition process_message (message : discord_message) : list bot_event * pyresult unit :=
  let '(t, r) := process_attachments message (msg_attachments message) in
  (LogProcessing (msg_channel_id message) (msg_author_name message) :: t, r).

End Bot.

(** What a trace puts on the thumbnail queue, and on the message queue. *)
Definition thumbnail_puts (t : list bot_event) : list (string * pystr) :=
  omap (fun ev => match ev with ThumbnailQueuePut uuid url => Some (uuid, url) | _ => None end) t.

Definition message_puts (t : list bot_event) : list (message_record * user_record) :=
  omap (fun ev => match ev with MessageQueuePut d u => Some (d, u) | _ => None end) t.

(** The video attachments with their ids, when every id can be computed. *)
Definition video_of (message : discord_message) (a : attachment) : option (string * pystr) :=
  if str_contains mp4 (att_url a) then
    match attachment_uuid (msg_author_id message) (msg_created_at message) (att_url a) with
    | Returns uuid => Some (uuid, att_url a)
    | Raises _ => None
    end
  else None.

End DiscordBotHandler.

(** ** thumbnail_gen.py and uploader.py *)

Module ThumbnailGenerator.

(** ["status"] of a task result. *)
Inductive status : Type := Generated | Skipped | Error.

(** An attachment descriptor, as put on the thumbnail queue. *)
Record video : Type := Video { video_Id : string; video_Attachment_URL : string }.

(** An entry of the metadata queue; [entry.get] yields [None] for a missing key. *)
Record metadata_entry : Type :=
  Entry { entry_Id : option string; entry_Length : option pyfloat }.

(** A file path [os.path.join(dir, f"{stem}.{ext}")]. *)
Record path : Type := Path { dir : string; stem : string; ext : string }.

Global Instance path_eq_dec : EqDecision path.
Proof. solve_decision. Defined.

Global Instance path_countable : Countable path.
Proof.
  refine (inj_countable' (fun p => (dir p, stem p, ext p))
                         (fun t => Path t.1.1 t.1.2 t.2) _).
  by intros [].
Defined.

Inductive level : Type := DEBUG | INFO | WARNING | ERROR | CRITICAL.

(** The log lines of the two classes, one constructor per call site. *)
Inductive log_msg : Type :=
  | MsgSkipping (video_id : string)
  | MsgDownloading (video_id : string)
  | MsgGeneratingThumbnail (video_id : string)
  | MsgThumbnailExists (video_id : string)
  | MsgTempRemoved (p : path)
  | MsgErrorProcessing (video_id exc : string)
  | MsgVideoMissing (p : path)
  | MsgThumbnailGenerated (p : path)
  | MsgFfmpegError (p : path)
  | MsgUnexpectedError (exc : string)
  | MsgProbeOutput (p : path)
  | MsgNoDuration (p : path)
  | MsgNotFloat (p : path)
  | MsgProbeError (p : path) (exc : string)
  | MsgVideoLength (video_id : string) (len : pyfloat)
  | MsgAddedToQueue (video_id : string) (len : pyfloat)
  | MsgNoLength (video_id : string)
  | MsgUploadStart (stem ext : string)
  | MsgUploadFinish (stem ext : string)
  | MsgUploadError (exc : string)
  | MsgUploaded (p : path) (blob : string)
  | MsgInvalidEntry (entry : metadata_entry)
  | MsgAddedToBatch (video_id : string) (len : pyfloat)
  | MsgConflict (video_id : string) (existing new : pyfloat)
  | MsgAlreadyStored
  | MsgUploadingBatch (n : nat)
  | MsgBatchError (exc : string).

(** What a task or the batcher does to the outside world. *)
Inductive event : Type :=
  | Log (lvl : level) (msg : log_msg)
  | HttpGet (url : string) (dest : path)
  | Ffprobe (p : path)
  | Ffmpeg (src dest : path)
  | QueuePut (entry : metadata_entry)
  | OsRemove (p : path)
  | BucketUpload (src : path) (blob : string)
  | PushBatchRuntimes (batch : list metadata_entry)
  | AsyncSleep (seconds : Z).

(** Outcomes of the external calls of one task. *)
Inductive download_outcome : Type :=
  | Http200
  | HttpStatus (code : Z)
  | DownloadError (exc : string) (file_created : bool).

Inductive probe_outcome : Type :=
  | ProbeFloat (len : pyfloat)
  | ProbeNoOutput
  | ProbeNotFloat
  | ProbeError (exc : string).

Inductive ffmpeg_outcome : Type :=
  | FfmpegOk
  | FfmpegError
  | FfmpegException (exc : string).

Record env : Type := Env {
  http_get : download_outcome;
  ffprobe : probe_outcome;
  ffmpeg : ffmpeg_outcome;
  os_remove : option string;       (* [Some exc]: [os.remove] raises *)
  blob_upload : option string      (* [Some exc]: the bucket upload raises *)
}.

(** The fields of [ThumbnailGenerator] and of its [ThumbnailUploader], and
    the files on disk. *)
Record state : Type := State {
  output_folder : string;
  temp_folder : string;
  thumbnail_dir : string;
  video_lengths : gmap string pyfloat;
  uploaded_uuids : list string;
  metadata_queue : list metadata_entry;
  last_uploaded_files : gset (string * string);
  files : gset path
}.

Definition set_video_lengths (f : gmap string pyfloat -> gmap string pyfloat) (s : state) : state :=
  State (output_folder s) (temp_folder s) (thumbnail_dir s) (f (video_lengths s))
        (uploaded_uuids s) (metadata_queue s) (last_uploaded_files s) (files s).

Definition set_metadata_queue (f : list metadata_entry -> list metadata_entry) (s : state) : state :=
  State (output_folder s) (temp_folder s) (thumbnail_dir s) (video_lengths s)
        (uploaded_uuids s) (f (metadata_queue s)) (last_uploaded_files s) (files s).

Definition set_last_uploaded_files (f : gset (string * string) -> gset (string * string)) (s : state) : state :=
  State (output_folder s) (temp_folder s) (thumbnail_dir s) (video_lengths s)
        (uploaded_uuids s) (metadata_queue s) (f (last_uploaded_files s)) (files s).

Definition set_files (f : gset path -> gset path) (s : state) : state :=
  State (output_folder s) (temp_folder s) (thumbnail_dir s) (video_lengths s)
        (uploaded_uuids s) (metadata_queue s) (last_uploaded_files s) (f (files s)).

(** *** A state, trace and exception monad for the task bodies *)

Definition M (A : Type) : Type := state -> state * list event * pyresult A.

Definition ret {A} (a : A) : M A := fun s => (s, [], Returns a).

Definition bind {A B} (m : M A) (k : A -> M B) : M B :=
  fun s =>
    match m s with
    | (s1, t1, Returns a) =>
        match k a s1 with
        | (s2, t2, r) => (s2, t1 ++ t2, r)
        end
    | (s1, t1, Raises exc) => (s1, t1, Raises exc)
    end.

Definition raise {A} (exc : string) : M A := fun s => (s, [], Raises exc).

(** [try: body  except Exception as e: handler e] *)
Definition try_except {A} (body : M A) (handler : string -> M A) : M A :=
  fun s =>
    match body s with
    | (s1, t1, Returns a) => (s1, t1, Returns a)
    | (s1, t1, Raises exc) =>
        match handler exc s1 with
        | (s2, t2, r) => (s2, t1 ++ t2, r)
        end
    end.

Definition gets {A} (f : state -> A) : M A := fun s => (s, [], Returns (f s)).
Definition modify (f : state -> state) : M unit := fun s => (f s, [], Returns tt).
Definition emit (e : event) : M unit := fun s => (s, [e], Returns tt).
Definition log_item (lvl : level) (msg : log_msg) : M unit := emit (Log lvl msg).
Definition when (b : bool) (m : M unit) : M unit := if b then m else ret tt.

Global Instance M_ret : MRet M := @ret.
Global Instance M_bind : MBind M := fun A B k m => bind m k.

(** [os.path.exists] *)
Definition path_exists (p : path) : M bool := gets (fun s => bool_decide (p ∈ files s)).

(** [download_video]: the body is written to [filename] only on status 200;
    any other status falls through without a file and without an exception. *)
Definition download_video (e : env) (url : string) (filename : path) : M unit :=
  emit (HttpGet url filename);;
  match http_get e with
  | Http200 => modify (set_files (union {[filename]}))
  | HttpStatus _ => ret tt
  | DownloadError exc file_created =>
      when file_created (modify (set_files (union {[filename]})));;
      raise exc
  end.

(** [generate_thumbnail]: never raises. *)
Definition generate_thumbnail (e : env) (video_filename thumbnail_path : path) : M unit :=
  v_exists ← path_exists video_filename;
  if negb v_exists then log_item ERROR (MsgVideoMissing video_filename)
  else
    emit (Ffmpeg video_filename thumbnail_path);;
    match ffmpeg e with
    | FfmpegOk =>
        modify (set_files (union {[thumbnail_path]}));;
        log_item INFO (MsgThumbnailGenerated video_filename)
    | FfmpegError => log_item ERROR (MsgFfmpegError video_filename)
    | FfmpegException exc => log_item ERROR (MsgUnexpectedError exc)
    end.

(** [get_video_length]: the float printed by ffprobe, or [None]. *)
Definition get_video_length (e : env) (file_path : path) : M (option pyfloat) :=
  emit (Ffprobe file_path);;
  match ffprobe e with
  | ProbeFloat len => log_item DEBUG (MsgProbeOutput file_path);; ret (Some len)
  | ProbeNoOutput =>
      log_item DEBUG (MsgProbeOutput file_path);;
      log_item ERROR (MsgNoDuration file_path);; ret None
  | ProbeNotFloat =>
      log_item DEBUG (MsgProbeOutput file_path);;
      log_item ERROR (MsgNotFloat file_path);; ret None
  | ProbeError exc => log_item ERROR (MsgProbeError file_path exc);; ret None
  end.

(** [process_metadata]: never raises. *)
Definition process_metadata (e : env) (video_id : string) (temp_video_path : path) : M unit :=
  video_length ← get_video_length e temp_video_path;
  match video_length with
  | Some len =>
      log_item DEBUG (MsgVideoLength video_id len);;
      let entry := Entry (Some video_id) (Some len) in
      modify (set_metadata_queue (fun q => q ++ [entry]));;
      emit (QueuePut entry);;
      log_item DEBUG (MsgAddedToQueue video_id len)
  | None => log_item ERROR (MsgNoLength video_id)
  end.

(** [ThumbnailUploader.upload_to_bucket]: raises when the local file is
    missing or the bucket refuses the upload. *)
Definition upload_to_bucket (e : env) (file_path : path) (blob : string) : M unit :=
  f_exists ← path_exists file_path;
  if negb f_exists then raise "FileNotFoundError"
  else
    match blob_upload e with
    | Some exc => raise exc
    | None =>
        emit (BucketUpload file_path blob);;
        log_item DEBUG (MsgUploaded file_path blob)
    end.

(** [ThumbnailUploader.upload_thumbnail] *)
Definition uploader_upload_thumbnail (e : env) (fstem fext : string) : M unit :=
  if bool_decide (fext = "jpg") || bool_decide (fext = "png") then
    tdir ← gets thumbnail_dir;
    let file_path := Path tdir fstem fext in
    seen ← gets (fun s => bool_decide ((fstem, fext) ∈ last_uploaded_files s));
    if negb seen then
      upload_to_bucket e file_path ("thumb/" +:+ fstem +:+ "." +:+ fext);;
      modify (set_last_uploaded_files (union {[(fstem, fext)]}))
    else ret tt
  else ret tt.

(** [ThumbnailGenerator.upload_thumbnail]: never raises. *)
Definition upload_thumbnail (e : env) (fstem fext : string) : M unit :=
  try_except
    (log_item DEBUG (MsgUploadStart fstem fext);;
     uploader_upload_thumbnail e fstem fext;;
     log_item DEBUG (MsgUploadFinish fstem fext))
    (fun exc => log_item ERROR (MsgUploadError exc)).

(** [process_video] *)
Definition process_video (e : env) (v : video) : M status :=
  let video_url := video_Attachment_URL v in
  let video_id := video_Id v in
  tmp ← gets temp_folder;
  out ← gets output_folder;
  let temp_video_path := Path tmp video_id "mp4" in
  let thumbnail_path := Path out video_id "png" in
  try_except
    (metadata_exists ← gets (fun s => bool_decide (is_Some (video_lengths s !! video_id)));
     thumbnail_exists ← gets (fun s => bool_decide (video_id ∈ uploaded_uuids s));
     if metadata_exists && thumbnail_exists then
       log_item DEBUG (MsgSkipping video_id);;
       ret Skipped
     else
       when (negb metadata_exists || negb thumbnail_exists)
         (t_exists ← path_exists temp_video_path;
          when (negb t_exists)
            (log_item DEBUG (MsgDownloading video_id);;
             download_video e video_url temp_video_path));;
       when (negb metadata_exists)
         (process_metadata e video_id temp_video_path);;
       (if negb thumbnail_exists then
          log_item INFO (MsgGeneratingThumbnail video_id);;
          generate_thumbnail e temp_video_path thumbnail_path
        else log_item DEBUG (MsgThumbnailExists video_id));;
       t_exists ← path_exists temp_video_path;
       when t_exists
         (emit (OsRemove temp_video_path);;
          match os_remove e with
          | Some exc => raise exc
          | None =>
              modify (set_files (fun fs => fs ∖ {[temp_video_path]}));;
              log_item DEBUG (MsgTempRemoved temp_video_path)
          end);;
       upload_thumbnail e video_id "png";;
       ret Generated)
    (fun exc =>
       log_item ERROR (MsgErrorProcessing video_id exc);;
       ret Error).

(** The id is in both known sets when the task starts. *)
Definition already_processed (v : video) (s : state) : bool :=
  bool_decide (is_Some (video_lengths s !! video_Id v))
  && bool_decide (video_Id v ∈ uploaded_uuids s).

(** Whether an exception escapes the body of [process_video] for [v] started
    in [s] with the outcomes [e]: the download is attempted and raises, or the
    temporary file is there at the end and removing it raises. *)
Definition escaping_exception (e : env) (v : video) (s : state) : bool :=
  let temp_video_path := Path (temp_folder s) (video_Id v) "mp4" in
  if bool_decide (temp_video_path ∈ files s) then bool_decide (is_Some (os_remove e))
  else
    match http_get e with
    | Http200 => bool_decide (is_Some (os_remove e))
    | HttpStatus _ => false
    | DownloadError _ _ => true
    end.

(** A new artifact in a trace: a duration handed to the Metadata Batcher, or
    a thumbnail written by ffmpeg. *)
Definition artifact_event (ev : event) : bool :=
  match ev with
  | QueuePut _ => true
  | Log _ (MsgThumbnailGenerated _) => true
  | _ => false
  end.

Definition produced_artifact (t : list event) : bool := existsb artifact_event t.

(** The state with one more file on disk. *)
Definition add_file (p : path) (s : state) : state := set_files (union {[p]}) s.

(** A command whose run neither reads nor removes the file [p]: started with
    [p] on disk it does what it does without it, and [p] stays. *)
Definition respects {A} (p : path) (m : M A) : Prop :=
  forall s, m (add_file p s) = let '(s', t, r) := m s in (add_file p s', t, r).

(** A state for examples: the default folders, nothing known, nothing on disk. *)
Definition fresh_state : state := State "thumb" "temp" "thumb" ∅ [] [] ∅ ∅.

(** *** The Metadata Batcher: [batch_save_metadata] *)

(** The local variables of [batch_save_metadata]. *)
Record batcher : Type := Batcher {
  changes_made : bool;
  last_modification : Q;
  new_metadata : list metadata_entry
}.

(** [bool(entry.get(key))] *)
Definition opt_truthy {A} (truthy : A -> bool) (o : option A) : bool :=
  match o with
  | Some a => truthy a
  | None => false
  end.

(** The body of the inner [while] for one [entry] taken from the queue;
    [now] is the clock reading taken when the entry is accepted. *)
Definition handle_entry (now : Q) (entry : metadata_entry) (sb : state * batcher)
  : state * batcher * list event :=
  let '(s, b) := sb in
  let video_id := entry_Id entry in
  let length := entry_Length entry in
  if negb (opt_truthy str_truthy video_id && opt_truthy float_truthy length) then
    (s, b, [Log ERROR (MsgInvalidEntry entry)])
  else
    match video_id, length with
    | Some vid, Some len =>
        match video_lengths s !! vid with
        | None =>
            (set_video_lengths <[vid := len]> s,
             Batcher true now (new_metadata b ++ [entry]),
             [Log DEBUG (MsgAddedToBatch vid len)])
        | Some existing =>
            if float_ne existing len then
              (s, b, [Log WARNING (MsgConflict vid existing len)])
            else (s, b, [Log WARNING MsgAlreadyStored])
        end
    | _, _ => (s, b, [Log ERROR (MsgInvalidEntry entry)])
    end.

(** [while not self.metadata_queue.empty(): ...] over the entries waiting in
    the queue; [clock i] is the reading of [time.time()] while the [i]-th of
    them is handled. *)
Fixpoint drain_entries (clock : nat -> Q) (i : nat) (queue : list metadata_entry)
    (sb : state * batcher) : state * batcher * list event :=
  match queue with
  | [] => (sb, [])
  | entry :: queue' =>
      let '(sb1, t1) := handle_entry (clock i) entry sb in
      let '(sb2, t2) := drain_entries clock (S i) queue' sb1 in
      (sb2, t1 ++ t2)
  end.

(** The flush test at the end of a cycle, read at time [now]. *)
Definition flush_due (now : Q) (b : batcher) : bool :=
  changes_made b &&
  ((50 <=? length (new_metadata b))%nat || time_ge (now - last_modification b) 60).

(** The flush at the end of a cycle.  [push] is the outcome of
    [upload_runtime]: [Some exc] when it raises [exc].  The call is not
    guarded, so its exception leaves the [if]: the batch is not cleared and
    the flag is not reset. *)
Definition flush_check (push : option string) (now : Q) (b : batcher)
  : batcher * list event * pyresult unit :=
  if flush_due now b then
    let t := [Log INFO (MsgUploadingBatch (length (new_metadata b)));
              PushBatchRuntimes (new_metadata b)] in
    match push with
    | None => (Batcher false (last_modification b) [], t, Returns tt)
    | Some exc => (b, t, Raises exc)
    end
  else (b, [], Returns tt).

(** The flush rule in the words of the specification: the batch is flushed
    when its length is at least 50 or when at least 60 seconds have passed
    since its first unflushed entry was accepted, at [first_accepted]. *)
Definition spec_flush_due (now first_accepted : Q) (batch : list metadata_entry) : bool :=
  (50 <=? length batch)%nat || time_ge (now - first_accepted) 60.

(** The flag [changes_made] is set exactly while the batch is not empty. *)
Definition batcher_ok (b : batcher) : Prop :=
  changes_made b = true <-> new_metadata b <> [].

(** How a turn of the outer [while True] ends: with [await asyncio.sleep(1)]
    when the body of the [try] ran to its end, in the [except] clause, which
    logs the exception and does not sleep, when it raised. *)
Definition cycle_end (r : pyresult unit) : list event :=
  match r with
  | Returns _ => [AsyncSleep 1]
  | Raises exc => [Log CRITICAL (MsgBatchError exc)]
  end.

(** One turn of the outer [while True] of [batch_save_metadata]. *)
Definition batch_cycle (push : option string) (clock : nat -> Q) (now : Q)
    (sb : state * batcher) : state * batcher * list event :=
  let '(s, b) := sb in
  let '(s1, b1, t1) :=
    drain_entries clock 0 (metadata_queue s) (set_metadata_queue (fun _ => []) s, b) in
  let '(b2, t2, r) := flush_check push now b1 in
  (s1, b2, t1 ++ t2 ++ cycle_end r).

(** The locals as [batch_save_metadata] initialises them at time [start]. *)
Definition batcher_init (start : Q) : batcher := Batcher false start [].

(** *** [get_all_uuids] of the uploader *)

(** [name.rsplit('.', 1)[0]]: what comes before the last dot, or the whole
    name when it has none. *)
Fixpoint before_last_dot (name : list ascii) : option (list ascii) :=
  match name with
  | [] => None
  | c :: name' =>
      match before_last_dot name' with
      | Some stem => Some (c :: stem)
      | None => if Ascii.eqb c "."%char then Some [] else None
      end
  end.

(** [blob.name[len("thumb/"):].rsplit('.', 1)[0]] *)
Definition uuid_of_blob (name : string) : string :=
  let rest := drop 6 (String.list_ascii_of_string name) in
  String.string_of_list_ascii (default rest (before_last_dot rest)).

(** *** Assertions on the runs of a task *)

(** [hoare P ok m Q]: started in a state that satisfies [P], the command [m]
    emits only events that satisfy [ok] and ends, with outcome [r], in a
    state that satisfies [Q r]. *)
Definition hoare {A} (P : state -> Prop) (ok : event -> Prop) (m : M A)
    (Q : pyresult A -> state -> Prop) : Prop :=
  forall s, P s -> Q (m s).2 (m s).1.1 /\ Forall ok (m s).1.2.

(** The events a task for [v] may emit: log lines, and calls that name the
    files, the queue entry and the blob of [v] itself. *)
Definition own_event (v : video) (ev : event) : Prop :=
  match ev with
  | Log _ _ => True
  | HttpGet url dest =>
      url = video_Attachment_URL v /\ stem dest = video_Id v /\ ext dest = "mp4"
  | Ffprobe p => stem p = video_Id v /\ ext p = "mp4"
  | Ffmpeg src dest =>
      stem src = video_Id v /\ ext src = "mp4"
      /\ stem dest = video_Id v /\ ext dest = "png"
  | QueuePut entry => entry_Id entry = Some (video_Id v) /\ is_Some (entry_Length entry)
  | OsRemove p => stem p = video_Id v /\ ext p = "mp4"
  | BucketUpload src blob =>
      stem src = video_Id v /\ ext src = "png"
      /\ blob = "thumb/" +:+ video_Id v +:+ "." +:+ "png"
  | PushBatchRuntimes _ => False
  | AsyncSleep _ => False
  end.

(** What a task for [v] started in [s0] leaves alone: the folders and the two
    known sets are those of [s0], the metadata queue and the set of uploaded
    file names only grow, the latter by the thumbnail of [v] at most, and the
    files of other ids are as in [s0]. *)
Definition task_frame (v : video) (s0 s : state) : Prop :=
  output_folder s = output_folder s0
  /\ temp_folder s = temp_folder s0
  /\ thumbnail_dir s = thumbnail_dir s0
  /\ video_lengths s = video_lengths s0
  /\ uploaded_uuids s = uploaded_uuids s0
  /\ metadata_queue s0 `prefix_of` metadata_queue s
  /\ last_uploaded_files s0 ⊆ last_uploaded_files s
  /\ last_uploaded_files s ⊆ last_uploaded_files s0 ∪ {[(video_Id v, "png")]}
  /\ forall p, stem p <> video_Id v -> p ∈ files s <-> p ∈ files s0.

(** *** Invariant of the Metadata Batcher *)

(** A well-formed entry whose length is the duration recorded for its id. *)
Definition recorded_entry (s : state) (entry : metadata_entry) : Prop :=
  exists vid len,
    entry = Entry (Some vid) (Some len)
    /\ str_truthy vid = true /\ float_truthy len = true
    /\ video_lengths s !! vid = Some len.

(** The batch holds one entry per id, each of them recorded. *)
Definition batch_recorded (s : state) (b : batcher) : Prop :=
  NoDup (entry_Id <$> new_metadata b) /\ Forall (recorded_entry s) (new_metadata b).

End ThumbnailGenerator.

(** ** message_handler.py *)

Module MessageHandler.

(** The dictionary built by [build_message_data]. *)
Record message_data : Type := MessageData {
  Id : string;
  Discord_id : string;
  Poster : string;
  Date : Q;
  Link_to_message : string;
  Description : string;
  Attachment_URL : string;
  Filename : string;
  Expire_Timestamp : option Z;
  channelId : string
}.

(** The poster dictionary [{"Name": ..., "Url": ...}]. *)
Record user_data : Type := UserData { Name : string; Url : option string }.

Inductive event : Type :=
  | PushBatchMsgs (messages : list message_data)
  | PushBatchUserData (users : gmap string user_data)
  | LogUploading (n_messages n_users : nat).

Record handler : Type := Handler {
  batch_size : nat;
  flush_interval : Q;
  pending_messages : list message_data;
  pending_users : gmap string user_data;
  last_flush_time : Q
}.

(** [MessageHandler(..., batch_size=30, flush_interval=60)] created at [now]. *)
Definition init (now : Q) : handler := Handler 30 60 [] ∅ now.

(** How a call of [upload] ends: it returns, or one of the two batch writers
    of the datastore raises. *)
Inductive upload_outcome : Type :=
  | UploadReturns
  | PushMsgsRaises (exc : string)
  | PushUsersRaises (exc : string).

(** [upload]; nothing in it catches an exception. *)
Definition upload (outcome : upload_outcome) (messages : list message_data)
    (users : gmap string user_data) : list event * pyresult unit :=
  match outcome with
  | UploadReturns =>
      ([PushBatchMsgs messages; PushBatchUserData users;
        LogUploading (length messages) (size users)], Returns tt)
  | PushMsgsRaises exc => ([PushBatchMsgs messages], Raises exc)
  | PushUsersRaises exc => ([PushBatchMsgs messages; PushBatchUserData users], Raises exc)
  end.

(** The [try] block of the loop: [item] is what [message_queue.get] gave,
    [None] standing for [Empty]. *)
Definition receive (item : option (message_data * user_data)) (h : handler) : handler :=
  match item with
  | None => h
  | Some (message, author) =>
      let username := Name author in
      let users :=
        if str_truthy username && negb (bool_decide (is_Some (pending_users h !! username)))
        then <[username := author]> (pending_users h)
        else pending_users h in
      Handler (batch_size h) (flush_interval h) (pending_messages h ++ [message])
              users (last_flush_time h)
  end.

(** The flush test of the loop, read at time [now]. *)
Definition flush_triggered (now : Q) (h : handler) : bool :=
  (batch_size h <=? length (pending_messages h))%nat
  || time_ge (now - last_flush_time h) (flush_interval h).

(** The flush of the live loop: [now'] is the reading that resets the timer.
    The call of [upload] is not guarded: when it raises, the buffer is not
    cleared, the timer is not reset and the exception leaves the loop. *)
Definition live_flush (outcome : upload_outcome) (now' : Q) (h : handler)
  : handler * list event * pyresult unit :=
  let '(t, r) := upload outcome (pending_messages h) (pending_users h) in
  match r with
  | Returns _ =>
      (Handler (batch_size h) (flush_interval h) [] (pending_users h) now', t, Returns tt)
  | Raises exc => (h, t, Raises exc)
  end.

(** One turn of [start_live_message_handling]; [outcome] is how the upload of
    the turn ends, if the turn makes one. *)
Definition live_iteration (outcome : upload_outcome)
    (item : option (message_data * user_data)) (now now' : Q) (h : handler)
  : handler * list event * pyresult unit :=
  let h1 := receive item h in
  if flush_triggered now h1 then
    match pending_messages h1 with
    | [] => (h1, [], Returns tt)
    | _ :: _ => live_flush outcome now' h1
    end
  else (h1, [], Returns tt).

(** [shutdown]; when [upload] raises, neither buffer is cleared. *)
Definition shutdown (outcome : upload_outcome) (h : handler)
  : handler * list event * pyresult unit :=
  if negb (bool_decide (pending_messages h = [])) || negb (bool_decide (pending_users h = ∅))
  then
    let '(t, r) := upload outcome (pending_messages h) (pending_users h) in
    match r with
    | Returns _ =>
        (Handler (batch_size h) (flush_interval h) [] ∅ (last_flush_time h), t, Returns tt)
    | Raises exc => (h, t, Raises exc)
    end
  else (h, [], Returns tt).

(** A turn of the live loop: what the queue gave, the two clock readings and
    the outcome of the upload. *)
Definition turn : Type := option (message_data * user_data) * Q * Q * upload_outcome.

(** A run of the live loop, one [turn] after the other; the exception of an
    upload ends it. *)
Fixpoint live_run (turns : list turn) (h : handler)
  : handler * list event * pyresult unit :=
  match turns with
  | [] => (h, [], Returns tt)
  | (item, now, now', outcome) :: turns' =>
      let '(h1, t1, r1) := live_iteration outcome item now now' h in
      match r1 with
      | Returns _ =>
          let '(h2, t2, r2) := live_run turns' h1 in
          (h2, t1 ++ t2, r2)
      | Raises exc => (h1, t1, Raises exc)
      end
  end.

(** The messages a trace hands to [push_batch_msgs], in order. *)
Definition uploaded_messages (t : list event) : list message_data :=
  flat_map (fun ev => match ev with PushBatchMsgs ms => ms | _ => [] end) t.

(** The messages the queue gave during a run, in order. *)
Definition received (turns : list turn) : list message_data :=
  omap (fun tn : turn => fst <$> tn.1.1.1) turns.

(** The turns a run goes through: all of them, or those up to the first
    whose upload raises, that one included. *)
Fixpoint turns_run (turns : list turn) (h : handler) : list turn :=
  match turns with
  | [] => []
  | (item, now, now', outcome) :: turns' =>
      let '(h1, _, r1) := live_iteration outcome item now now' h in
      (item, now, now', outcome)
        :: match r1 with
           | Returns _ => turns_run turns' h1
           | Raises _ => []
           end
  end.

End MessageHandler.

(** ** Python's heapq, on lists indexed from 0 *)

Module Heapq.

Section Heapq.
Context {A : Type} (lt : A -> A -> bool).

(** [j] is a child of [i] in the implicit binary tree. *)
Definition child_of (i j : nat) : Prop :=
  j = (2 * i + 1)%nat \/ j = (2 * i + 2)%nat.

(** The heap invariant of [heapq]: no item is smaller than its parent. *)
Definition is_heap (heap : list A) : Prop :=
  forall i j x y,
    child_of i j -> heap !! i = Some x -> heap !! j = Some y -> lt y x = false.

(** The heap order away from a hole at [pos]: all pairs that do not involve
    [pos] are in order, and so are the parent and the children of [pos]. *)
Definition hole_down (heap : list A) (pos : nat) : Prop :=
  (pos < length heap)%nat
  /\ (forall i j x y,
        child_of i j -> i <> pos -> j <> pos ->
        heap !! i = Some x -> heap !! j = Some y -> lt y x = false)
  /\ (forall p j x y,
        child_of p pos -> child_of pos j ->
        heap !! p = Some x -> heap !! j = Some y -> lt y x = false).

(** The same, with [newitem], which is to fill the hole, not greater than
    the children of [pos]. *)
Definition hole_up (heap : list A) (pos : nat) (newitem : A) : Prop :=
  hole_down heap pos
  /\ (forall j y, child_of pos j -> heap !! j = Some y -> lt y newitem = false).

(** The [while pos > startpos] loop of [_siftdown]: [newitem] travels
    towards the root until its parent is not greater.  [pos] strictly
    decreases, so [fuel = pos] is never exhausted. *)
Fixpoint siftdown_loop (fuel : nat) (heap : list A) (startpos pos : nat) (newitem : A)
  : list A :=
  match fuel with
  | O => <[pos := newitem]> heap
  | S fuel' =>
      if (startpos <? pos)%nat then
        let parentpos := ((pos - 1) / 2)%nat in
        match heap !! parentpos with
        | Some parent =>
            if lt newitem parent then
              siftdown_loop fuel' (<[pos := parent]> heap) startpos parentpos newitem
            else <[pos := newitem]> heap
        | None => <[pos := newitem]> heap
        end
      else <[pos := newitem]> heap
  end.

Definition siftdown (heap : list A) (startpos pos : nat) : list A :=
  match heap !! pos with
  | Some newitem => siftdown_loop pos heap startpos pos newitem
  | None => heap
  end.

(** The [while childpos < endpos] loop of [_siftup]: the smaller child moves
    up until the hole reaches a leaf; returns the list and the leaf. *)
Fixpoint siftup_loop (fuel : nat) (heap : list A) (endpos pos : nat) : list A * nat :=
  match fuel with
  | O => (heap, pos)
  | S fuel' =>
      let childpos := (2 * pos + 1)%nat in
      if (childpos <? endpos)%nat then
        let rightpos := (childpos + 1)%nat in
        match heap !! childpos with
        | Some lchild =>
            let '(childpos, child) :=
              match heap !! rightpos with
              | Some rchild =>
                  if (rightpos <? endpos)%nat && negb (lt lchild rchild)
                  then (rightpos, rchild) else (childpos, lchild)
              | None => (childpos, lchild)
              end in
            siftup_loop fuel' (<[pos := child]> heap) endpos childpos
        | None => (heap, pos)
        end
      else (heap, pos)
  end.

Definition siftup (heap : list A) (pos : nat) : list A :=
  let endpos := length heap in
  let startpos := pos in
  match heap !! pos with
  | Some newitem =>
      let '(heap1, pos1) := siftup_loop endpos heap endpos pos in
      siftdown (<[pos1 := newitem]> heap1) startpos pos1
  | None => heap
  end.

(** [heapq.heappush(heap, item)] *)
Definition heappush (heap : list A) (item : A) : list A :=
  siftdown (heap ++ [item]) 0 (length heap).

(** [heapq.heappop(heap)]: the smallest item and the remaining heap;
    [None] is the [IndexError] of an empty heap. *)
Definition heappop (heap : list A) : option (A * list A) :=
  match last heap with
  | None => None
  | Some lastelt =>
      let heap1 := take (length heap - 1) heap in
      match heap1 with
      | [] => Some (lastelt, [])
      | returnitem :: _ => Some (returnitem, siftup (<[0%nat := lastelt]> heap1) 0)
      end
  end.

End Heapq.

End Heapq.

(** ** refetch_handler.py *)

Module RefetchHandler.

(** An [int] or a (finite) [float]. *)
Inductive number : Type :=
  | NInt (z : Z)
  | NFloat (q : Q).

Definition number_value (n : number) : Q :=
  match n with
  | NInt z => inject_Z z
  | NFloat q => q
  end.

(** What the [Expire_Timestamp] slot of a queue entry can hold. *)
Inductive pyval : Type :=
  | PyNone
  | PyStr (s : string)
  | PyNum (n : number).

(** [isinstance(v, (int, float))] *)
Definition is_int_or_float (v : pyval) : bool :=
  match v with
  | PyNum _ => true
  | _ => false
  end.

(** An element of the refetch queue:
    [(expire_timestamp, message_id, discord_id, channel_id)]. *)
Record queue_entry : Type := QueueEntry {
  q_expire_timestamp : pyval;
  q_message_id : string;
  q_discord_id : string;
  q_channel_id : string
}.

(** An element of the heap: the same tuple, with a numeric first component. *)
Record heap_entry : Type := HeapEntry {
  expire_at : number;
  message_id : string;
  discord_id : string;
  channel_id : string
}.

(** Lexicographic chaining of three-way comparisons. *)
Definition lex (c : comparison) (rest : comparison) : comparison :=
  match c with
  | Eq => rest
  | _ => c
  end.

(** Python's ordering of the tuples: the first component that differs
    decides. *)
Definition entry_compare (x y : heap_entry) : comparison :=
  lex (Qcompare (number_value (expire_at x)) (number_value (expire_at y)))
 (lex (String.compare (message_id x) (message_id y))
 (lex (String.compare (discord_id x) (discord_id y))
      (String.compare (channel_id x) (channel_id y)))).

(** [x < y] on tuples. *)
Definition entry_lt (x y : heap_entry) : bool :=
  match entry_compare x y with
  | Lt => true
  | _ => false
  end.

Inductive event : Type :=
  | LogInvalidTimestamp (message_id : string) (expire_timestamp : pyval)
  | LogRefetching (message_id channel_id : string)
  | Submit (discord_id channel_id : string)
  | LogFailed (message_id channel_id exc : string)
  | Sleep (seconds : Z).

(** The body of the inner [while not self.refetch_queue.empty()] of [start]
    for one entry. *)
Definition enqueue (entry : queue_entry) (refetch_heap : list heap_entry)
  : list heap_entry * list event :=
  match q_expire_timestamp entry with
  | PyNum n =>
      (Heapq.heappush entry_lt refetch_heap
         (HeapEntry n (q_message_id entry) (q_discord_id entry) (q_channel_id entry)),
       [])
  | v => (refetch_heap, [LogInvalidTimestamp (q_message_id entry) v])
  end.

(** Draining the refetch queue into the heap. *)
Fixpoint drain_queue (queue : list queue_entry) (refetch_heap : list heap_entry)
  : list heap_entry * list event :=
  match queue with
  | [] => (refetch_heap, [])
  | entry :: queue' =>
      let '(heap1, t1) := enqueue entry refetch_heap in
      let '(heap2, t2) := drain_queue queue' heap1 in
      (heap2, t1 ++ t2)
  end.

(** [self.refetch_heap[0][0] <= now] *)
Definition expired (now : Z) (x : heap_entry) : bool :=
  Qle_bool (number_value (expire_at x)) (inject_Z now).

(** The [while] loop of [process_expired_messages].  Every turn pops one
    entry, so [fuel = len(heap)] is never exhausted.  [submit x] is [Some exc]
    when handing the re-fetch of [x] to the bot's loop raises.  Returns the
    remaining heap, the entries popped, in order, and the trace. *)
Fixpoint process_loop (submit : heap_entry -> option string) (now : Z) (fuel : nat)
    (refetch_heap : list heap_entry) : list heap_entry * list heap_entry * list event :=
  match fuel with
  | O => (refetch_heap, [], [])
  | S fuel' =>
      match refetch_heap !! 0%nat with
      | Some top =>
          if expired now top then
            match Heapq.heappop entry_lt refetch_heap with
            | Some (x, heap1) =>
                let t :=
                  [LogRefetching (message_id x) (channel_id x);
                   Submit (discord_id x) (channel_id x)]
                  ++ match submit x with
                     | Some exc => [LogFailed (message_id x) (channel_id x) exc]
                     | None => []
                     end
                  ++ [Sleep 1] in
                let '(heap2, popped, t2) := process_loop submit now fuel' heap1 in
                (heap2, x :: popped, t ++ t2)
            | None => (refetch_heap, [], [])
            end
          else (refetch_heap, [], [])
      | None => (refetch_heap, [], [])
      end
  end.

(** [process_expired_messages], with [now = int(time.time())]. *)
Definition process_expired_messages (submit : heap_entry -> option string) (now : Z)
    (refetch_heap : list heap_entry) : list heap_entry * list heap_entry * list event :=
  process_loop submit now (length refetch_heap) refetch_heap.

(** The heap entry a queue entry becomes, when its timestamp is numeric. *)
Definition heap_entry_of (entry : queue_entry) : option heap_entry :=
  match q_expire_timestamp entry with
  | PyNum n => Some (HeapEntry n (q_message_id entry) (q_discord_id entry) (q_channel_id entry))
  | _ => None
  end.

(** The error line for a queue entry, when its timestamp is not numeric. *)
Definition invalid_log_of (entry : queue_entry) : option event :=
  if is_int_or_float (q_expire_timestamp entry) then None
  else Some (LogInvalidTimestamp (q_message_id entry) (q_expire_timestamp entry)).

(** [x] does not expire after [y]. *)
Definition expires_before (x y : heap_entry) : Prop :=
  (number_value (expire_at x) <= number_value (expire_at y))%Q.

(** A three-way comparison that is a total preorder: swapping the arguments
    reverses the answer, [Eq] is a congruence and [Lt] is transitive. *)
Record good_compare {T : Type} (cmp : T -> T -> comparison) : Prop := GoodCompare {
  gc_antisym : forall x y, cmp y x = CompOpp (cmp x y);
  gc_eq : forall x y z c, cmp x y = Eq -> cmp y z = c -> cmp x z = c;
  gc_lt : forall x y z, cmp x y = Lt -> cmp y z = Lt -> cmp x z = Lt
}.

(** The re-fetches handed to the bot, as [(discord_id, channel_id)] pairs. *)
Definition submitted (t : list event) : list (string * string) :=
  omap (fun e => match e with Submit d c => Some (d, c) | _ => None end) t.

(** The re-fetches dispatched: the hand-overs that returned, that is, those
    not answered by the error line of the [except] clause. *)
Fixpoint dispatched (t : list event) : list (string * string) :=
  match t with
  | [] => []
  | Submit d c :: t' =>
      match t' with
      | LogFailed _ _ _ :: _ => dispatched t'
      | _ => (d, c) :: dispatched t'
      end
  | _ :: t' => dispatched t'
  end.

(** In the words of the specification: an entry is due at [now] when its
    [expire_at] is at most [now], and pending when it is later. *)
Definition spec_due (now : Z) (x : heap_entry) : Prop :=
  (number_value (expire_at x) <= inject_Z now)%Q.

Definition spec_pending (now : Z) (x : heap_entry) : Prop :=
  (inject_Z now < number_value (expire_at x))%Q.

Global Instance spec_due_dec (now : Z) (x : heap_entry) : Decision (spec_due now x).
Proof.
  unfold spec_due. destruct (Qlt_le_dec (inject_Z now) (number_value (expire_at x))) as [H|H].
  - right. by apply Qlt_not_le.
  - by left.
Defined.

Global Instance spec_pending_dec (now : Z) (x : heap_entry) : Decision (spec_pending now x).
Proof.
  unfold spec_pending. destruct (Qlt_le_dec (inject_Z now) (number_value (expire_at x))) as [H|H].
  - by left.
  - right. by apply Qle_not_lt.
Defined.

(** The failures logged by [process_expired_messages], as
    [(message_id, channel_id, exc)] triples. *)
Definition failures (t : list event) : list (string * string * string) :=
  omap (fun e => match e with LogFailed m c exc => Some (m, c, exc) | _ => None end) t.

(** *** [populate_refetch_queue_from_datastore] *)

(** A message document as [get_all_messages] returns it, with the four keys
    the scheduler reads; [None] stands for a missing key. *)
Record stored_message : Type := StoredMessage {
  sm_Id : option string;
  sm_Expire_Timestamp : pyval;
  sm_Discord_id : option string;
  sm_channelId : option string
}.

(** [bool(v)] *)
Definition pyval_truthy (v : pyval) : bool :=
  match v with
  | PyNone => false
  | PyStr s => str_truthy s
  | PyNum (NInt z) => negb (z =? 0)
  | PyNum (NFloat q) => negb (Qeq_bool q 0)
  end.

(** [bool(message.get(key))] for a key that holds a string. *)
Definition opt_str_truthy (o : option string) : bool :=
  match o with
  | Some s => str_truthy s
  | None => false
  end.

Inductive populate_event : Type :=
  | LogNoDatastore
  | LogPopulating
  | LogRetrieved (n : nat)
  | LogAdded (message_id : string)
  | LogMissingFields (message_id : option string)
  | LogPopulateError (exc : string).

(** [expire_timestamp and discord_id and channel_id] *)
Definition complete (message : stored_message) : bool :=
  pyval_truthy (sm_Expire_Timestamp message)
  && opt_str_truthy (sm_Discord_id message)
  && opt_str_truthy (sm_channelId message).

(** The [for] loop of [populate_refetch_queue_from_datastore]: the entries
    put on the refetch queue, the log, and the exception that ended the loop,
    if any ([message["Id"]] raises [KeyError] when the key is missing). *)
Fixpoint populate_loop (messages : list stored_message)
  : list queue_entry * list populate_event * option string :=
  match messages with
  | [] => ([], [], None)
  | message :: messages' =>
      if complete message then
        match sm_Id message, sm_Discord_id message, sm_channelId message with
        | Some id, Some discord_id, Some channel_id =>
            let '(queue, t, exc) := populate_loop messages' in
            (QueueEntry (sm_Expire_Timestamp message) id discord_id channel_id :: queue,
             LogAdded id :: t, exc)
        | _, _, _ => ([], [], Some "KeyError")
        end
      else
        let '(queue, t, exc) := populate_loop messages' in
        (queue, LogMissingFields (sm_Id message) :: t, exc)
  end.

(** [populate_refetch_queue_from_datastore]: [messages] is what
    [get_all_messages] returns when there is a datastore. *)
Definition populate_refetch_queue_from_datastore (datastore : option (list stored_message))
  : list queue_entry * list populate_event :=
  match datastore with
  | None => ([], [LogNoDatastore])
  | Some messages =>
      let '(queue, t, exc) := populate_loop messages in
      (queue,
       [LogPopulating; LogRetrieved (length messages)] ++ t
       ++ match exc with
          | Some e => [LogPopulateError e]
          | None => []
          end)
  end.

(** The queue entry of a complete message that has its ["Id"]. *)
Definition queue_entry_of (message : stored_message) : option queue_entry :=
  if complete message then
    match sm_Id message, sm_Discord_id message, sm_channelId message with
    | Some id, Some discord_id, Some channel_id =>
        Some (QueueEntry (sm_Expire_Timestamp message) id discord_id channel_id)
    | _, _, _ => None
    end
  else None.

(** A complete message without ["Id"]: the one that ends the loop. *)
Definition breaks_populate (message : stored_message) : bool :=
  complete message && negb (bool_decide (is_Some (sm_Id message))).

(** *** The outer loop of [start] *)

(** The heap together with the two locals of [start]. *)
Record scheduler : Type := Scheduler {
  refetch_heap : list heap_entry;
  last_message_time : Q;
  print_sleeping : bool
}.

Inductive cycle_event : Type :=
  | Processing (ev : event)
  | LogSleeping (check_interval : Z)
  | LogHeapSize (n : nat)
  | LogLowest (top : heap_entry).

(** The inner [while not self.refetch_queue.empty()]: each arrival comes with
    the reading of [time.time()] taken when it is seen. *)
Fixpoint take_arrivals (arrivals : list (queue_entry * Q)) (sch : scheduler)
  : scheduler * list event :=
  match arrivals with
  | [] => (sch, [])
  | (entry, seen_at) :: arrivals' =>
      let '(heap1, t1) := enqueue entry (refetch_heap sch) in
      let '(sch2, t2) := take_arrivals arrivals' (Scheduler heap1 seen_at true) in
      (sch2, t1 ++ t2)
  end.

(** One turn of the [while True] of [start]: [checked_at] is the reading of
    [time.time()] in the test of the five minutes, [now] the value of
    [int(time.time())] inside [process_expired_messages]. *)
Definition start_cycle (submit : heap_entry -> option string) (check_interval : Z)
    (arrivals : list (queue_entry * Q)) (checked_at : Q) (now : Z) (sch : scheduler)
  : scheduler * list cycle_event :=
  let '(sch1, t1) := take_arrivals arrivals sch in
  let '(heap2, t2) :=
    if Qlt_le_dec (last_message_time sch1 + 300) checked_at then
      let '(heap2, _, t2) := process_expired_messages submit now (refetch_heap sch1) in
      (heap2, t2)
    else (refetch_heap sch1, []) in
  let t3 :=
    if print_sleeping sch1 then
      [LogSleeping check_interval; LogHeapSize (length heap2)]
      ++ match heap2 !! 0%nat with
         | Some top => [LogLowest top]
         | None => []
         end
    else [] in
  (Scheduler heap2 (last_message_time sch1) false,
   (Processing <$> t1) ++ (Processing <$> t2) ++ t3 ++ [Processing (Sleep check_interval)]).

(** Any number of turns of the loop. *)
Fixpoint start_run (submit : heap_entry -> option string) (check_interval : Z)
    (cycles : list (list (queue_entry * Q) * Q * Z)) (sch : scheduler)
  : scheduler * list cycle_event :=
  match cycles with
  | [] => (sch, [])
  | (arrivals, checked_at, now) :: cycles' =>
      let '(sch1, t1) := start_cycle submit check_interval arrivals checked_at now sch in
      let '(sch2, t2) := start_run submit check_interval cycles' sch1 in
      (sch2, t1 ++ t2)
  end.

(** The re-fetches handed to the bot during turns of the loop. *)
Definition cycle_submitted (t : list cycle_event) : list (string * string) :=
  submitted (omap (fun e => match e with Processing ev => Some ev | _ => None end) t).

(** In this turn the five minutes have not passed since the last arrival. *)
Definition gate_closed (cycle : list (queue_entry * Q) * Q * Z) : Prop :=
  match last cycle.1.1 with
  | Some (_, seen_at) => (cycle.1.2 <= seen_at + 300)%Q
  | None => False
  end.

End RefetchHandler.


(** ** datastore.py *)

Module DatastoreHandler.

(** The calls the two batch writers make on the Firestore client; [i] is the
    position, in the list being pushed, of the item the call is made for. *)
Inductive call : Type :=
  | CallBatch
  | CallDocument (i : nat)
  | CallGet (i : nat)
  | CallSet (i : nat)
  | CallUpdate (i : nat)
  | CallCommit.

(** A write staged in the [WriteBatch]: [batch.set(doc_ref, message)] or
    [batch.update(doc_ref, {"Runtime": runtime_value})]. *)
Inductive write : Type :=
  | WriteSet (doc_id : string) (data : MessageHandler.message_data)
  | WriteUpdate (doc_id : string) (Runtime : pyfloat).

Definition write_id (w : write) : string :=
  match w with
  | WriteSet doc_id _ => doc_id
  | WriteUpdate doc_id _ => doc_id
  end.

(** The log lines of the two batch writers, and [Commit]: [batch.commit()]
    has returned, for a batch holding [writes] in the order they were staged. *)
Inductive event : Type :=
  | LogNoMessages
  | LogPushingMessages (n : nat)
  | LogSkippingMessage
  | LogPushedMessages (n : nat)
  | LogErrorPushingMessages (exc : string)
  | LogNoRuntimes
  | LogPushingRuntimes (n : nat)
  | LogSkippingRuntime
  | LogRuntimeNotFound (msg_id : string)
  | LogPushedRuntimes (n : nat)
  | LogErrorPushingRuntimes (exc : string)
  | Commit (writes : list write).

Section Firestore.

(** The exception a client call raises, if it raises one. *)
Variable raises : call -> option string.

(** [doc.exists] for the document read for the item at position [i]. *)
Variable doc_exists : nat -> bool.

(** What the rest of the [for] loop adds to the log and to the staged writes
    of an iteration that went through. *)
Definition and_then (logged : list event) (staged : list write)
    (rest : list event * pyresult (list write)) : list event * pyresult (list write) :=
  (logged ++ rest.1,
   match rest.2 with
   | Returns staged' => Returns (staged ++ staged')
   | Raises exc => Raises exc
   end).

(** The [for message in messages] loop of [push_batch_msgs], from position
    [i] on: the lines logged, and the writes staged or the exception that
    ended the loop. *)
Fixpoint stage_messages (i : nat) (messages : list MessageHandler.message_data)
  : list event * pyresult (list write) :=
  match messages with
  | [] => ([], Returns [])
  | message :: messages' =>
      let msg_id := MessageHandler.Id message in
      if negb (str_truthy msg_id) then
        and_then [LogSkippingMessage] [] (stage_messages (S i) messages')
      else
        match raises (CallDocument i) with
        | Some exc => ([], Raises exc)
        | None =>
            match raises (CallSet i) with
            | Some exc => ([], Raises exc)
            | None => and_then [] [WriteSet msg_id message] (stage_messages (S i) messages')
            end
        end
  end.

(** [push_batch_msgs] *)
Definition push_batch_msgs (messages : list MessageHandler.message_data)
  : list event * pyresult unit :=
  match messages with
  | [] => ([LogNoMessages], Returns tt)
  | _ :: _ =>
      let n := length messages in
      match raises CallBatch with
      | Some exc => ([LogPushingMessages n], Raises exc)
      | None =>
          let '(t, r) := stage_messages 0 messages in
          match r with
          | Raises exc =>
              (LogPushingMessages n :: t ++ [LogErrorPushingMessages exc], Returns tt)
          | Returns staged =>
              match raises CallCommit with
              | Some exc =>
                  (LogPushingMessages n :: t ++ [LogErrorPushingMessages exc], Returns tt)
              | None =>
                  (LogPushingMessages n :: t ++ [Commit staged; LogPushedMessages n],
                   Returns tt)
              end
          end
      end
  end.

(** The [for runtime in runtimes] loop of [push_batch_runtimes], from
    position [i] on. *)
Fixpoint stage_runtimes (i : nat) (runtimes : list ThumbnailGenerator.metadata_entry)
  : list event * pyresult (list write) :=
  match runtimes with
  | [] => ([], Returns [])
  | runtime :: runtimes' =>
      match ThumbnailGenerator.entry_Id runtime, ThumbnailGenerator.entry_Length runtime with
      | Some msg_id, Some runtime_value =>
          if negb (str_truthy msg_id) then
            and_then [LogSkippingRuntime] [] (stage_runtimes (S i) runtimes')
          else
            match raises (CallDocument i) with
            | Some exc => ([], Raises exc)
            | None =>
                match raises (CallGet i) with
                | Some exc => ([], Raises exc)
                | None =>
                    if negb (doc_exists i) then
                      and_then [LogRuntimeNotFound msg_id] []
                               (stage_runtimes (S i) runtimes')
                    else
                      match raises (CallUpdate i) with
                      | Some exc => ([], Raises exc)
                      | None =>
                          and_then [] [WriteUpdate msg_id runtime_value]
                                   (stage_runtimes (S i) runtimes')
                      end
                end
            end
      | _, _ => and_then [LogSkippingRuntime] [] (stage_runtimes (S i) runtimes')
      end
  end.

(** [push_batch_runtimes] *)
Definition push_batch_runtimes (runtimes : list ThumbnailGenerator.metadata_entry)
  : list event * pyresult unit :=
  match runtimes with
  | [] => ([LogNoRuntimes], Returns tt)
  | _ :: _ =>
      let n := length runtimes in
      match raises CallBatch with
      | Some exc => ([LogPushingRuntimes n], Raises exc)
      | None =>
          let '(t, r) := stage_runtimes 0 runtimes in
          match r with
          | Raises exc =>
              (LogPushingRuntimes n :: t ++ [LogErrorPushingRuntimes exc], Returns tt)
          | Returns staged =>
              match raises CallCommit with
              | Some exc =>
                  (LogPushingRuntimes n :: t ++ [LogErrorPushingRuntimes exc], Returns tt)
              | None =>
                  (LogPushingRuntimes n :: t ++ [Commit staged; LogPushedRuntimes n],
                   Returns tt)
              end
          end
      end
  end.

(** [upload_runtime] of the generator hands the batch to
    [push_batch_runtimes] and catches nothing: how it ends, [Some exc] when
    it raises [exc]. *)
Definition upload_runtime (runtime_batch : list ThumbnailGenerator.metadata_entry)
  : option string :=
  match (push_batch_runtimes runtime_batch).2 with
  | Returns _ => None
  | Raises exc => Some exc
  end.

End Firestore.

(** The batches a trace has committed. *)
Definition committed (t : list event) : list (list write) :=
  omap (fun ev => match ev with Commit writes => Some writes | _ => None end) t.

(** A client on which no call raises. *)
Definition reliable : call -> option string := fun _ => None.

End DatastoreHandler.


(** * Properties *)

(** ** Resource ids ([discord_bot_handler.py]) *)

Module BotFacts.
Import DiscordBotHandler.

(** Test vectors of RFC 1321 and of [hashlib]. *)
Example md5_empty :
  String.string_of_list_ascii (md5_hexdigest []) = "d41d8cd98f00b204e9800998ecf8427e".
Proof. vm_compute. reflexivity. Qed.

Example md5_abc :
  String.string_of_list_ascii (md5_hexdigest [97; 98; 99]) = "900150983cd24fb0d6963f7d28e17f72".
Proof. vm_compute. reflexivity. Qed.

Example md5_two_blocks :
  String.string_of_list_ascii (md5_hexdigest (repeat 97 70)) = "0f5c6c4e740bfcc08c3c26ccb2673d46".
Proof. vm_compute. reflexivity. Qed.

Example utf8_md5_non_ascii :
  option_map (fun b => (b, String.string_of_list_ascii (md5_hexdigest b)))
             (utf8_encode [233; 8364; 128512])
  = Some ([0xc3; 0xa9; 0xe2; 0x82; 0xac; 0xf0; 0x9f; 0x98; 0x80],
          "3b07a39fef0ac5d7ef21575e7315a482").
Proof. vm_compute. reflexivity. Qed.

Example generate_message_id_sample :
  generate_message_id
    (pystr_of_string "123456789012345678")
    (pystr_of_string "2024-11-13 04:05:06.789000+00:00")
    (pystr_of_string "https://cdn.discordapp.com/attachments/1180731401503506453/1291615821864501260/help.mp4")
  = Returns "ac02bcf4".
Proof. vm_compute. reflexivity. Qed.

Example trim_sample :
  trim_attachment_url (pystr_of_string "https://h/a.mp4?ex=67357a78&is=673428f8&hm=22eb&")
  = pystr_of_string "https://h/a.mp4".
Proof. vm_compute. reflexivity. Qed.

Example trim_takes_last_marker :
  trim_attachment_url (pystr_of_string "ab?ex=1?ex=2&is=3") = pystr_of_string "ab?ex=1".
Proof. vm_compute. reflexivity. Qed.

Example trim_without_marker :
  trim_attachment_url (pystr_of_string "https://h/a.mp4") = pystr_of_string "https://h/a.mp4".
Proof. vm_compute. reflexivity. Qed.

(** *** Trimming *)

Lemma last_occurrence_absent (s : pystr) :
  str_contains ex_marker s = false -> last_occurrence ex_marker s = None.
Proof.
  induction s as [|c s IH]; [done|].
  cbn [str_contains last_occurrence]. intros H.
  apply orb_false_elim in H as [Hhead Htail].
  rewrite (IH Htail), Hhead. done.
Qed.

Lemma last_occurrence_at_marker (s : pystr) :
  last_occurrence ex_marker s = None ->
  last_occurrence ex_marker (ex_marker ++ s) = Some 0%nat.
Proof.
  intros H. change (ex_marker ++ s) with (63 :: 101 :: 120 :: 61 :: s).
  cbn [last_occurrence]. rewrite H. reflexivity.
Qed.

Lemma last_occurrence_app (base l : pystr) (k : nat) :
  last_occurrence ex_marker l = Some k ->
  last_occurrence ex_marker (base ++ l) = Some (length base + k)%nat.
Proof.
  intros H. induction base as [|c base IH]; [done|].
  cbn [app last_occurrence length]. rewrite IH. done.
Qed.

Lemma str_contains_app (base s : pystr) :
  str_contains ex_marker (base ++ ex_marker ++ s) = true.
Proof.
  induction base as [|c base IH].
  - change (ex_marker ++ s) with (63 :: 101 :: 120 :: 61 :: s). reflexivity.
  - cbn [app str_contains]. rewrite IH. apply orb_true_r.
Qed.

(** Everything from the last ["?ex="] on is dropped. *)
Lemma trim_attachment_url_marker (base s : pystr) :
  str_contains ex_marker s = false ->
  trim_attachment_url (base ++ ex_marker ++ s) = base.
Proof.
  intros Hs. unfold trim_attachment_url. rewrite str_contains_app.
  unfold str_rfind.
  rewrite (last_occurrence_app base _ 0),
    Nat.add_0_r by (by apply last_occurrence_at_marker, last_occurrence_absent).
  unfold str_slice_to.
  destruct (Z.ltb_spec (Z.of_nat (length base)) 0) as [Hneg|_]; [lia|].
  rewrite Nat2Z.id. apply take_app_length.
Qed.

(** *** The digest *)

Lemma length_bytes_le (n : nat) (x : Z) : length (bytes_le n x) = n.
Proof. unfold bytes_le. by rewrite length_map, length_seq. Qed.

Lemma bytes_le_range (n : nat) (x : Z) :
  Forall (fun b => 0 <= b < 256) (bytes_le n x).
Proof.
  unfold bytes_le. apply Forall_forall. intros b Hb.
  apply list_elem_of_In, in_map_iff in Hb as (k & <- & _).
  apply Z.mod_pos_bound. lia.
Qed.

Lemma length_md5_digest (msg : list Z) : length (md5_digest msg) = 16%nat.
Proof. unfold md5_digest. by rewrite !length_app, !length_bytes_le. Qed.

Lemma md5_digest_range (msg : list Z) :
  Forall (fun b => 0 <= b < 256) (md5_digest msg).
Proof. unfold md5_digest. rewrite !Forall_app. repeat split; apply bytes_le_range. Qed.

Lemma hex_digit_lower (n : Z) : 0 <= n < 16 -> is_lower_hex (hex_digit n) = true.
Proof.
  intros Hn. unfold hex_digit.
  assert (Hk : (Z.to_nat n < 16)%nat) by lia.
  generalize dependent (Z.to_nat n). intros k Hk.
  do 16 (destruct k as [|k]; [reflexivity|]). lia.
Qed.

Lemma length_flat_map_hex (bs : list Z) :
  length (flat_map hex_of_byte bs) = (2 * length bs)%nat.
Proof. induction bs as [|b bs IH]; cbn [flat_map length app hex_of_byte]; lia. Qed.

Lemma length_md5_hexdigest (msg : list Z) : length (md5_hexdigest msg) = 32%nat.
Proof. unfold md5_hexdigest. by rewrite length_flat_map_hex, length_md5_digest. Qed.

Lemma md5_hexdigest_lower (msg : list Z) :
  Forall (fun a => is_lower_hex a = true) (md5_hexdigest msg).
Proof.
  unfold md5_hexdigest. induction (md5_digest_range msg) as [|b bs Hb _ IH]; [constructor|].
  cbn [flat_map hex_of_byte app].
  constructor; [|constructor; [|exact IH]]; apply hex_digit_lower.
  - split; [apply Z.div_pos; lia | apply Z.div_lt_upper_bound; lia].
  - apply Z.mod_pos_bound. lia.
Qed.

(** The fuel of [md5_blocks] is never what stops it: one unit per block is
    already enough. *)
Lemma md5_blocks_fuel (fuel1 : nat) : forall (fuel2 : nat) (st : md5_state) (bs : list Z),
  (length bs <= fuel1)%nat -> (length bs <= fuel2)%nat ->
  md5_blocks fuel1 st bs = md5_blocks fuel2 st bs.
Proof.
  induction fuel1 as [|fuel1 IH]; intros [|fuel2] st [|b bs] H1 H2; cbn in *;
    try done; try lia.
  apply IH; rewrite length_drop; lia.
Qed.

(** *** Encoding *)

Lemma utf8_encode_char_Some (c : Z) :
  unicode_scalar c -> is_Some (utf8_encode_char c).
Proof.
  intros [Hr Hs]. unfold utf8_encode_char, is_surrogate.
  repeat case_match; try done; lia.
Qed.

Lemma utf8_encode_Some (s : pystr) :
  Forall unicode_scalar s -> is_Some (utf8_encode s).
Proof.
  induction 1 as [|c s Hc _ [bs IH]]; [done|].
  cbn [utf8_encode]. destruct (utf8_encode_char_Some c Hc) as [b ->].
  rewrite IH. done.
Qed.

Lemma utf8_encode_surrogate (pre post : pystr) (c : Z) :
  0xD800 <= c <= 0xDFFF -> utf8_encode (pre ++ c :: post) = None.
Proof.
  intros Hc. induction pre as [|d pre IH].
  - cbn [app utf8_encode]. unfold utf8_encode_char, is_surrogate.
    repeat case_match; try done; lia.
  - cbn [app utf8_encode]. rewrite IH. by destruct (utf8_encode_char d).
Qed.

Lemma length_string_of_list_ascii (l : list ascii) :
  String.length (String.string_of_list_ascii l) = length l.
Proof. induction l as [|a l IH]; cbn; [done | by rewrite IH]. Qed.

(** *** The claims on resource ids *)

(** C2. The resource id is a function of its three arguments, so computing
    it twice gives the same outcome; and two attachment URLs that agree up to
    their last ["?ex="] (the expiry parameter and what follows it) get the
    same resource id from [process_message]. *)
Theorem C2_resource_id_stable (author created base tail1 tail2 : pystr) :
  str_contains ex_marker tail1 = false ->
  str_contains ex_marker tail2 = false ->
  (forall r1 r2,
      r1 = generate_message_id author created base ->
      r2 = generate_message_id author created base -> r1 = r2)
  /\ trim_attachment_url (base ++ ex_marker ++ tail1) = base
  /\ attachment_uuid author created (base ++ ex_marker ++ tail1)
     = attachment_uuid author created (base ++ ex_marker ++ tail2).
Proof.
  intros H1 H2. split; [congruence|].
  unfold attachment_uuid. by rewrite !trim_attachment_url_marker.
Qed.

Lemma C2_resource_id_stable_witness :
  let author := pystr_of_string "123456789012345678" in
  let created := pystr_of_string "2024-11-13 04:05:06.789000+00:00" in
  let base := pystr_of_string "https://cdn.discordapp.com/attachments/1/2/help.mp4" in
  attachment_uuid author created
    (base ++ ex_marker ++ pystr_of_string "67357a78&is=673428f8&hm=22eb4c67&")
  = attachment_uuid author created
      (base ++ ex_marker ++ pystr_of_string "68000000&is=67fff000&hm=0badcafe&").
Proof.
  intros author created base.
  apply (C2_resource_id_stable author created base
           (pystr_of_string "67357a78&is=673428f8&hm=22eb4c67&")
           (pystr_of_string "68000000&is=67fff000&hm=0badcafe&"));
    vm_compute; reflexivity.
Defined.

(** C10, as stated, fails: a URL holding a lone surrogate code point (which a
    Python [str] can hold) makes [.encode()] raise [UnicodeEncodeError], so no
    id is returned. *)
Lemma C10_counterexample :
  generate_message_id (pystr_of_string "1") (pystr_of_string "2024-11-13")
                      (pystr_of_string "https://h/" ++ [0xD800])
  = Raises "UnicodeEncodeError"
  /\ ~ (exists id, generate_message_id (pystr_of_string "1") (pystr_of_string "2024-11-13")
                      (pystr_of_string "https://h/" ++ [0xD800]) = Returns id
                   /\ String.length id = 8%nat).
Proof.
  split; [vm_compute; reflexivity|].
  intros (id & H & _). vm_compute in H. discriminate H.
Qed.

(** C10, amended. When the rendered text of the three arguments holds only
    code points that UTF-8 can carry (none is a surrogate), the call does not
    raise and returns exactly 8 characters, each a lowercase hexadecimal
    digit: the first 8 hex digits of the MD5 of the UTF-8 encoding of the
    concatenation.  A surrogate anywhere in the text makes the call raise. *)
Theorem C10_message_id_is_8_hex (author created attachment : pystr) :
  Forall unicode_scalar (author ++ created ++ attachment) ->
  exists bytes id,
    utf8_encode (author ++ created ++ attachment) = Some bytes
    /\ generate_message_id author created attachment = Returns id
    /\ id = String.string_of_list_ascii (take 8 (md5_hexdigest bytes))
    /\ String.length id = 8%nat
    /\ Forall (fun a => is_lower_hex a = true) (String.list_ascii_of_string id).
Proof.
  intros Hs. destruct (utf8_encode_Some _ Hs) as [bytes Hb].
  exists bytes, (String.string_of_list_ascii (take 8 (md5_hexdigest bytes))).
  unfold generate_message_id. rewrite Hb.
  split; [done|]. split; [done|]. split; [done|]. split.
  - rewrite length_string_of_list_ascii, length_take, length_md5_hexdigest. done.
  - rewrite String.list_ascii_of_string_of_list_ascii.
    apply Forall_take, md5_hexdigest_lower.
Qed.

Lemma C10_message_id_is_8_hex_witness :
  exists bytes id,
    utf8_encode (pystr_of_string "42" ++ pystr_of_string "2024-11-13 04:05:06+00:00"
                   ++ [104; 116; 116; 112; 115; 58; 47; 47; 233; 8364; 128512]) = Some bytes
    /\ generate_message_id (pystr_of_string "42") (pystr_of_string "2024-11-13 04:05:06+00:00")
         [104; 116; 116; 112; 115; 58; 47; 47; 233; 8364; 128512] = Returns id
    /\ id = String.string_of_list_ascii (take 8 (md5_hexdigest bytes))
    /\ String.length id = 8%nat
    /\ Forall (fun a => is_lower_hex a = true) (String.list_ascii_of_string id).
Proof.
  apply (C10_message_id_is_8_hex (pystr_of_string "42")
           (pystr_of_string "2024-11-13 04:05:06+00:00")
           [104; 116; 116; 112; 115; 58; 47; 47; 233; 8364; 128512]).
  apply (bool_decide_unpack _). vm_compute. exact I.
Defined.

End BotFacts.

(** ** The Media Processor ([thumbnail_gen.py]) *)

Module ProcessorFacts.
Import ThumbnailGenerator.

Ltac unfold_M :=
  unfold mbind, M_bind, mret, M_ret, log_item, path_exists, when in *;
  unfold bind, ret, gets, emit, modify, raise, try_except in *.

(** C1. A descriptor whose id is already in [video_lengths] and in
    [uploaded_uuids] when the task starts is skipped: the task returns
    [Skipped], leaves the state as it is and its whole trace is one log line,
    so there is no download, no probe and no upload. *)
Theorem C1_known_video_is_skipped (e : env) (v : video) (s : state) :
  is_Some (video_lengths s !! video_Id v) ->
  video_Id v ∈ uploaded_uuids s ->
  process_video e v s = (s, [Log DEBUG (MsgSkipping (video_Id v))], Returns Skipped)
  /\ forall s' t r, process_video e v s = (s', t, r) ->
       r = Returns Skipped /\ s' = s
       /\ forall ev, ev ∈ t ->
            match ev with
            | HttpGet _ _ | Ffprobe _ | Ffmpeg _ _ | QueuePut _ | OsRemove _
            | BucketUpload _ _ | PushBatchRuntimes _ | AsyncSleep _ => False
            | Log _ _ => True
            end.
Proof.
  intros Hm Ht.
  assert (Heq : process_video e v s
                = (s, [Log DEBUG (MsgSkipping (video_Id v))], Returns Skipped)).
  { unfold process_video. unfold_M. cbn.
    rewrite !bool_decide_eq_true_2 by done. reflexivity. }
  split; [exact Heq|].
  intros s' t r H. rewrite Heq in H. injection H as <- <- <-.
  repeat split. intros ev Hev. apply list_elem_of_singleton in Hev as ->. exact I.
Qed.

Lemma C1_known_video_is_skipped_witness :
  let s := State "thumb" "temp" "thumb" {["0a1b2c3d" := FFinite 12.5]} ["0a1b2c3d"] [] ∅ ∅ in
  let v := Video "0a1b2c3d" "https://cdn.example/0/1/clip.mp4?ex=67357a78" in
  process_video (Env Http200 (ProbeFloat (FFinite 12.5)) FfmpegOk None None) v s
  = (s, [Log DEBUG (MsgSkipping "0a1b2c3d")], Returns Skipped).
Proof.
  intros s v.
  apply (C1_known_video_is_skipped
           (Env Http200 (ProbeFloat (FFinite 12.5)) FfmpegOk None None) v s).
  - apply (bool_decide_unpack _). vm_compute. exact I.
  - apply (bool_decide_unpack _). vm_compute. exact I.
Defined.

(** *** The steps of a task that never raise *)

Lemma process_metadata_returns (e : env) (video_id : string) (p : path) (s : state) :
  exists s' t, process_metadata e video_id p s = (s', t, Returns tt)
               /\ files s' = files s.
Proof.
  unfold process_metadata, get_video_length. unfold_M.
  destruct (ffprobe e); cbn; eauto.
Qed.

Lemma generate_thumbnail_returns (e : env) (src dest : path) (s : state) :
  exists s' t, generate_thumbnail e src dest s = (s', t, Returns tt)
               /\ (files s' = files s \/ files s' = {[dest]} ∪ files s).
Proof.
  unfold generate_thumbnail. unfold_M.
  case_bool_decide; cbn; [|by eauto].
  destruct (ffmpeg e); cbn; eauto.
Qed.

Lemma upload_thumbnail_returns (e : env) (fstem fext : string) (s : state) :
  exists s' t, upload_thumbnail e fstem fext s = (s', t, Returns tt).
Proof.
  unfold upload_thumbnail, uploader_upload_thumbnail, upload_to_bucket. unfold_M.
  destruct (bool_decide (fext = "jpg") || bool_decide (fext = "png")); cbn; [|by eauto].
  case_bool_decide; cbn; [by eauto|].
  case_bool_decide; cbn; [|by eauto].
  destruct (blob_upload e); cbn; eauto.
Qed.


Ltac files_tac :=
  repeat match goal with
         | H : bool_decide _ = true |- _ => apply bool_decide_eq_true_1 in H
         | H : bool_decide _ = false |- _ => apply bool_decide_eq_false_1 in H
         | H : files _ = _ \/ files _ = _ |- _ => destruct H
         | H : files _ = _ |- _ => rewrite H in *; try clear H
         end;
  cbn [files set_files] in *; set_solver.

Ltac task_step :=
  match goal with
  | |- context [process_metadata ?e ?i ?p ?s] =>
      let H := fresh "Hfiles" in
      destruct (process_metadata_returns e i p s) as (? & ? & -> & H)
  | |- context [generate_thumbnail ?e ?p ?q ?s] =>
      let H := fresh "Hfiles" in
      destruct (generate_thumbnail_returns e p q s) as (? & ? & -> & H)
  | |- context [upload_thumbnail ?e ?a ?b ?s] =>
      destruct (upload_thumbnail_returns e a b s) as (? & ? & ->)
  | |- context [bool_decide (?p ∈ files ?s)] =>
      first [ rewrite (bool_decide_eq_true_2 (p ∈ files s)) by files_tac
            | rewrite (bool_decide_eq_false_2 (p ∈ files s)) by files_tac ]
  | |- context [match os_remove ?e with _ => _ end] => destruct (os_remove e) eqn:?
  end; cbn.

Lemma process_video_status (e : env) (v : video) (s : state) :
  exists s' t,
    process_video e v s
    = (s', t, Returns (if already_processed v s then Skipped
                       else if escaping_exception e v s then Error else Generated)).
Proof.
  unfold process_video, already_processed, escaping_exception, download_video.
  unfold_M. cbn.
  set (tmp := Path (temp_folder s) (video_Id v) "mp4").
  set (out := Path (output_folder s) (video_Id v) "png").
  assert (Hne : tmp <> out) by (intros [=]).
  destruct (bool_decide (is_Some (video_lengths s !! video_Id v))) eqn:Hm;
  destruct (bool_decide (video_Id v ∈ uploaded_uuids s)) eqn:Hu; cbn.
  1: by eauto.
  all: destruct (bool_decide (tmp ∈ files s)) eqn:Ht; cbn.
  all: try (destruct (http_get e) as [| |? []]; cbn).
  all: repeat task_step.
  all: by eauto.
Qed.


(** *** Files a task does not touch *)

Lemma respects_ret {A} p (a : A) : respects p (mret a).
Proof. done. Qed.

Lemma respects_raise {A} p exc : respects p (@raise A exc).
Proof. done. Qed.

Lemma respects_emit p ev : respects p (emit ev).
Proof. done. Qed.

Lemma respects_log p lvl msg : respects p (log_item lvl msg).
Proof. done. Qed.

Lemma respects_gets {A} p (f : state -> A) :
  (forall s, f (add_file p s) = f s) -> respects p (gets f).
Proof. intros H s. unfold gets. by rewrite H. Qed.

Lemma respects_modify p (f : state -> state) :
  (forall s, f (add_file p s) = add_file p (f s)) -> respects p (modify f).
Proof. intros H s. unfold modify. by rewrite H. Qed.

Lemma respects_bind {A B} p (m : M A) (k : A -> M B) :
  respects p m -> (forall a, respects p (k a)) -> respects p (m ≫= k).
Proof.
  intros Hm Hk s. unfold mbind, M_bind, bind. rewrite Hm.
  destruct (m s) as [[s1 t1] [a|exc]]; [|done].
  rewrite Hk. by destruct (k a s1) as [[s2 t2] r].
Qed.

Lemma respects_try_except {A} p (m : M A) (h : string -> M A) :
  respects p m -> (forall exc, respects p (h exc)) -> respects p (try_except m h).
Proof.
  intros Hm Hh s. unfold try_except. rewrite Hm.
  destruct (m s) as [[s1 t1] [a|exc]]; [done|].
  rewrite Hh. by destruct (h exc s1) as [[s2 t2] r].
Qed.

Lemma respects_when p (b : bool) (m : M unit) : respects p m -> respects p (when b m).
Proof. destruct b; [done|]. intros _. apply respects_ret. Qed.

Lemma respects_path_exists p q : q <> p -> respects p (path_exists q).
Proof.
  intros Hne. apply respects_gets. intros s. cbn.
  apply bool_decide_ext. set_solver.
Qed.

Lemma add_file_comm p q s : add_file q (add_file p s) = add_file p (add_file q s).
Proof. unfold add_file, set_files. cbn. f_equal. set_solver. Qed.

Lemma respects_add_file p q : respects p (modify (set_files (union {[q]}))).
Proof. apply respects_modify. intros s. apply add_file_comm. Qed.

Lemma respects_remove_file p q :
  q <> p -> respects p (modify (set_files (fun fs => fs ∖ {[q]}))).
Proof.
  intros Hne. apply respects_modify. intros s.
  unfold add_file, set_files. cbn. f_equal. set_solver.
Qed.

Ltac respects_tac :=
  repeat first
    [ apply respects_ret | apply respects_raise | apply respects_emit
    | apply respects_log | apply respects_add_file
    | apply respects_remove_file; [congruence]
    | apply respects_path_exists; [congruence]
    | apply respects_gets; [done]
    | apply respects_modify; [done]
    | apply respects_when
    | apply respects_try_except; [|intros ?]
    | apply respects_bind; [|intros ?]
    | match goal with
      | |- respects _ (if ?b then _ else _) => destruct b
      | |- respects _ (match ?x with _ => _ end) => destruct x
      end ].

Lemma respects_process_video (p : path) (e : env) (v : video) :
  stem p <> video_Id v -> respects p (process_video e v).
Proof.
  intros Hne.
  assert (forall d x, Path d (video_Id v) x <> p) by (intros d x <-; done).
  unfold process_video, download_video, process_metadata, get_video_length,
    generate_thumbnail, upload_thumbnail, uploader_upload_thumbnail, upload_to_bucket.
  respects_tac.
Qed.

Lemma process_video_skip (e : env) (v : video) (s : state) :
  already_processed v s = true ->
  process_video e v s = (s, [Log DEBUG (MsgSkipping (video_Id v))], Returns Skipped).
Proof.
  unfold already_processed, process_video. intros H. unfold_M. cbn. by rewrite H.
Qed.

Lemma process_video_download_raises (e : env) (v : video) (s : state) exc created :
  already_processed v s = false ->
  Path (temp_folder s) (video_Id v) "mp4" ∉ files s ->
  http_get e = DownloadError exc created ->
  process_video e v s
  = (if created then add_file (Path (temp_folder s) (video_Id v) "mp4") s else s,
     [Log DEBUG (MsgDownloading (video_Id v));
      HttpGet (video_Attachment_URL v) (Path (temp_folder s) (video_Id v) "mp4");
      Log ERROR (MsgErrorProcessing (video_Id v) exc)],
     Returns Error).
Proof.
  unfold already_processed, process_video, download_video. intros Hk Ht Hd.
  unfold_M. cbn.
  destruct (bool_decide (is_Some (video_lengths s !! video_Id v))),
    (bool_decide (video_Id v ∈ uploaded_uuids s)); try discriminate Hk; cbn.
  all: rewrite bool_decide_eq_false_2 by done; cbn.
  all: rewrite Hd; by destruct created.
Qed.

(** *** The claims on the status of a task *)

(** C6, as stated, fails: with the video downloaded but ffprobe printing no
    duration and ffmpeg failing, the task produces neither a duration
    recording nor a thumbnail and still returns [Generated]. *)
Lemma C6_counterexample :
  let e := Env Http200 ProbeNoOutput FfmpegError None None in
  let v := Video "0a1b2c3d" "https://cdn.example/0/1/clip.mp4?ex=67357a78" in
  exists s' t,
    process_video e v fresh_state = (s', t, Returns Generated)
    /\ produced_artifact t = false
    /\ metadata_queue s' = []
    /\ files s' = ∅.
Proof.
  intros e v.
  destruct (process_video e v fresh_state) as [[s' t] r] eqn:Hrun.
  vm_compute in Hrun. injection Hrun as <- <- <-.
  eexists _, _. repeat split; reflexivity.
Qed.

(** C6, amended. A task returns [Skipped] exactly when the id is in both
    known sets at its start.  Otherwise it returns [Error] exactly when an
    exception escapes its body (the download or the removal of the temporary
    file raises) and [Generated] in every other case, whether or not a
    duration or a thumbnail was produced.  A task that produced an artifact
    is never reported [Skipped]. *)
Theorem C6_status_of_a_task (e : env) (v : video) (s : state) :
  exists s' t st,
    process_video e v s = (s', t, Returns st)
    /\ st = (if already_processed v s then Skipped
             else if escaping_exception e v s then Error else Generated)
    /\ (st = Skipped <-> already_processed v s = true)
    /\ (st = Error <-> already_processed v s = false /\ escaping_exception e v s = true)
    /\ (st = Generated <-> already_processed v s = false /\ escaping_exception e v s = false)
    /\ (produced_artifact t = true -> st <> Skipped).
Proof.
  destruct (process_video_status e v s) as (s' & t & Hrun).
  exists s', t. eexists. split; [exact Hrun|]. split; [done|].
  destruct (already_processed v s) eqn:Hk.
  - rewrite process_video_skip in Hrun by done. injection Hrun as <- <-.
    repeat split; try done; intros []; done.
  - destruct (escaping_exception e v s); repeat split; try done; intros []; done.
Qed.

(** C7, as stated, fails: when the server answers the download with a status
    other than 200 no local copy is written, nothing is raised, and the task
    ends [Generated], not [Error]. *)
Lemma C7_counterexample :
  let e := Env (HttpStatus 404) ProbeNoOutput FfmpegOk None None in
  let v := Video "0a1b2c3d" "https://cdn.example/0/1/clip.mp4?ex=67357a78" in
  exists s' t,
    process_video e v fresh_state = (s', t, Returns Generated)
    /\ HttpGet (video_Attachment_URL v) (Path "temp" "0a1b2c3d" "mp4") ∈ t
    /\ files s' = ∅
    /\ Returns Generated <> Returns Error.
Proof.
  intros e v.
  destruct (process_video e v fresh_state) as [[s' t] r] eqn:Hrun.
  vm_compute in Hrun. injection Hrun as <- <- <-.
  eexists _, _. split; [reflexivity|]. split; [|done].
  apply list_elem_of_In. cbn. tauto.
Qed.

(** C7, amended. When the download of a descriptor raises (a connection or
    transport error), the task returns [Error]; and the failed task changes
    nothing that a task for another id depends on: started after it, such a
    task returns the same result with the same trace as it would have
    without it. *)
Theorem C7_download_exception_is_isolated (e : env) (v : video) (s : state)
    (exc : string) (created : bool) :
  already_processed v s = false ->
  Path (temp_folder s) (video_Id v) "mp4" ∉ files s ->
  http_get e = DownloadError exc created ->
  exists s' t,
    process_video e v s = (s', t, Returns Error)
    /\ forall e2 v2, video_Id v2 <> video_Id v ->
         exists s2 s2' t2 r2,
           process_video e2 v2 s = (s2, t2, r2)
           /\ process_video e2 v2 s' = (s2', t2, r2).
Proof.
  intros Hk Ht Hd. rewrite (process_video_download_raises e v s exc created) by done.
  eexists _, _. split; [reflexivity|]. intros e2 v2 Hne.
  destruct (process_video e2 v2 s) as [[s2 t2] r2] eqn:Hrun.
  destruct created; [|by exists s2, s2, t2, r2].
  exists s2, (add_file (Path (temp_folder s) (video_Id v) "mp4") s2), t2, r2.
  split; [done|]. rewrite respects_process_video by (cbn; congruence).
  by rewrite Hrun.
Qed.

Lemma C7_download_exception_is_isolated_witness :
  let e := Env (DownloadError "ClientConnectorError" true) ProbeNoOutput FfmpegOk None None in
  let v := Video "0a1b2c3d" "https://cdn.example/0/1/clip.mp4?ex=67357a78" in
  exists s' t,
    process_video e v fresh_state = (s', t, Returns Error)
    /\ forall e2 v2, video_Id v2 <> video_Id v ->
         exists s2 s2' t2 r2,
           process_video e2 v2 fresh_state = (s2, t2, r2)
           /\ process_video e2 v2 s' = (s2', t2, r2).
Proof.
  intros e v.
  apply (C7_download_exception_is_isolated e v fresh_state "ClientConnectorError" true).
  - reflexivity.
  - cbn. apply not_elem_of_empty.
  - reflexivity.
Defined.

End ProcessorFacts.

(** ** The Metadata Batcher ([batch_save_metadata]) *)

Module BatcherFacts.
Import ThumbnailGenerator.

(** An entry whose id already has a recorded duration changes nothing and
    leaves one log line. *)
Lemma handle_entry_recorded (now : Q) (entry : metadata_entry) (s : state) (b : batcher)
    (vid : string) (existing : pyfloat) :
  entry_Id entry = Some vid ->
  video_lengths s !! vid = Some existing ->
  exists lvl msg, handle_entry now entry (s, b) = (s, b, [Log lvl msg]).
Proof.
  intros Hid Hrec. unfold handle_entry. rewrite Hid.
  destruct (negb _); [by eauto|].
  destruct (entry_Length entry) as [len|]; [|by eauto].
  rewrite Hrec. destruct (float_ne existing len); eauto.
Qed.

(** What [handle_entry] can do to the recorded durations and to the batch:
    nothing, or record and append the entry under an id that was free. *)
Lemma handle_entry_cases (now : Q) (entry : metadata_entry) (s : state) (b : batcher) :
  (exists t, handle_entry now entry (s, b) = (s, b, t))
  \/ (exists vid len,
        entry_Id entry = Some vid /\ entry_Length entry = Some len
        /\ video_lengths s !! vid = None
        /\ handle_entry now entry (s, b)
           = (set_video_lengths <[vid := len]> s,
              Batcher true now (new_metadata b ++ [entry]),
              [Log DEBUG (MsgAddedToBatch vid len)])).
Proof.
  unfold handle_entry.
  destruct (negb _); [by eauto|].
  destruct (entry_Id entry) as [vid|], (entry_Length entry) as [len|]; try by eauto.
  destruct (video_lengths s !! vid) as [existing|] eqn:Hrec.
  - destruct (float_ne existing len); eauto.
  - right. by exists vid, len.
Qed.

(** First recorded value wins, over any number of later entries. *)
Lemma drain_entries_keeps_recorded (clock : nat -> Q) (queue : list metadata_entry) :
  forall (i : nat) (s : state) (b : batcher) (vid : string) (existing : pyfloat),
    video_lengths s !! vid = Some existing ->
    forall s' b' t, drain_entries clock i queue (s, b) = (s', b', t) ->
      video_lengths s' !! vid = Some existing
      /\ forall entry, entry ∈ new_metadata b' -> entry_Id entry = Some vid ->
                       entry ∈ new_metadata b.
Proof.
  induction queue as [|entry queue IH]; intros i s b vid existing Hrec s' b' t Hrun.
  - cbn in Hrun. injection Hrun as <- <- <-. done.
  - cbn [drain_entries] in Hrun.
    destruct (handle_entry (clock i) entry (s, b)) as [[s1 b1] t1] eqn:H1.
    destruct (drain_entries clock (S i) queue (s1, b1)) as [[s2 b2] t2] eqn:H2.
    injection Hrun as <- <- <-.
    destruct (handle_entry_cases (clock i) entry s b)
      as [[t0 H0] | (vid' & len & Hid & Hlen & Hfree & H0)];
      rewrite H0 in H1; injection H1 as <- <- <-.
    + eapply IH; eauto.
    + assert (vid' <> vid) by congruence.
      assert (Hrec' : video_lengths (set_video_lengths <[vid' := len]> s) !! vid
                      = Some existing).
      { unfold set_video_lengths. cbn [video_lengths]. by rewrite lookup_insert_ne. }
      destruct (IH (S i) _ _ vid existing Hrec' _ _ _ H2) as [Hkeep Hbatch].
      split; [done|]. intros e He Heid. specialize (Hbatch e He Heid).
      cbn in Hbatch. apply elem_of_app in Hbatch as [|Hin]; [done|].
      apply list_elem_of_singleton in Hin as ->. congruence.
Qed.

(** The scenario of the specification: ["a"] with 10.0, then ["a"] with 12.0. *)
Example conflict_scenario :
  let first := Entry (Some "a") (Some (FFinite 10)) in
  let second := Entry (Some "a") (Some (FFinite 12)) in
  exists s' b',
    drain_entries (fun _ => 5%Q) 0 [first; second] (fresh_state, batcher_init 0)
    = (s', b', [Log DEBUG (MsgAddedToBatch "a" (FFinite 10));
                Log WARNING (MsgConflict "a" (FFinite 10) (FFinite 12))])
    /\ video_lengths s' !! "a" = Some (FFinite 10)
    /\ new_metadata b' = [first].
Proof. eexists _, _. vm_compute. done. Qed.

(** C3. Once a duration is recorded for an id, an entry with the same id
    leaves the recorded durations, the batch and the batcher's other locals
    as they are and is answered with one log line; when it is a well-formed
    entry with a different length, that line is the conflict warning with the
    kept and the discarded value.  Over any run of queue entries the recorded
    value stays, and no entry with that id joins the batch. *)
Theorem C3_first_recorded_duration_wins (now : Q) (entry : metadata_entry)
    (s : state) (b : batcher) (vid : string) (existing : pyfloat) :
  video_lengths s !! vid = Some existing ->
  entry_Id entry = Some vid ->
  (exists lvl msg, handle_entry now entry (s, b) = (s, b, [Log lvl msg]))
  /\ (forall len,
        entry_Length entry = Some len -> str_truthy vid = true ->
        float_truthy len = true -> float_ne existing len = true ->
        handle_entry now entry (s, b)
        = (s, b, [Log WARNING (MsgConflict vid existing len)]))
  /\ (forall clock i queue s' b' t,
        drain_entries clock i queue (s, b) = (s', b', t) ->
        video_lengths s' !! vid = Some existing
        /\ forall e, e ∈ new_metadata b' -> entry_Id e = Some vid -> e ∈ new_metadata b).
Proof.
  intros Hrec Hid. split; [by eapply handle_entry_recorded|]. split.
  - intros len Hlen Hv Hl Hne. unfold handle_entry.
    rewrite Hid, Hlen. cbn. rewrite Hv, Hl, Hrec, Hne. done.
  - intros clock i queue s' b' t. by apply drain_entries_keeps_recorded.
Qed.

Lemma C3_first_recorded_duration_wins_witness :
  let s := set_video_lengths <["a" := FFinite 10]> fresh_state in
  let b := Batcher true 0 [Entry (Some "a") (Some (FFinite 10))] in
  handle_entry 7 (Entry (Some "a") (Some (FFinite 12))) (s, b)
  = (s, b, [Log WARNING (MsgConflict "a" (FFinite 10) (FFinite 12))]).
Proof.
  intros s b.
  apply (C3_first_recorded_duration_wins 7 (Entry (Some "a") (Some (FFinite 12))) s b
           "a" (FFinite 10)); reflexivity.
Defined.

(** *** The flush rule *)

Lemma handle_entry_batcher (now : Q) (entry : metadata_entry) (s : state) (b : batcher) :
  batcher_ok b ->
  forall s' b' t, handle_entry now entry (s, b) = (s', b', t) ->
    batcher_ok b'
    /\ (b' = b
        \/ (new_metadata b' = new_metadata b ++ [entry] /\ last_modification b' = now)).
Proof.
  intros Hok s' b' t Hrun.
  destruct (handle_entry_cases now entry s b)
    as [[t0 H0] | (vid & len & _ & _ & _ & H0)];
    rewrite H0 in Hrun; injection Hrun as <- <- <-.
  - split; [done | by left].
  - split; [|by right]. unfold batcher_ok. cbn. split; [|done].
    intros _ Hnil. by apply app_eq_nil in Hnil as [_ [=]].
Qed.

Lemma flush_check_batcher (push : option string) (now : Q) (b : batcher) :
  batcher_ok b -> batcher_ok (flush_check push now b).1.1.
Proof.
  intros Hok. unfold flush_check. destruct (flush_due now b); [|done].
  destruct push; [done|].
  unfold batcher_ok. cbn. split; [done|]. by intros [].
Qed.

(** C8, as stated, fails: with ["a"] accepted at time 0 and ["b"] at time 50,
    the check at time 61 comes 61 seconds after the first unflushed entry was
    accepted, the rule of the specification asks for a flush, and the batcher
    keeps both entries unflushed. *)
Lemma C8_counterexample :
  let a := Entry (Some "a") (Some (FFinite 10)) in
  let b := Entry (Some "b") (Some (FFinite 5)) in
  let '(s1, b1, _) :=
    batch_cycle None (fun _ => 0%Q) 1
      (set_metadata_queue (fun _ => [a]) fresh_state, batcher_init 0) in
  let '(s2, b2, _) :=
    batch_cycle None (fun _ => 50%Q) 51 (set_metadata_queue (fun _ => [b]) s1, b1) in
  new_metadata b2 = [a; b]
  /\ spec_flush_due 61 0 (new_metadata b2) = true
  /\ batch_cycle None (fun _ => 61%Q) 61 (s2, b2) = (s2, b2, [AsyncSleep 1]).
Proof. vm_compute. done. Qed.

(** C8, amended. At the check that ends a cycle, read at time [now], the
    batcher flushes exactly when the batch is not empty and either holds at
    least 50 entries or at least 60 seconds have passed since the most recent
    entry was accepted into it.  A flush is one batched write of the whole
    batch.  When the write returns, the batch is empty afterwards and the
    cycle ends with its sleep; when the write raises, the batch and the flag
    are left as they were, the cycle logs the exception and does not sleep,
    so that the flush is still due with the same batch.  Without a flush
    nothing changes.  (Each accepted entry moves [last_modification] to the
    time of its acceptance.) *)
Theorem C8_flush_rule (push : option string) (now : Q) (b : batcher) :
  batcher_ok b ->
  let due :=
    new_metadata b <> []
    /\ ((50 <= length (new_metadata b))%nat \/ (60 <= now - last_modification b)%Q) in
  let write :=
    [Log INFO (MsgUploadingBatch (length (new_metadata b)));
     PushBatchRuntimes (new_metadata b)] in
  (due ->
   match push with
   | None =>
       flush_check push now b = (Batcher false (last_modification b) [], write, Returns tt)
       /\ forall clock s,
            metadata_queue s = [] ->
            batch_cycle push clock now (s, b)
            = (s, Batcher false (last_modification b) [], write ++ [AsyncSleep 1])
   | Some exc =>
       flush_check push now b = (b, write, Raises exc)
       /\ forall clock s,
            metadata_queue s = [] ->
            batch_cycle push clock now (s, b)
            = (s, b, write ++ [Log CRITICAL (MsgBatchError exc)])
   end)
  /\ (~ due ->
      flush_check push now b = (b, [], Returns tt)
      /\ forall clock s,
           metadata_queue s = [] -> batch_cycle push clock now (s, b) = (s, b, [AsyncSleep 1]))
  /\ (forall t entry s s' b' tr,
        handle_entry t entry (s, b) = (s', b', tr) ->
        batcher_ok b'
        /\ (b' = b
            \/ (new_metadata b' = new_metadata b ++ [entry] /\ last_modification b' = t))).
Proof.
  intros Hok due write.
  assert (Hdue : flush_due now b = true <-> due).
  { unfold flush_due, due, time_ge. unfold batcher_ok in Hok.
    rewrite andb_true_iff, orb_true_iff, Nat.leb_le, Qle_bool_iff, Hok. done. }
  assert (Hcycle : forall clock s, metadata_queue s = [] ->
            batch_cycle push clock now (s, b)
            = (s, (flush_check push now b).1.1,
               (flush_check push now b).1.2 ++ cycle_end (flush_check push now b).2)).
  { intros clock s Hq. unfold batch_cycle. rewrite Hq. cbn [drain_entries].
    destruct (flush_check push now b) as [[b2 t2] r]. cbn.
    f_equal. f_equal. destruct s. cbn in Hq. by subst. }
  split; [|split].
  - intros Hd. apply Hdue in Hd.
    destruct push as [exc|].
    + assert (Hf : flush_check (Some exc) now b = (b, write, Raises exc))
        by (unfold flush_check; by rewrite Hd).
      split; [done|]. intros clock s Hq. by rewrite (Hcycle clock s Hq), Hf.
    + assert (Hf : flush_check None now b
                   = (Batcher false (last_modification b) [], write, Returns tt))
        by (unfold flush_check; by rewrite Hd).
      split; [done|]. intros clock s Hq. by rewrite (Hcycle clock s Hq), Hf.
  - intros Hd.
    assert (Hf : flush_check push now b = (b, [], Returns tt)).
    { unfold flush_check. destruct (flush_due now b); [|done]. by destruct Hd; apply Hdue. }
    split; [done|]. intros clock s Hq. by rewrite (Hcycle clock s Hq), Hf.
  - intros t entry s s' b' tr. by apply handle_entry_batcher.
Qed.

Lemma C8_flush_rule_witness :
  let a := Entry (Some "a") (Some (FFinite 10)) in
  let b := Batcher true 0 [a] in
  let write := [Log INFO (MsgUploadingBatch 1); PushBatchRuntimes [a]] in
  flush_check (Some "ServiceUnavailable") 61 b = (b, write, Raises "ServiceUnavailable")
  /\ forall clock s,
       metadata_queue s = [] ->
       batch_cycle (Some "ServiceUnavailable") clock 61 (s, b)
       = (s, b, write ++ [Log CRITICAL (MsgBatchError "ServiceUnavailable")]).
Proof.
  intros a b write.
  refine (proj1 (C8_flush_rule (Some "ServiceUnavailable") 61 b _) _).
  - unfold batcher_ok. cbn. split; [discriminate | reflexivity].
  - cbn. split; [discriminate|]. right. vm_compute. discriminate.
Defined.

End BatcherFacts.

(** ** The Ingestion Batcher ([message_handler.py]) *)

Module MessageHandlerFacts.
Import MessageHandler.

(** A flush of the live loop whose upload returns empties the message buffer
    and resets the timer, and leaves the poster buffer as it was; a flush
    whose upload raises changes nothing. *)
Lemma live_flush_state (outcome : upload_outcome) (now' : Q) (h : handler) :
  match (live_flush outcome now' h).2 with
  | Returns _ =>
      pending_messages (live_flush outcome now' h).1.1 = []
      /\ last_flush_time (live_flush outcome now' h).1.1 = now'
      /\ pending_users (live_flush outcome now' h).1.1 = pending_users h
  | Raises _ => (live_flush outcome now' h).1.1 = h
  end.
Proof. by destruct outcome. Qed.

(** A [shutdown] whose upload returns empties both buffers; a [shutdown]
    whose upload raises leaves both as they were. *)
Lemma shutdown_clears (outcome : upload_outcome) (h : handler) :
  match (shutdown outcome h).2 with
  | Returns _ =>
      pending_messages (shutdown outcome h).1.1 = []
      /\ pending_users (shutdown outcome h).1.1 = ∅
  | Raises _ => (shutdown outcome h).1.1 = h
  end.
Proof.
  unfold shutdown.
  destruct (bool_decide (pending_messages h = [])) eqn:Hm,
    (bool_decide (pending_users h = ∅)) eqn:Hu; cbn; try by destruct outcome.
  apply bool_decide_eq_true_1 in Hm, Hu. done.
Qed.

(** A poster received while the buffer holds messages to flush is still in
    the poster buffer after the flush of the live loop. *)
Lemma live_iteration_keeps_posters (outcome : upload_outcome) (message : message_data)
    (author : user_data) (now now' : Q) (h : handler) :
  str_truthy (Name author) = true ->
  flush_triggered now (receive (Some (message, author)) h) = true ->
  is_Some (pending_users (live_iteration outcome (Some (message, author)) now now' h).1.1
             !! Name author).
Proof.
  intros Hname Hflush. unfold live_iteration. rewrite Hflush.
  unfold receive. cbn.
  destruct (pending_messages h ++ [message]) eqn:Hm;
    [by apply app_eq_nil in Hm as [_ [=]]|].
  destruct outcome; cbn; rewrite ?Hm; cbn; rewrite Hname; cbn.
  all: case_bool_decide as Hin; cbn; [done|].
  all: by rewrite lookup_insert_eq.
Qed.

(** C4. On a flush of the live loop the message buffer is emptied and the
    timer is reset, but the poster buffer is not emptied: one message of
    poster ["alice"], received 61 seconds after the last flush, is flushed and
    ["alice"] is still in [pending_users] afterwards, whereas [shutdown]
    empties both buffers.  (Both uploads return.) *)
Theorem C4_live_flush_keeps_poster_buffer :
  let message :=
    MessageData "0a1b2c3d" "1291615821864501260" "alice" 1731470706
      "https://discord.com/channels/1/2/1291615821864501260" "clip"
      "https://cdn.example/2/3/clip.mp4?ex=67357a78" "clip" (Some 1731557880%Z) "2" in
  let author := UserData "alice" None in
  let '(h', t, r) := live_iteration UploadReturns (Some (message, author)) 61 61 (init 0) in
  (t, r) = upload UploadReturns [message] {["alice" := author]}
  /\ pending_messages h' = []
  /\ last_flush_time h' = 61%Q
  /\ pending_users h' = {["alice" := author]}
  /\ pending_users h' <> ∅
  /\ pending_users (shutdown UploadReturns h').1.1 = ∅.
Proof.
  intros message author.
  assert (Hrun : live_iteration UploadReturns (Some (message, author)) 61 61 (init 0)
                 = (Handler 30 60 [] {["alice" := author]} 61,
                    (upload UploadReturns [message] {["alice" := author]}).1,
                    Returns tt)).
  { unfold live_iteration, receive, init, flush_triggered, live_flush. cbn.
    rewrite lookup_empty. reflexivity. }
  rewrite Hrun. repeat split. apply insert_non_empty.
Qed.

End MessageHandlerFacts.

(** ** Python's heapq keeps its invariant *)

Module HeapqFacts.
Import Heapq.
Local Open Scope nat_scope.

Lemma child_of_parent (pos : nat) : 0 < pos -> child_of ((pos - 1) / 2) pos.
Proof.
  intros Hpos. unfold child_of.
  pose proof (Nat.div_mod_eq (pos - 1) 2) as Hdm.
  pose proof (Nat.mod_upper_bound (pos - 1) 2) as Hlt. lia.
Qed.

Lemma child_of_inj (p q pos : nat) : child_of p pos -> child_of q pos -> p = q.
Proof. unfold child_of. lia. Qed.

Lemma child_of_lt (i j : nat) : child_of i j -> i < j.
Proof. unfold child_of. lia. Qed.

Section Facts.
Context {A : Type} (lt : A -> A -> bool).
Hypothesis lt_asym : forall x y, lt x y = true -> lt y x = false.
Hypothesis le_trans : forall x y z, lt y x = false -> lt z y = false -> lt z x = false.

Implicit Types heap : list A.

Lemma lt_irrefl x : lt x x = false.
Proof. destruct (lt x x) eqn:H; [by rewrite (lt_asym _ _ H) in H | done]. Qed.

Lemma is_heap_min heap x :
  is_heap lt heap -> heap !! 0 = Some x ->
  forall j y, heap !! j = Some y -> lt y x = false.
Proof.
  intros Hheap H0 j. induction (lt_wf j) as [j _ IH]. intros y Hj.
  destruct (decide (j = 0)) as [->|Hne].
  - rewrite H0 in Hj. injection Hj as ->. apply lt_irrefl.
  - assert (Hc : child_of ((j - 1) / 2) j) by (apply child_of_parent; lia).
    pose proof (child_of_lt _ _ Hc) as Hlt.
    destruct (lookup_lt_is_Some_2 heap ((j - 1) / 2)) as [z Hz].
    { apply lookup_lt_Some in Hj. lia. }
    eapply le_trans; [exact (IH _ Hlt z Hz) | exact (Hheap _ _ _ _ Hc Hz Hj)].
Qed.

Lemma hole_up_fill heap pos newitem :
  hole_up lt heap pos newitem ->
  (forall p x, child_of p pos -> heap !! p = Some x -> lt newitem x = false) ->
  is_heap lt (<[pos := newitem]> heap).
Proof.
  intros [(Hlen & Hrest & _) Hchildren] Hparent i j x y Hc Hi Hj.
  pose proof (child_of_lt _ _ Hc).
  destruct (decide (i = pos)) as [->|Hip], (decide (j = pos)) as [->|Hjp]; [lia|..].
  - rewrite list_lookup_insert_eq in Hi by done. injection Hi as <-.
    rewrite list_lookup_insert_ne in Hj by done. eauto.
  - rewrite list_lookup_insert_eq in Hj by done. injection Hj as <-.
    rewrite list_lookup_insert_ne in Hi by done. eauto.
  - rewrite list_lookup_insert_ne in Hi, Hj by done. eauto.
Qed.

Lemma hole_up_step heap pos newitem parent :
  (0 < pos)%nat ->
  hole_up lt heap pos newitem ->
  heap !! ((pos - 1) / 2) = Some parent ->
  lt newitem parent = true ->
  hole_up lt (<[pos := parent]> heap) ((pos - 1) / 2) newitem.
Proof.
  intros Hpos [(Hlen & Hrest & Hgrand) Hchildren] Hparent Hlt.
  pose proof (child_of_parent pos Hpos) as Hc.
  pose proof (child_of_lt _ _ Hc) as Hppos.
  set (pp := (pos - 1) / 2) in *.
  split; [split; [|split]|].
  - rewrite length_insert. lia.
  - intros i j x y Hij Hi Hj Hx Hy.
    pose proof (child_of_lt _ _ Hij).
    destruct (decide (j = pos)) as [->|Hjp].
    { destruct Hi. by eapply child_of_inj. }
    rewrite list_lookup_insert_ne in Hy by done.
    destruct (decide (i = pos)) as [->|Hip].
    + rewrite list_lookup_insert_eq in Hx by done. injection Hx as <-. eauto.
    + rewrite list_lookup_insert_ne in Hx by done. eauto.
  - intros g j x y Hg Hj Hx Hy.
    pose proof (child_of_lt _ _ Hg).
    rewrite list_lookup_insert_ne in Hx by lia.
    assert (Hgp : lt parent x = false).
    { eapply (Hrest g pp); eauto; lia. }
    destruct (decide (j = pos)) as [->|Hjp].
    + rewrite list_lookup_insert_eq in Hy by done. by injection Hy as <-.
    + rewrite list_lookup_insert_ne in Hy by done.
      eapply le_trans; [exact Hgp|]. eapply (Hrest pp j); eauto; lia.
  - intros j y Hj Hy.
    destruct (decide (j = pos)) as [->|Hjp].
    + rewrite list_lookup_insert_eq in Hy by done. injection Hy as <-.
      by apply lt_asym.
    + rewrite list_lookup_insert_ne in Hy by done.
      eapply le_trans; [by apply lt_asym|]. eapply (Hrest pp j); eauto; lia.
Qed.

Lemma siftdown_loop_heap fuel : forall heap pos newitem,
  (pos <= fuel)%nat ->
  hole_up lt heap pos newitem ->
  is_heap lt (siftdown_loop lt fuel heap 0 pos newitem).
Proof.
  induction fuel as [|fuel IH]; intros heap pos newitem Hfuel Hinv.
  - cbn. apply hole_up_fill; [done|].
    intros p x Hc. apply child_of_lt in Hc. lia.
  - cbn [siftdown_loop]. destruct (Nat.ltb_spec 0 pos) as [Hpos|Hpos].
    + pose proof (child_of_parent pos Hpos) as Hc.
      pose proof (child_of_lt _ _ Hc) as Hppos.
      destruct (heap !! ((pos - 1) / 2)) as [parent|] eqn:Hparent.
      * destruct (lt newitem parent) eqn:Hlt.
        -- apply IH; [lia|]. by apply hole_up_step.
        -- apply hole_up_fill; [done|]. intros p x Hp Hx.
           rewrite (child_of_inj _ _ _ Hp Hc), Hparent in Hx. by injection Hx as <-.
      * apply lookup_ge_None in Hparent. destruct Hinv as [(Hlen & _) _]. lia.
    + apply hole_up_fill; [done|].
      intros p x Hp. apply child_of_lt in Hp. lia.
Qed.

(** The fuel of the two loops is never what stops them. *)
Lemma siftdown_loop_fuel fuel1 : forall fuel2 heap pos newitem,
  (pos <= fuel1)%nat -> (pos <= fuel2)%nat ->
  siftdown_loop lt fuel1 heap 0 pos newitem = siftdown_loop lt fuel2 heap 0 pos newitem.
Proof.
  induction fuel1 as [|fuel1 IH]; intros [|fuel2] heap pos newitem H1 H2;
    cbn [siftdown_loop]; try done.
  - by replace pos with 0%nat by lia.
  - by replace pos with 0%nat by lia.
  - destruct (Nat.ltb_spec 0 pos) as [Hpos|]; [|done].
    pose proof (child_of_lt _ _ (child_of_parent pos Hpos)).
    destruct (heap !! ((pos - 1) / 2)); [|done].
    destruct (lt newitem a); [|done]. apply IH; lia.
Qed.

Lemma siftup_loop_fuel fuel1 : forall fuel2 heap endpos pos,
  (endpos <= fuel1 + pos)%nat -> (endpos <= fuel2 + pos)%nat ->
  siftup_loop lt fuel1 heap endpos pos = siftup_loop lt fuel2 heap endpos pos.
Proof.
  induction fuel1 as [|fuel1 IH]; intros [|fuel2] heap endpos pos H1 H2;
    cbn [siftup_loop]; try done.
  - by destruct (Nat.ltb_spec (2 * pos + 1) endpos); [lia|].
  - by destruct (Nat.ltb_spec (2 * pos + 1) endpos); [lia|].
  - destruct (Nat.ltb_spec (2 * pos + 1) endpos); [|done].
    destruct (heap !! (2 * pos + 1)); [|done].
    destruct (heap !! (2 * pos + 1 + 1));
      [destruct ((2 * pos + 1 + 1 <? endpos) && negb (lt a a0))|]; apply IH; lia.
Qed.

Lemma siftdown_loop_perm fuel : forall heap pos newitem,
  (pos < length heap)%nat ->
  siftdown_loop lt fuel heap 0 pos newitem ≡ₚ <[pos := newitem]> heap.
Proof.
  induction fuel as [|fuel IH]; intros heap pos newitem Hlen; [done|].
  cbn [siftdown_loop]. destruct (Nat.ltb_spec 0 pos) as [Hpos|Hpos]; [|done].
  pose proof (child_of_lt _ _ (child_of_parent pos Hpos)) as Hppos.
  destruct (heap !! ((pos - 1) / 2)) as [parent|] eqn:Hparent; [|done].
  destruct (lt newitem parent); [|done].
  rewrite IH by (rewrite length_insert; lia).
  rewrite <- (list_insert_insert_eq heap pos parent newitem).
  apply Permutation_insert_swap.
  - by apply list_lookup_insert_eq.
  - rewrite list_lookup_insert_ne by lia. done.
Qed.

Lemma siftup_loop_spec fuel : forall heap pos,
  hole_down lt heap pos ->
  (length heap <= fuel + pos)%nat ->
  forall heap1 pos1,
    siftup_loop lt fuel heap (length heap) pos = (heap1, pos1) ->
    hole_down lt heap1 pos1
    /\ (length heap1 <= 2 * pos1 + 1)%nat
    /\ forall x, <[pos1 := x]> heap1 ≡ₚ <[pos := x]> heap.
Proof.
  induction fuel as [|fuel IH]; intros heap pos Hinv Hfuel heap1 pos1 Hrun.
  { destruct Hinv as (Hlen & _). lia. }
  cbn [siftup_loop] in Hrun.
  destruct (Nat.ltb_spec (2 * pos + 1) (length heap)) as [Hchild|Hleaf];
    [|injection Hrun as <- <-; split; [done|split; [lia|done]]].
  destruct (heap !! (2 * pos + 1)) as [lchild|] eqn:Hl;
    [|apply lookup_ge_None in Hl; lia].
  destruct Hinv as (Hlen & Hrest & Hgrand).
  (* the child that moves up: the smaller of the children of [pos] *)
  assert (Hpick : exists c child,
             child_of pos c /\ heap !! c = Some child
             /\ (forall j y, child_of pos j -> heap !! j = Some y -> lt y child = false)
             /\ siftup_loop lt fuel (<[pos := child]> heap) (length heap) c
                = (heap1, pos1)).
  { destruct (heap !! (2 * pos + 1 + 1)) as [rchild|] eqn:Hr.
    - apply lookup_lt_Some in Hr as Hrlen.
      destruct (Nat.ltb_spec (2 * pos + 1 + 1) (length heap)); [|lia].
      destruct (lt lchild rchild) eqn:Hlr; cbn in Hrun.
      + exists (2 * pos + 1)%nat, lchild. split; [by left|]. split; [done|].
        split; [|done]. intros j y [->| ->] Hy.
        * rewrite Hl in Hy. injection Hy as <-. apply lt_irrefl.
        * replace (2 * pos + 2)%nat with (2 * pos + 1 + 1)%nat in Hy by lia.
          rewrite Hr in Hy. injection Hy as <-. by apply lt_asym.
      + exists (2 * pos + 1 + 1)%nat, rchild. split; [right; lia|]. split; [done|].
        split; [|done]. intros j y [->| ->] Hy.
        * rewrite Hl in Hy. by injection Hy as <-.
        * replace (2 * pos + 2)%nat with (2 * pos + 1 + 1)%nat in Hy by lia.
          rewrite Hr in Hy. injection Hy as <-. apply lt_irrefl.
    - exists (2 * pos + 1)%nat, lchild. split; [by left|]. split; [done|].
      split; [|done]. intros j y [->| ->] Hy.
      + rewrite Hl in Hy. injection Hy as <-. apply lt_irrefl.
      + replace (2 * pos + 2)%nat with (2 * pos + 1 + 1)%nat in Hy by lia. congruence. }
  clear Hrun. destruct Hpick as (c & child & Hc & Hchildc & Hmin & Hrun).
  pose proof (child_of_lt _ _ Hc) as Hposc.
  apply lookup_lt_Some in Hchildc as Hclen.
  rewrite <- (length_insert heap pos child) in Hrun.
  apply IH in Hrun as (Hinv1 & Hleaf1 & Hperm1).
  - split; [done|]. split; [done|]. intros x. rewrite Hperm1.
    rewrite <- (list_insert_insert_eq heap pos child x).
    apply Permutation_insert_swap.
    + by apply list_lookup_insert_eq.
    + rewrite list_lookup_insert_ne by lia. done.
  - split; [by rewrite length_insert|]. split.
    + intros i j x y Hij Hi Hj Hx Hy.
      pose proof (child_of_lt _ _ Hij).
      destruct (decide (j = pos)) as [->|Hjp].
      * rewrite list_lookup_insert_eq in Hy by done. injection Hy as <-.
        rewrite list_lookup_insert_ne in Hx by lia. eauto.
      * rewrite list_lookup_insert_ne in Hy by done.
        destruct (decide (i = pos)) as [->|Hip].
        -- rewrite list_lookup_insert_eq in Hx by done. injection Hx as <-. eauto.
        -- rewrite list_lookup_insert_ne in Hx by done. eauto.
    + intros p j x y Hp Hj Hx Hy.
      rewrite (child_of_inj _ _ _ Hp Hc) in Hx.
      rewrite list_lookup_insert_eq in Hx by done. injection Hx as <-.
      pose proof (child_of_lt _ _ Hj).
      rewrite list_lookup_insert_ne in Hy by lia.
      eapply (Hrest c j); eauto; lia.
  - rewrite length_insert. lia.
Qed.

Lemma hole_up_leaf heap pos newitem :
  hole_down lt heap pos ->
  (length heap <= 2 * pos + 1)%nat ->
  hole_up lt (<[pos := newitem]> heap) pos newitem.
Proof.
  intros (Hlen & Hrest & Hgrand) Hleaf.
  assert (Hnone : forall j y, child_of pos j -> <[pos := newitem]> heap !! j = Some y -> False).
  { intros j y [->| ->] Hy; apply lookup_lt_Some in Hy;
      rewrite length_insert in Hy; lia. }
  split; [split; [|split]|].
  - by rewrite length_insert.
  - intros i j x y Hij Hi Hj Hx Hy.
    rewrite list_lookup_insert_ne in Hx, Hy by done. eauto.
  - intros p j x y _ Hj _ Hy. destruct (Hnone j y Hj Hy).
  - intros j y Hj Hy. destruct (Hnone j y Hj Hy).
Qed.

Lemma siftdown_spec heap pos newitem :
  heap !! pos = Some newitem ->
  hole_up lt heap pos newitem ->
  is_heap lt (siftdown lt heap 0 pos) /\ siftdown lt heap 0 pos ≡ₚ heap.
Proof.
  intros Hpos Hinv. unfold siftdown. rewrite Hpos. split.
  - by apply siftdown_loop_heap.
  - rewrite siftdown_loop_perm by (by eapply lookup_lt_Some).
    by rewrite list_insert_id.
Qed.

Lemma siftup_spec heap newitem :
  heap !! 0 = Some newitem ->
  hole_down lt heap 0 ->
  is_heap lt (siftup lt heap 0) /\ siftup lt heap 0 ≡ₚ heap.
Proof.
  intros H0 Hinv. unfold siftup. rewrite H0.
  destruct (siftup_loop lt (length heap) heap (length heap) 0) as [heap1 pos1] eqn:Hrun.
  apply siftup_loop_spec in Hrun as (Hinv1 & Hleaf & Hperm); [|done|lia].
  destruct (siftdown_spec (<[pos1 := newitem]> heap1) pos1 newitem) as [Hheap Hp].
  - apply list_lookup_insert_eq. by destruct Hinv1.
  - by apply hole_up_leaf.
  - split; [done|]. by rewrite Hp, Hperm, list_insert_id.
Qed.

(** [heappush] keeps the heap invariant and adds exactly [item]. *)
Lemma heappush_spec heap item :
  is_heap lt heap ->
  is_heap lt (heappush lt heap item) /\ heappush lt heap item ≡ₚ item :: heap.
Proof.
  intros Hheap. unfold heappush.
  destruct (siftdown_spec (heap ++ [item]) (length heap) item) as [H1 H2].
  - by rewrite lookup_app_r, Nat.sub_diag by lia.
  - assert (Hnone : forall j y, child_of (length heap) j ->
                                (heap ++ [item]) !! j = Some y -> False).
    { intros j y [->| ->] Hy; apply lookup_lt_Some in Hy;
        rewrite length_app in Hy; cbn in Hy; lia. }
    split; [split; [|split]|].
    + rewrite length_app. cbn. lia.
    + intros i j x y Hij Hi Hj Hx Hy.
      pose proof (child_of_lt _ _ Hij).
      apply lookup_lt_Some in Hy as Hjlen. rewrite length_app in Hjlen. cbn in Hjlen.
      rewrite lookup_app_l in Hx, Hy by lia. eauto.
    + intros p j x y _ Hj _ Hy. destruct (Hnone j y Hj Hy).
    + intros j y Hj Hy. destruct (Hnone j y Hj Hy).
  - split; [done|]. rewrite H2. by rewrite Permutation_app_comm.
Qed.

Lemma heappush_perm heap item : heappush lt heap item ≡ₚ item :: heap.
Proof.
  unfold heappush, siftdown. rewrite lookup_app_r, Nat.sub_diag by lia. cbn.
  rewrite siftdown_loop_perm by (rewrite length_app; cbn; lia).
  rewrite list_insert_id by (by rewrite lookup_app_r, Nat.sub_diag by lia).
  by rewrite Permutation_app_comm.
Qed.

(** [heappop] on a non-empty heap returns its first item, which is a
    least one, and leaves a heap of the other items. *)
Lemma heappop_spec x rest :
  is_heap lt (x :: rest) ->
  exists heap',
    heappop lt (x :: rest) = Some (x, heap')
    /\ is_heap lt heap' /\ heap' ≡ₚ rest.
Proof.
  intros Hheap. unfold heappop.
  destruct (last (x :: rest)) as [lastelt|] eqn:Hlast; [|by apply last_None in Hlast].
  apply last_Some in Hlast as [heap1 Heq].
  rewrite Heq, take_app_length' by (rewrite length_app; cbn; lia).
  destruct heap1 as [|r tl1].
  - injection Heq as -> ->. exists []. split; [done|]. split; [|done].
    intros i j a b _ Hi. done.
  - injection Heq as <- ->. cbn [insert list_insert].
    destruct (siftup_spec (lastelt :: tl1) lastelt) as [H1 H2]; [done| |].
    + split; [cbn; lia|]. split.
      * intros i j a b Hij Hi Hj Ha Hb.
        pose proof (child_of_lt _ _ Hij).
        destruct i as [|i]; [done|]. destruct j as [|j]; [done|].
        cbn in Ha, Hb. apply (Hheap (S i) (S j)); [done|..]; cbn.
        -- by apply lookup_app_l_Some.
        -- by apply lookup_app_l_Some.
      * intros p j a b Hp. apply child_of_lt in Hp. lia.
    + eexists. split; [done|]. split; [done|].
      rewrite H2. apply Permutation_cons_append.
Qed.
End Facts.

End HeapqFacts.

(** ** The Expiration Scheduler ([refetch_handler.py]) *)

Module RefetchFacts.
Import Heapq HeapqFacts RefetchHandler.
Local Open Scope nat_scope.

(** *** The order of the heap entries *)

Lemma good_compare_lt_eq {T} (cmp : T -> T -> comparison) (x y z : T) :
  good_compare cmp -> cmp x y = Lt -> cmp y z = Eq -> cmp x z = Lt.
Proof.
  intros [Hanti Heq _] Hxy Hyz.
  assert (Hzy : cmp z y = Eq) by (by rewrite Hanti, Hyz).
  assert (Hyx : cmp y x = Gt) by (by rewrite Hanti, Hxy).
  rewrite Hanti, (Heq z y x Gt); done.
Qed.

Lemma good_compare_on {T U} (f : T -> U) (cmp : U -> U -> comparison) :
  good_compare cmp -> good_compare (fun x y => cmp (f x) (f y)).
Proof. intros [H1 H2 H3]. split; eauto. Qed.

Lemma good_compare_lex {T} (c d : T -> T -> comparison) :
  good_compare c -> good_compare d -> good_compare (fun x y => lex (c x y) (d x y)).
Proof.
  intros Hc Hd. split.
  - intros x y. rewrite (gc_antisym c Hc x y), (gc_antisym d Hd x y).
    by destruct (c x y).
  - intros x y z k Hxy Hyz.
    destruct (c x y) eqn:Hcxy; try done. cbn in Hxy.
    rewrite (gc_eq c Hc x y z _ Hcxy eq_refl).
    destruct (c y z); try done. cbn in *. by eapply (gc_eq d Hd).
  - intros x y z Hxy Hyz.
    destruct (c x y) eqn:Hcxy, (c y z) eqn:Hcyz; try done; cbn in *.
    + rewrite (gc_eq c Hc x y z _ Hcxy Hcyz). cbn. by eapply (gc_lt d Hd).
    + by rewrite (gc_eq c Hc x y z _ Hcxy Hcyz).
    + by rewrite (good_compare_lt_eq c x y z Hc Hcxy Hcyz).
    + by rewrite (gc_lt c Hc x y z Hcxy Hcyz).
Qed.

Lemma good_Qcompare : good_compare Qcompare.
Proof.
  split.
  - intros x y. by rewrite <- Qcompare_antisym.
  - intros x y z c Hxy <-. apply Qeq_alt in Hxy. by rewrite Hxy.
  - intros x y z Hxy Hyz. apply Qlt_alt in Hxy, Hyz. apply Qlt_alt.
    by eapply Qlt_trans.
Qed.

Lemma ascii_compare_N (a b : ascii) :
  Ascii.compare a b = N.compare (N_of_ascii a) (N_of_ascii b).
Proof. reflexivity. Qed.

Lemma string_compare_refl (s : string) : String.compare s s = Eq.
Proof.
  induction s as [|a s IH]; [done|]. cbn.
  by rewrite ascii_compare_N, N.compare_refl.
Qed.

Lemma string_compare_lt_trans (s1 s2 s3 : string) :
  String.compare s1 s2 = Lt -> String.compare s2 s3 = Lt -> String.compare s1 s3 = Lt.
Proof.
  revert s2 s3. induction s1 as [|a s1 IH]; intros [|b s2] [|c s3]; cbn; try done.
  destruct (Ascii.compare a b) eqn:Hab, (Ascii.compare b c) eqn:Hbc; try done.
  - apply Ascii.compare_eq_iff in Hab as ->. rewrite Hbc. apply IH.
  - apply Ascii.compare_eq_iff in Hab as ->. by rewrite Hbc.
  - apply Ascii.compare_eq_iff in Hbc as <-. by rewrite Hab.
  - intros _ _. rewrite ascii_compare_N in Hab, Hbc.
    rewrite N.compare_lt_iff in Hab, Hbc.
    rewrite ascii_compare_N.
    replace (N_of_ascii a ?= N_of_ascii c)%N with Lt; [done|].
    symmetry. apply N.compare_lt_iff. lia.
Qed.

Lemma good_string_compare : good_compare String.compare.
Proof.
  split.
  - intros x y. apply String.compare_antisym.
  - intros x y z c Hxy <-. by apply String.compare_eq_iff in Hxy as ->.
  - apply string_compare_lt_trans.
Qed.

Lemma good_entry_compare : good_compare entry_compare.
Proof.
  unfold entry_compare.
  apply (good_compare_lex (fun x y => Qcompare (number_value (expire_at x)) (number_value (expire_at y)))).
  { apply (good_compare_on (fun x => number_value (expire_at x))), good_Qcompare. }
  apply (good_compare_lex (fun x y => String.compare (message_id x) (message_id y))).
  { apply (good_compare_on message_id), good_string_compare. }
  apply (good_compare_lex (fun x y => String.compare (discord_id x) (discord_id y))).
  { apply (good_compare_on discord_id), good_string_compare. }
  apply (good_compare_on channel_id), good_string_compare.
Qed.

Lemma entry_lt_asym (x y : heap_entry) : entry_lt x y = true -> entry_lt y x = false.
Proof.
  unfold entry_lt. rewrite (gc_antisym _ good_entry_compare x y).
  by destruct (entry_compare x y).
Qed.

Lemma entry_le_trans (x y z : heap_entry) :
  entry_lt y x = false -> entry_lt z y = false -> entry_lt z x = false.
Proof.
  pose proof good_entry_compare as Hg.
  unfold entry_lt.
  rewrite (gc_antisym _ Hg x y), (gc_antisym _ Hg y z), (gc_antisym _ Hg x z).
  destruct (entry_compare x y) eqn:Hxy, (entry_compare y z) eqn:Hyz; try done; intros _ _.
  - by rewrite (gc_eq _ Hg x y z _ Hxy Hyz).
  - by rewrite (gc_eq _ Hg x y z _ Hxy Hyz).
  - by rewrite (good_compare_lt_eq _ x y z Hg Hxy Hyz).
  - by rewrite (gc_lt _ Hg x y z Hxy Hyz).
Qed.

(** The tuple order looks at the expiry first. *)
Lemma entry_le_expires (x y : heap_entry) :
  entry_lt y x = false -> expires_before x y.
Proof.
  unfold entry_lt, entry_compare, expires_before. intros H.
  apply Qle_alt. rewrite <- Qcompare_antisym.
  destruct (Qcompare (number_value (expire_at y)) (number_value (expire_at x))); done.
Qed.

Lemma enqueue_spec (entry : queue_entry) (heap : list heap_entry) :
  exists heap' t,
    enqueue entry heap = (heap', t)
    /\ heap' ≡ₚ option_list (heap_entry_of entry) ++ heap
    /\ t = option_list (invalid_log_of entry)
    /\ (is_heap entry_lt heap -> is_heap entry_lt heap').
Proof.
  unfold enqueue, heap_entry_of, invalid_log_of.
  destruct (q_expire_timestamp entry) as [|str|n]; cbn.
  - by eexists _, _.
  - by eexists _, _.
  - eexists _, _. split; [done|]. split; [apply heappush_perm|]. split; [done|].
    intros Hheap. by apply heappush_spec; [apply entry_lt_asym | apply entry_le_trans |].
Qed.

Lemma drain_queue_spec (queue : list queue_entry) : forall heap : list heap_entry,
  exists heap' t,
    drain_queue queue heap = (heap', t)
    /\ heap' ≡ₚ omap heap_entry_of queue ++ heap
    /\ t = omap invalid_log_of queue
    /\ (is_heap entry_lt heap -> is_heap entry_lt heap').
Proof.
  induction queue as [|entry queue IH]; intros heap; [by eexists _, _|].
  cbn [drain_queue].
  destruct (enqueue_spec entry heap) as (heap1 & t1 & -> & Hp1 & -> & Hh1).
  destruct (IH heap1) as (heap2 & t2 & -> & Hp2 & -> & Hh2).
  eexists _, _. split; [done|]. split; [|split].
  - rewrite Hp2, Hp1. cbn [omap list_omap].
    destruct (heap_entry_of entry); cbn; [|done].
    by rewrite <- Permutation_middle.
  - cbn [omap list_omap]. by destruct (invalid_log_of entry).
  - auto.
Qed.

Lemma filter_id {T} (P : T -> Prop) `{!forall x, Decision (P x)} (l : list T) :
  Forall P l -> filter P l = l.
Proof.
  induction 1 as [|x l Hx _ IH]; [done|]. by rewrite filter_cons_True, IH.
Qed.

Lemma filter_none {T} (P : T -> Prop) `{!forall x, Decision (P x)} (l : list T) :
  Forall (fun x => ~ P x) l -> filter P l = [].
Proof.
  induction 1 as [|x l Hx _ IH]; [done|]. by rewrite filter_cons_False, IH.
Qed.

Lemma process_loop_spec (submit : heap_entry -> option string) (now : Z) (fuel : nat) :
  forall heap : list heap_entry,
    is_heap entry_lt heap -> (length heap <= fuel)%nat ->
    exists heap' popped t,
      process_loop submit now fuel heap = (heap', popped, t)
      /\ popped ++ heap' ≡ₚ heap
      /\ Forall (fun x => expired now x = true) popped
      /\ Forall (fun x => expired now x = false) heap'
      /\ StronglySorted expires_before popped
      /\ is_heap entry_lt heap'
      /\ submitted t = map (fun x => (discord_id x, channel_id x)) popped.
Proof.
  induction fuel as [|fuel IH]; intros heap Hheap Hfuel.
  { destruct heap; [|cbn in Hfuel; lia]. exists [], [], [].
    repeat split; try done; constructor. }
  cbn [process_loop]. destruct heap as [|top rest].
  { exists [], [], []. repeat split; try done; constructor. }
  cbn [lookup list_lookup].
  assert (Hmin : forall y, y ∈ top :: rest -> entry_lt y top = false).
  { intros y [j Hj]%list_elem_of_lookup.
    eapply (is_heap_min entry_lt entry_lt_asym entry_le_trans); eauto. }
  destruct (expired now top) eqn:Htop.
  - destruct (heappop_spec entry_lt entry_lt_asym entry_le_trans top rest Hheap)
      as (heap1 & -> & Hheap1 & Hperm1).
    destruct (IH heap1 Hheap1) as (heap2 & popped & t2 & -> & Hperm & Hexp & Hrest & Hsort & Hheap2 & Hsub).
    { rewrite Hperm1. cbn in Hfuel. lia. }
    eexists _, _, _. split; [done|]. split; [|split; [|split; [|split; [|split]]]]; try done.
    + cbn. by rewrite Hperm, Hperm1.
    + by constructor.
    + constructor; [done|]. apply Forall_forall. intros y Hy.
      apply entry_le_expires, Hmin. right. rewrite <- Hperm1, <- Hperm.
      apply elem_of_app. by left.
    + cbn [submitted omap list_omap app]. fold (submitted t2).
      unfold submitted in *. rewrite !omap_app. cbn.
      rewrite Hsub. by destruct (submit top).
  - exists (top :: rest), [], [].
    split; [done|]. split; [done|]. split; [constructor|].
    split; [|split; [constructor|split; done]].
    apply Forall_forall. intros y Hy. apply Hmin, entry_le_expires in Hy.
    unfold expired, expires_before in *.
    destruct (Qle_bool (number_value (expire_at y)) (inject_Z now)) eqn:Hle; [|done].
    apply Qle_bool_iff in Hle.
    assert (Hcontra : Qle_bool (number_value (expire_at top)) (inject_Z now) = true)
      by (apply Qle_bool_iff; by eapply Qle_trans).
    congruence.
Qed.

(** The scheduler only ever holds a heap: it starts from the empty list, and
    draining the queue and processing the expired entries both keep the
    invariant. *)
Lemma is_heap_nil : is_heap entry_lt [].
Proof. intros i j x y _ Hi. done. Qed.

Lemma drain_queue_is_heap (queue : list queue_entry) (heap : list heap_entry) :
  is_heap entry_lt heap -> is_heap entry_lt (drain_queue queue heap).1.
Proof.
  intros Hheap. destruct (drain_queue_spec queue heap) as (heap' & t & -> & _ & _ & H).
  by apply H.
Qed.

Lemma process_expired_is_heap (submit : heap_entry -> option string) (now : Z)
    (heap : list heap_entry) :
  is_heap entry_lt heap ->
  is_heap entry_lt (process_expired_messages submit now heap).1.1.
Proof.
  intros Hheap. unfold process_expired_messages.
  by destruct (process_loop_spec submit now (length heap) heap Hheap (le_n _))
    as (heap' & popped & t & -> & _ & _ & _ & _ & H & _).
Qed.

(** The scenario of the specification: entries expiring at 100, 200 and 300,
    processed at time 250. *)
Example scheduler_scenario :
  let e100 := HeapEntry (NInt 100) "aa" "11" "7" in
  let e200 := HeapEntry (NInt 200) "bb" "22" "7" in
  let e300 := HeapEntry (NFloat 300) "cc" "33" "7" in
  let queue :=
    [QueueEntry (PyNum (NFloat 300)) "cc" "33" "7";
     QueueEntry (PyStr "not-a-number") "dd" "44" "7";
     QueueEntry (PyNum (NInt 100)) "aa" "11" "7";
     QueueEntry PyNone "ee" "55" "7";
     QueueEntry (PyNum (NInt 200)) "bb" "22" "7"] in
  drain_queue queue [] =
    ([e100; e300; e200],
     [LogInvalidTimestamp "dd" (PyStr "not-a-number"); LogInvalidTimestamp "ee" PyNone])
  /\ process_expired_messages (fun _ => None) 250 [e100; e300; e200]
     = ([e300], [e100; e200],
        [LogRefetching "aa" "7"; Submit "11" "7"; Sleep 1;
         LogRefetching "bb" "7"; Submit "22" "7"; Sleep 1]).
Proof. vm_compute. done. Qed.

(** C9. Draining the input queue inserts exactly the entries whose timestamp
    is an [int] or a [float]: the heap afterwards holds the heap it started
    from and the numeric entries of the queue, those that follow an invalid
    entry included.  An entry whose timestamp is anything else (a string such
    as ["not-a-number"], [None]) leaves the heap untouched and is answered
    with one error line. *)
Theorem C9_invalid_timestamp_dropped (queue : list queue_entry) (heap : list heap_entry) :
  exists heap' t,
    drain_queue queue heap = (heap', t)
    /\ heap' ≡ₚ omap heap_entry_of queue ++ heap
    /\ t = omap invalid_log_of queue
    /\ forall entry,
         entry ∈ queue -> is_int_or_float (q_expire_timestamp entry) = false ->
         heap_entry_of entry = None
         /\ LogInvalidTimestamp (q_message_id entry) (q_expire_timestamp entry) ∈ t
         /\ forall h, enqueue entry h
                      = (h, [LogInvalidTimestamp (q_message_id entry)
                                                 (q_expire_timestamp entry)]).
Proof.
  destruct (drain_queue_spec queue heap) as (heap' & t & Hrun & Hperm & Ht & _).
  exists heap', t. split; [done|]. split; [done|]. split; [done|].
  intros entry Hin Hbad. split; [|split].
  - unfold heap_entry_of. by destruct (q_expire_timestamp entry).
  - rewrite Ht. apply list_elem_of_omap. exists entry. split; [done|].
    unfold invalid_log_of. by rewrite Hbad.
  - intros h. unfold enqueue. by destruct (q_expire_timestamp entry).
Qed.

(** The loop guard agrees with the words of the specification. *)
Lemma expired_due (now : Z) (x : heap_entry) : expired now x = true <-> spec_due now x.
Proof. unfold expired, spec_due. apply Qle_bool_iff. Qed.

Lemma not_expired_pending (now : Z) (x : heap_entry) :
  expired now x = false <-> spec_pending now x.
Proof.
  split.
  - intros H. unfold spec_pending.
    destruct (Qlt_le_dec (inject_Z now) (number_value (expire_at x))) as [|Hle]; [done|].
    apply expired_due in Hle. congruence.
  - intros H. destruct (expired now x) eqn:E; [|done].
    apply expired_due in E. exfalso. by eapply Qlt_not_le.
Qed.

Lemma due_not_pending (now : Z) (x : heap_entry) : spec_due now x -> ~ spec_pending now x.
Proof. unfold spec_due, spec_pending. apply Qle_not_lt. Qed.

Lemma pending_not_due (now : Z) (x : heap_entry) : spec_pending now x -> ~ spec_due now x.
Proof. unfold spec_due, spec_pending. apply Qlt_not_le. Qed.

(** A hand-over counts as a dispatch exactly when it did not raise. *)
Lemma process_loop_dispatched (submit : heap_entry -> option string) (now : Z)
    (fuel : nat) :
  forall heap : list heap_entry,
    dispatched (process_loop submit now fuel heap).2
    = map (fun x => (discord_id x, channel_id x))
          (filter (fun x => submit x = None) (process_loop submit now fuel heap).1.2).
Proof.
  induction fuel as [|fuel IH]; intros heap; [done|].
  cbn [process_loop]. destruct (heap !! 0%nat) as [top|]; [|done].
  destruct (expired now top); [|done].
  destruct (Heapq.heappop entry_lt heap) as [[x heap1]|]; [|done].
  specialize (IH heap1). destruct (process_loop submit now fuel heap1) as [[heap2 popped] t2].
  cbn [fst snd] in *. rewrite filter_cons.
  destruct (submit x) as [exc|] eqn:Hx.
  - rewrite decide_False by done. cbn. exact IH.
  - rewrite decide_True by done. cbn. by rewrite IH.
Qed.

(** C5, as stated, fails: the entry expiring at 100 is due at 250 and is
    popped, but the hand-over to the bot's loop raises, so no re-fetch is
    dispatched for it; the failure is logged and the entry is gone from the
    heap. *)
Lemma C5_counterexample :
  let e100 := HeapEntry (NInt 100) "aa" "11" "7" in
  let '(heap', popped, t) :=
    process_expired_messages (fun _ => Some "RuntimeError") 250 [e100] in
  spec_due 250 e100
  /\ popped = [e100]
  /\ heap' = []
  /\ submitted t = [("11", "7")]
  /\ dispatched t = []
  /\ failures t = [("aa", "7", "RuntimeError")].
Proof.
  intros e100.
  destruct (process_expired_messages _ _ _) as [[heap' popped] t] eqn:Hrun.
  vm_compute in Hrun. injection Hrun as <- <- <-.
  split; [by apply expired_due|done].
Qed.

(** C5, amended. For every heap and every [now], [process_expired_messages]
    pops exactly the entries with [expire_at <= now], in ascending order of
    [expire_at], hands one re-fetch to the bot for each of them, in that
    order, and leaves exactly the entries with [expire_at > now] in the
    heap, which is still a heap.  The re-fetches dispatched are those of the
    popped entries whose hand-over does not raise; an entry whose hand-over
    raises is popped all the same. *)
Theorem C5_expired_entries_refetched (submit : heap_entry -> option string) (now : Z)
    (heap : list heap_entry) :
  is_heap entry_lt heap ->
  exists heap' popped t,
    process_expired_messages submit now heap = (heap', popped, t)
    /\ popped ≡ₚ filter (spec_due now) heap
    /\ heap' ≡ₚ filter (spec_pending now) heap
    /\ StronglySorted expires_before popped
    /\ submitted t = map (fun x => (discord_id x, channel_id x)) popped
    /\ dispatched t
       = map (fun x => (discord_id x, channel_id x))
             (filter (fun x => submit x = None) popped)
    /\ is_heap entry_lt heap'.
Proof.
  intros Hheap. unfold process_expired_messages.
  pose proof (process_loop_dispatched submit now (length heap) heap) as Hdis.
  destruct (process_loop_spec submit now (length heap) heap Hheap (le_n _))
    as (heap' & popped & t & Hrun & Hperm & Hexp & Hrest & Hsort & Hheap' & Hsub).
  rewrite Hrun in Hdis. cbn [fst snd] in Hdis.
  exists heap', popped, t. split; [done|].
  assert (Hdue : Forall (spec_due now) popped)
    by (eapply Forall_impl; [exact Hexp|]; intros x; apply expired_due).
  assert (Hpen : Forall (spec_pending now) heap')
    by (eapply Forall_impl; [exact Hrest|]; intros x; apply not_expired_pending).
  split; [|split; [|by repeat split]].
  - rewrite <- Hperm, filter_app, (filter_id _ popped Hdue), filter_none, app_nil_r; [done|].
    eapply Forall_impl; [exact Hpen|]. intros x. apply pending_not_due.
  - rewrite <- Hperm, filter_app, (filter_id _ heap' Hpen), filter_none; [done|].
    eapply Forall_impl; [exact Hdue|]. intros x. apply due_not_pending.
Qed.

Lemma C5_expired_entries_refetched_witness :
  let e100 := HeapEntry (NInt 100) "aa" "11" "7" in
  let e200 := HeapEntry (NInt 200) "bb" "22" "7" in
  let e300 := HeapEntry (NInt 300) "cc" "33" "7" in
  let submit := fun x => if String.eqb (message_id x) "bb" then Some "RuntimeError" else None in
  exists heap' popped t,
    process_expired_messages submit 250 [e100; e300; e200] = (heap', popped, t)
    /\ popped ≡ₚ filter (spec_due 250) [e100; e300; e200]
    /\ heap' ≡ₚ filter (spec_pending 250) [e100; e300; e200]
    /\ StronglySorted expires_before popped
    /\ submitted t = map (fun x => (discord_id x, channel_id x)) popped
    /\ dispatched t
       = map (fun x => (discord_id x, channel_id x))
             (filter (fun x => submit x = None) popped)
    /\ is_heap entry_lt heap'.
Proof.
  intros e100 e200 e300 submit.
  apply (C5_expired_entries_refetched submit 250 [e100; e300; e200]).
  intros i j x y Hc Hi Hj.
  destruct i as [|[|[|i]]]; destruct Hc as [-> | ->]; cbn in Hi, Hj;
    try discriminate; injection Hi as <-; injection Hj as <-; reflexivity.
Defined.

End RefetchFacts.

(** ** Runs of the Ingestion Batcher ([start_live_message_handling], [shutdown]) *)

Module IngestionRunFacts.
Import MessageHandler.

(** What [upload] hands to [push_batch_msgs], whatever its outcome. *)
Lemma upload_messages (outcome : upload_outcome) (messages : list message_data)
    (users : gmap string user_data) :
  uploaded_messages (upload outcome messages users).1 = messages.
Proof. destruct outcome; cbn; by rewrite app_nil_r. Qed.

Lemma upload_batches (outcome : upload_outcome) (messages : list message_data)
    (users : gmap string user_data) :
  messages <> [] ->
  Forall (fun ev => match ev with PushBatchMsgs ms => ms <> [] | _ => True end)
         (upload outcome messages users).1.
Proof. intros Hne. destruct outcome; cbn; repeat (constructor; [done|]); constructor. Qed.

Lemma receive_messages (item : option (message_data * user_data)) (h : handler) :
  pending_messages (receive item h) = pending_messages h ++ option_list (fst <$> item).
Proof. destruct item as [[message author]|]; simpl; rewrite ?app_nil_r; reflexivity. Qed.

(** One turn of the live loop.  When it completes, what it uploads, followed
    by what it still holds, is what it held followed by what it received.
    When its upload raises, it has handed over all it held and received, and
    still holds all of it. *)
Lemma live_iteration_messages (outcome : upload_outcome)
    (item : option (message_data * user_data)) (now now' : Q) (h : handler) :
  let '(h1, t, r) := live_iteration outcome item now now' h in
  match r with
  | Returns _ =>
      uploaded_messages t ++ pending_messages h1
      = pending_messages h ++ option_list (fst <$> item)
  | Raises _ =>
      uploaded_messages t = pending_messages h ++ option_list (fst <$> item)
      /\ pending_messages h1 = pending_messages h ++ option_list (fst <$> item)
      /\ pending_messages h1 <> []
  end.
Proof.
  unfold live_iteration. pose proof (receive_messages item h) as Hrecv.
  destruct (flush_triggered now (receive item h)); [|exact Hrecv].
  destruct (pending_messages (receive item h)) as [|m ms] eqn:Hp; [by rewrite <- Hrecv|].
  unfold live_flush.
  pose proof (upload_messages outcome (pending_messages (receive item h))
                (pending_users (receive item h))) as Hup.
  destruct (upload outcome (pending_messages (receive item h))
              (pending_users (receive item h))) as [t [[]|exc]] eqn:Hu; cbn [fst] in Hup.
  - cbn [pending_messages]. by rewrite app_nil_r, Hup, <- Hrecv.
  - rewrite Hup, <- Hrecv, Hp. done.
Qed.

Lemma received_cons (tn : turn) (turns : list turn) :
  received (tn :: turns) = option_list (fst <$> tn.1.1.1) ++ received turns.
Proof. unfold received. cbn. by destruct (tn.1.1.1) as [[]|]. Qed.

Lemma live_run_messages (turns : list turn) :
  forall h : handler,
    let '(h', t, r) := live_run turns h in
    match r with
    | Returns _ =>
        uploaded_messages t ++ pending_messages h'
        = pending_messages h ++ received turns
    | Raises _ =>
        uploaded_messages t = pending_messages h ++ received (turns_run turns h)
        /\ pending_messages h' <> []
        /\ exists earlier, uploaded_messages t = earlier ++ pending_messages h'
    end.
Proof.
  induction turns as [|[[[item now] now'] outcome] turns IH]; intros h.
  - cbn. by rewrite app_nil_r.
  - cbn [live_run turns_run].
    pose proof (live_iteration_messages outcome item now now' h) as H1.
    destruct (live_iteration outcome item now now' h) as [[h1 t1] [[]|exc]].
    + specialize (IH h1). destruct (live_run turns h1) as [[h2 t2] [[]|exc]].
      * unfold uploaded_messages in *. rewrite flat_map_app, <- app_assoc, IH.
        rewrite app_assoc, H1, <- app_assoc. by rewrite received_cons.
      * destruct IH as (IH1 & IH2 & earlier & IH3). split; [|split; [done|]].
        -- unfold uploaded_messages in *. rewrite flat_map_app, IH1, received_cons.
           cbn [fst]. by rewrite !app_assoc, H1.
        -- exists (uploaded_messages t1 ++ earlier).
           unfold uploaded_messages in *. by rewrite flat_map_app, IH3, app_assoc.
    + destruct H1 as (H1 & H2 & H3). split; [|split; [done|]].
      * rewrite received_cons. cbn. by rewrite app_nil_r.
      * exists []. by rewrite H1, H2.
Qed.

Lemma live_iteration_batches (outcome : upload_outcome)
    (item : option (message_data * user_data)) (now now' : Q) (h : handler) :
  Forall (fun ev => match ev with PushBatchMsgs ms => ms <> [] | _ => True end)
         (live_iteration outcome item now now' h).1.2.
Proof.
  unfold live_iteration.
  destruct (flush_triggered now (receive item h)); [|constructor].
  destruct (pending_messages (receive item h)) as [|m ms] eqn:Hp; [constructor|].
  unfold live_flush.
  pose proof (upload_batches outcome (pending_messages (receive item h))
                (pending_users (receive item h))) as Hup.
  rewrite Hp in Hup. specialize (Hup ltac:(done)). rewrite <- Hp in Hup.
  by destruct (upload outcome (pending_messages (receive item h))
                 (pending_users (receive item h))) as [t [[]|exc]].
Qed.

Lemma live_run_batches (turns : list turn) :
  forall h : handler,
    Forall (fun ev => match ev with PushBatchMsgs ms => ms <> [] | _ => True end)
           (live_run turns h).1.2.
Proof.
  induction turns as [|[[[item now] now'] outcome] turns IH]; intros h; [constructor|].
  cbn [live_run].
  pose proof (live_iteration_batches outcome item now now' h) as H1.
  destruct (live_iteration outcome item now now' h) as [[h1 t1] [[]|exc]]; [|done].
  specialize (IH h1). destruct (live_run turns h1) as [[h2 t2] r2].
  by apply Forall_app.
Qed.

(** X1. Over a run of the live loop in which every upload returns, no
    message is lost, repeated or reordered: the messages handed to
    [push_batch_msgs], in order, followed by the messages still buffered, are
    the messages buffered at the start followed by the messages received.  A
    run that an upload ends by raising has handed over, once and in order,
    every message buffered at the start or received in the turns it went
    through, and the batch of the upload that raised, which is not empty, is
    still buffered.  In either case the live loop never uploads an empty
    batch of messages. *)
Theorem live_run_delivers_once (turns : list turn) (h : handler) :
  let '(h', t, r) := live_run turns h in
  Forall (fun ev => match ev with PushBatchMsgs ms => ms <> [] | _ => True end) t
  /\ match r with
     | Returns _ =>
         uploaded_messages t ++ pending_messages h'
         = pending_messages h ++ received turns
     | Raises _ =>
         uploaded_messages t = pending_messages h ++ received (turns_run turns h)
         /\ pending_messages h' <> []
         /\ exists earlier, uploaded_messages t = earlier ++ pending_messages h'
     end.
Proof.
  pose proof (live_run_messages turns h) as Hm.
  pose proof (live_run_batches turns h) as Hb.
  destruct (live_run turns h) as [[h' t] r]. by split.
Qed.

(** X2. After every turn of the live loop that completes, the message buffer
    holds fewer than [batch_size] messages (fewer than one when [batch_size]
    is 0), whatever it held before and whatever the clock says: a buffer that
    reaches [batch_size] is flushed in the same turn.  A turn whose upload
    raises leaves the buffer as it was after the message was received. *)
Theorem live_iteration_bounded (outcome : upload_outcome)
    (item : option (message_data * user_data)) (now now' : Q) (h : handler) :
  let '(h1, _, r) := live_iteration outcome item now now' h in
  match r with
  | Returns _ => (length (pending_messages h1) < Nat.max 1 (batch_size h))%nat
  | Raises _ => h1 = receive item h
  end.
Proof.
  unfold live_iteration, flush_triggered.
  assert (Hb : batch_size (receive item h) = batch_size h) by (by destruct item as [[]|]).
  rewrite Hb.
  assert (Hflush : forall m ms, pending_messages (receive item h) = m :: ms ->
            let '(h1, _, r) := live_flush outcome now' (receive item h) in
            match r with
            | Returns _ => (length (pending_messages h1) < Nat.max 1 (batch_size h))%nat
            | Raises _ => h1 = receive item h
            end).
  { intros m ms Hp. unfold live_flush.
    destruct (upload outcome _ _) as [t [[]|exc]]; [|done]. cbn. lia. }
  destruct (Nat.leb_spec (batch_size h) (length (pending_messages (receive item h))))
    as [Hle|Hlt]; cbn [orb].
  - destruct (pending_messages (receive item h)) eqn:Hp.
    + cbn. rewrite Hp. cbn. lia.
    + by eapply Hflush.
  - destruct (time_ge _ _); [|lia].
    destruct (pending_messages (receive item h)) eqn:Hp.
    + cbn. rewrite Hp. cbn. lia.
    + by eapply Hflush.
Qed.

Lemma receive_keeps_poster (item : option (message_data * user_data)) (h : handler)
    (name : string) (u : user_data) :
  pending_users h !! name = Some u -> pending_users (receive item h) !! name = Some u.
Proof.
  intros Hu. destruct item as [[message author]|]; [|done].
  unfold receive. cbn [pending_users].
  destruct (str_truthy (Name author)); [|exact Hu].
  case_bool_decide as Hin; [exact Hu|].
  cbn [andb negb]. rewrite lookup_insert_ne; [exact Hu|].
  intros Heq. apply Hin. rewrite Heq, Hu. by eexists.
Qed.

Lemma live_iteration_poster (outcome : upload_outcome)
    (item : option (message_data * user_data)) (now now' : Q) (h : handler)
    (name : string) (u : user_data) :
  pending_users h !! name = Some u ->
  pending_users (live_iteration outcome item now now' h).1.1 !! name = Some u
  /\ Forall (fun ev => match ev with
                       | PushBatchUserData users => users !! name = Some u
                       | _ => True
                       end) (live_iteration outcome item now now' h).1.2.
Proof.
  intros Hu. pose proof (receive_keeps_poster item h name u Hu) as Hr.
  unfold live_iteration.
  destruct (flush_triggered now (receive item h)); [|by split].
  destruct (pending_messages (receive item h)); [by split|].
  unfold live_flush. destruct outcome; cbn [upload fst snd pending_users].
  all: split; [done|].
  all: repeat (constructor; [done|]); constructor.
Qed.

(** X3. A poster entry, once in the poster buffer, stays there with the same
    value for the rest of the live loop, whether its uploads return or raise:
    a later record under the same name does not replace it, no flush removes
    it, and every later upload of the poster buffer carries it again. *)
Theorem live_run_posters_persist (turns : list turn) (h : handler) (name : string)
    (u : user_data) :
  pending_users h !! name = Some u ->
  pending_users (live_run turns h).1.1 !! name = Some u
  /\ Forall (fun ev => match ev with
                       | PushBatchUserData users => users !! name = Some u
                       | _ => True
                       end) (live_run turns h).1.2.
Proof.
  revert h. induction turns as [|[[[item now] now'] outcome] turns IH]; intros h Hu.
  - by split.
  - cbn [live_run].
    pose proof (live_iteration_poster outcome item now now' h name u Hu) as [Hu1 Ht1].
    destruct (live_iteration outcome item now now' h) as [[h1 t1] [[]|exc]];
      cbn [fst snd] in *; [|by split].
    specialize (IH h1 Hu1).
    destruct (live_run turns h1) as [[h2 t2] r2]. cbn [fst snd] in *.
    destruct IH as [Hu2 Ht2]. split; [done|]. by apply Forall_app.
Qed.

Lemma live_run_posters_persist_witness :
  let alice := UserData "alice" None in
  let renamed := UserData "alice" (Some "https://cdn.example/avatars/1.png") in
  let message :=
    MessageData "0a1b2c3d" "1291615821864501260" "alice" 1731470706
      "https://discord.com/channels/1/2/1291615821864501260" "clip"
      "https://cdn.example/2/3/clip.mp4?ex=67357a78" "clip" (Some 1731557880%Z) "2" in
  let h := Handler 30 60 [] {["alice" := alice]} 0 in
  let turns := [(Some (message, renamed), 61%Q, 61%Q, UploadReturns);
                (Some (message, renamed), 122%Q, 122%Q, PushUsersRaises "ServiceUnavailable")] in
  pending_users (live_run turns h).1.1 !! "alice" = Some alice
  /\ Forall (fun ev => match ev with
                       | PushBatchUserData users => users !! "alice" = Some alice
                       | _ => True
                       end) (live_run turns h).1.2.
Proof.
  intros alice renamed message h turns.
  apply (live_run_posters_persist turns h "alice" alice).
  apply lookup_insert_eq.
Defined.

Lemma shutdown_messages (outcome : upload_outcome) (h : handler) :
  let '(h2, t2, r2) := shutdown outcome h in
  uploaded_messages t2 = pending_messages h
  /\ match r2 with
     | Returns _ =>
         pending_messages h2 = [] /\ pending_users h2 = ∅
         /\ forall outcome', shutdown outcome' h2 = (h2, [], Returns tt)
     | Raises _ => h2 = h
     end.
Proof.
  unfold shutdown.
  destruct (bool_decide (pending_messages h = [])) eqn:Hm,
    (bool_decide (pending_users h = ∅)) eqn:Hu; cbn [negb orb].
  - apply bool_decide_eq_true_1 in Hm, Hu. cbn. rewrite Hm, Hu. by split_and!.
  - pose proof (upload_messages outcome (pending_messages h) (pending_users h)) as Hup.
    destruct (upload outcome _ _) as [t [[]|exc]]; cbn [fst] in Hup; by split.
  - pose proof (upload_messages outcome (pending_messages h) (pending_users h)) as Hup.
    destruct (upload outcome _ _) as [t [[]|exc]]; cbn [fst] in Hup; by split.
  - pose proof (upload_messages outcome (pending_messages h) (pending_users h)) as Hup.
    destruct (upload outcome _ _) as [t [[]|exc]]; cbn [fst] in Hup; by split.
Qed.

(** X4. [shutdown] after a run of the live loop.  When every upload of the
    run and the upload of [shutdown] return, the delivery is complete: over
    the run and the shutdown together every message buffered at the start or
    received is handed to [push_batch_msgs] exactly once, in order;
    afterwards both buffers are empty and a second [shutdown] does nothing.
    After a run that an upload ended by raising, [shutdown] hands the batch
    of that upload over a second time.  A [shutdown] whose own upload raises
    leaves both buffers as they were. *)
Theorem shutdown_delivers_the_rest (turns : list turn) (outcome : upload_outcome)
    (h : handler) :
  let '(h1, t1, r1) := live_run turns h in
  let '(h2, t2, r2) := shutdown outcome h1 in
  match r1 with
  | Returns _ => uploaded_messages (t1 ++ t2) = pending_messages h ++ received turns
  | Raises _ =>
      uploaded_messages (t1 ++ t2)
      = pending_messages h ++ received (turns_run turns h) ++ pending_messages h1
      /\ pending_messages h1 <> []
      /\ exists earlier, uploaded_messages t1 = earlier ++ pending_messages h1
  end
  /\ match r2 with
     | Returns _ =>
         pending_messages h2 = [] /\ pending_users h2 = ∅
         /\ forall outcome', shutdown outcome' h2 = (h2, [], Returns tt)
     | Raises _ => h2 = h1
     end.
Proof.
  pose proof (live_run_messages turns h) as Hrun.
  destruct (live_run turns h) as [[h1 t1] r1].
  pose proof (shutdown_messages outcome h1) as Hs.
  destruct (shutdown outcome h1) as [[h2 t2] r2]. destruct Hs as [Hs1 Hs2].
  split; [|exact Hs2].
  unfold uploaded_messages in *. rewrite flat_map_app, Hs1.
  destruct r1 as [[]|exc].
  - exact Hrun.
  - destruct Hrun as (H1 & H2 & H3). split; [|by split].
    by rewrite H1, app_assoc.
Qed.

End IngestionRunFacts.

(** ** Runs of a Media Processor task ([process_video]) *)

Module TaskFacts.
Import ThumbnailGenerator.

(** *** Rules for [hoare] *)

Section Hoare.
Context {A : Type}.
Implicit Types (P : state -> Prop) (ok : event -> Prop) (Q : pyresult A -> state -> Prop).

Lemma hoare_ret P ok (a : A) Q :
  (forall s, P s -> Q (Returns a) s) -> hoare P ok (mret a) Q.
Proof. intros H s Hs. split; [by apply H | constructor]. Qed.

Lemma hoare_raise P ok exc Q :
  (forall s, P s -> Q (Raises exc) s) -> hoare P ok (raise exc) Q.
Proof. intros H s Hs. split; [by apply H | constructor]. Qed.

Lemma hoare_gets P ok (f : state -> A) Q :
  (forall s, P s -> Q (Returns (f s)) s) -> hoare P ok (gets f) Q.
Proof. intros H s Hs. split; [by apply H | constructor]. Qed.

Lemma hoare_conseq P P' ok (m : M A) Q Q' :
  hoare P' ok m Q' -> (forall s, P s -> P' s) -> (forall r s, Q' r s -> Q r s) ->
  hoare P ok m Q.
Proof. intros H HP HQ s Hs. destruct (H s (HP s Hs)). split; [by apply HQ | done]. Qed.

Lemma hoare_false P ok (m : M A) Q : (forall s, ~ P s) -> hoare P ok m Q.
Proof. intros H s Hs. by destruct (H s). Qed.

Lemma hoare_try_except P ok (m : M A) (h : string -> M A) Q1 Q :
  hoare P ok m Q1 ->
  (forall a s, Q1 (Returns a) s -> Q (Returns a) s) ->
  (forall exc, hoare (Q1 (Raises exc)) ok (h exc) Q) ->
  hoare P ok (try_except m h) Q.
Proof.
  intros Hm Hret Hh s Hs. unfold try_except.
  destruct (Hm s Hs) as [HQ Ht]. destruct (m s) as [[s1 t1] [a|exc]]; cbn in *.
  - split; [by apply Hret | done].
  - destruct (Hh exc s1 HQ) as [HQ2 Ht2].
    destruct (h exc s1) as [[s2 t2] r]; cbn in *.
    split; [done | by apply Forall_app].
Qed.

End Hoare.

Lemma hoare_emit P ok ev Q :
  ok ev -> (forall s, P s -> Q (Returns tt) s) -> hoare P ok (emit ev) Q.
Proof. intros Hev H s Hs. split; [by apply H | by repeat constructor]. Qed.

Lemma hoare_log P ok lvl msg Q :
  ok (Log lvl msg) -> (forall s, P s -> Q (Returns tt) s) -> hoare P ok (log_item lvl msg) Q.
Proof. apply hoare_emit. Qed.

Lemma hoare_modify P ok (f : state -> state) Q :
  (forall s, P s -> Q (Returns tt) (f s)) -> hoare P ok (modify f) Q.
Proof. intros H s Hs. split; [by apply H | constructor]. Qed.

Lemma hoare_bind {A B} P ok (m : M A) (k : A -> M B) Q1 Q :
  hoare P ok m Q1 ->
  (forall exc s, Q1 (Raises exc) s -> Q (Raises exc) s) ->
  (forall a, hoare (Q1 (Returns a)) ok (k a) Q) ->
  hoare P ok (m ≫= k) Q.
Proof.
  intros Hm Hexc Hk s Hs. unfold mbind, M_bind, bind.
  destruct (Hm s Hs) as [HQ Ht]. destruct (m s) as [[s1 t1] [a|exc]]; cbn in *.
  - destruct (Hk a s1 HQ) as [HQ2 Ht2].
    destruct (k a s1) as [[s2 t2] r]; cbn in *.
    split; [done | by apply Forall_app].
  - split; [by apply Hexc | done].
Qed.

(** Reading the state: the continuation may assume what was read. *)
Lemma hoare_read {A B} P ok (f : state -> A) (k : A -> M B) Q :
  (forall a, hoare (fun s => P s /\ f s = a) ok (k a) Q) ->
  hoare P ok (gets f ≫= k) Q.
Proof.
  intros Hk s Hs. unfold mbind, M_bind, bind, gets.
  destruct (Hk (f s) s (conj Hs eq_refl)) as [HQ Ht].
  destruct (k (f s) s) as [[s2 t2] r]; cbn in *. done.
Qed.

Lemma hoare_when P ok (b : bool) (m : M unit) Q :
  (b = true -> hoare P ok m Q) -> (b = false -> forall s, P s -> Q (Returns tt) s) ->
  hoare P ok (when b m) Q.
Proof. destruct b; intros H1 H2; [by apply H1 | by apply hoare_ret, H2]. Qed.

Lemma hoare_read_known {A B} P ok (f : state -> A) (k : A -> M B) (a0 : A) Q :
  (forall s, P s -> f s = a0) -> hoare P ok (k a0) Q -> hoare P ok (gets f ≫= k) Q.
Proof.
  intros Hf Hk. apply hoare_read. intros a s [Hs <-]. rewrite (Hf s Hs). by apply Hk.
Qed.

(** Invariants: the same assertion before and after, whatever the outcome. *)
Lemma inv_bind {A B} (P : state -> Prop) ok (m : M A) (k : A -> M B) :
  hoare P ok m (fun _ => P) -> (forall a, hoare P ok (k a) (fun _ => P)) ->
  hoare P ok (m ≫= k) (fun _ => P).
Proof. intros Hm Hk. by eapply hoare_bind. Qed.

Lemma inv_try_except {A} (P : state -> Prop) ok (m : M A) (h : string -> M A) :
  hoare P ok m (fun _ => P) -> (forall exc, hoare P ok (h exc) (fun _ => P)) ->
  hoare P ok (try_except m h) (fun _ => P).
Proof. intros Hm Hh. by eapply hoare_try_except. Qed.

(** Proves [hoare P ok m (fun _ => P)] by following the structure of [m];
    [side] proves that events are allowed and that state updates keep [P];
    a read whose value [P] determines is replaced by that value. *)
Ltac hoare_inv side :=
  repeat first
    [ apply hoare_ret; [done]
    | apply hoare_raise; [done]
    | apply hoare_emit; [solve [side] | done]
    | apply hoare_log; [solve [side] | done]
    | apply (hoare_read_known _ _ _ _ true); [solve [side] | cbn beta iota]
    | apply (hoare_read_known _ _ _ _ false); [solve [side] | cbn beta iota]
    | apply hoare_gets; [done]
    | apply hoare_modify; [solve [side]]
    | apply hoare_when;
        [let H := fresh in intros H; try (cbn in H; discriminate H) | done]
    | apply inv_try_except; [ | intros ?]
    | apply inv_bind; [ | intros ?]
    | match goal with
      | |- hoare _ _ (if ?b then _ else _) _ => destruct b
      | |- hoare _ _ (match ?x with _ => _ end) _ => destruct x
      end ].

Ltac unfold_task :=
  unfold process_video, download_video, process_metadata, get_video_length,
    generate_thumbnail, upload_thumbnail, uploader_upload_thumbnail, upload_to_bucket,
    path_exists.


(** *** What a task touches *)

(** X5. Whatever the outcomes of the external calls, a task acts on nothing
    but its own descriptor: every download is of the descriptor's URL into
    its own [.mp4] file, every probe, thumbnail run and removal names files of
    its own id (and only an [.mp4] is ever removed), every queued duration
    carries its id and a length, every upload goes to the blob
    [thumb/<id>.png], and a task never writes to the datastore itself. *)
Theorem process_video_own_events (e : env) (v : video) (s : state) :
  Forall (own_event v) (process_video e v s).1.2.
Proof.
  enough (H : hoare (fun _ => True) (own_event v) (process_video e v) (fun _ _ => True))
    by (by apply H).
  unfold_task. hoare_inv ltac:(done).
Qed.

Lemma task_frame_refl (v : video) (s : state) : task_frame v s s.
Proof. unfold task_frame. split_and!; try done. set_solver. Qed.

Lemma task_frame_files (v : video) (s0 s : state) (f : gset path -> gset path) :
  (forall fs p, stem p <> video_Id v -> p ∈ f fs <-> p ∈ fs) ->
  task_frame v s0 s -> task_frame v s0 (set_files f s).
Proof.
  intros Hf (? & ? & ? & ? & ? & ? & ? & ? & Hfiles). unfold task_frame. cbn.
  split_and!; try done. intros p Hp. by rewrite Hf, Hfiles.
Qed.

Lemma task_frame_queue (v : video) (s0 s : state) (l : list metadata_entry) :
  task_frame v s0 s -> task_frame v s0 (set_metadata_queue (fun q => q ++ l) s).
Proof.
  intros (? & ? & ? & ? & ? & ? & ? & ? & Hfiles). unfold task_frame. cbn.
  split_and!; try done. by apply prefix_app_r.
Qed.

Lemma task_frame_uploaded (v : video) (s0 s : state) :
  task_frame v s0 s ->
  task_frame v s0 (set_last_uploaded_files (union {[(video_Id v, "png")]}) s).
Proof.
  intros (? & ? & ? & ? & ? & ? & ? & ? & Hfiles). unfold task_frame. cbn.
  split_and!; try done; set_solver.
Qed.

Ltac frame_side :=
  first
    [ done
    | intros ? ?; apply task_frame_files; [intros ? ? ?; set_solver | done]
    | intros ? ?; by apply task_frame_queue
    | intros ? ?; by apply task_frame_uploaded ].


(** X6. A task only reads the two known sets: whatever happens, it leaves
    [video_lengths], [uploaded_uuids] and the three folders as they were, it
    only appends to the metadata queue, it adds at most its own thumbnail
    name to the uploader's [last_uploaded_files], and it neither creates nor
    removes a file of another id. *)
Theorem process_video_frame (e : env) (v : video) (s : state) :
  task_frame v s (process_video e v s).1.1.
Proof.
  enough (H : hoare (task_frame v s) (fun _ => True) (process_video e v)
                (fun _ => task_frame v s)).
  { apply H, task_frame_refl. }
  unfold_task. hoare_inv frame_side.
Qed.

(** *** Work a task does not repeat *)

Ltac known_side :=
  first
    [ exact I
    | intros ? ?; assumption
    | intros ? ?; apply bool_decide_eq_true_2; assumption
    | intros ? ?; apply elem_of_union_r; assumption ].


(** X7. A task for an id whose duration is already known never runs ffprobe
    and never puts an entry on the metadata queue, even when it goes on to
    make the thumbnail. *)
Theorem known_duration_not_probed (e : env) (v : video) (s : state) :
  is_Some (video_lengths s !! video_Id v) ->
  Forall (fun ev => match ev with Ffprobe _ | QueuePut _ => False | _ => True end)
         (process_video e v s).1.2.
Proof.
  intros Hknown.
  enough (H : hoare (fun s => is_Some (video_lengths s !! video_Id v))
                (fun ev => match ev with Ffprobe _ | QueuePut _ => False | _ => True end)
                (process_video e v)
                (fun _ s => is_Some (video_lengths s !! video_Id v)))
    by (by apply H).
  unfold_task. hoare_inv known_side.
Qed.

Lemma known_duration_not_probed_witness :
  let s := State "thumb" "temp" "thumb" {["0a1b2c3d" := FFinite 12.5]} [] [] ∅ ∅ in
  let v := Video "0a1b2c3d" "https://cdn.example/0/1/clip.mp4?ex=67357a78" in
  let e := Env Http200 (ProbeFloat (FFinite 12.5)) FfmpegOk None None in
  Forall (fun ev => match ev with Ffprobe _ | QueuePut _ => False | _ => True end)
         (process_video e v s).1.2.
Proof.
  intros s v e. apply (known_duration_not_probed e v s).
  apply (bool_decide_unpack _). vm_compute. exact I.
Defined.

(** X8. A task for an id listed in [uploaded_uuids] never runs ffmpeg, even
    when it goes on to measure the duration. *)
Theorem known_thumbnail_not_generated (e : env) (v : video) (s : state) :
  video_Id v ∈ uploaded_uuids s ->
  Forall (fun ev => match ev with Ffmpeg _ _ => False | _ => True end)
         (process_video e v s).1.2.
Proof.
  intros Hknown.
  enough (H : hoare (fun s => video_Id v ∈ uploaded_uuids s)
                (fun ev => match ev with Ffmpeg _ _ => False | _ => True end)
                (process_video e v)
                (fun _ s => video_Id v ∈ uploaded_uuids s))
    by (by apply H).
  unfold_task. hoare_inv known_side.
Qed.

Lemma known_thumbnail_not_generated_witness :
  let s := State "thumb" "temp" "thumb" ∅ ["0a1b2c3d"] [] ∅ ∅ in
  let v := Video "0a1b2c3d" "https://cdn.example/0/1/clip.mp4?ex=67357a78" in
  let e := Env Http200 (ProbeFloat (FFinite 12.5)) FfmpegOk None None in
  Forall (fun ev => match ev with Ffmpeg _ _ => False | _ => True end)
         (process_video e v s).1.2.
Proof.
  intros s v e. apply (known_thumbnail_not_generated e v s).
  apply (bool_decide_unpack _). vm_compute. exact I.
Defined.

(** X9. A thumbnail name the uploader has already recorded in
    [last_uploaded_files] is not sent to the bucket again: the task for that
    id does everything else but emits no upload. *)
Theorem uploaded_thumbnail_not_uploaded_again (e : env) (v : video) (s : state) :
  (video_Id v, "png") ∈ last_uploaded_files s ->
  Forall (fun ev => match ev with BucketUpload _ _ => False | _ => True end)
         (process_video e v s).1.2.
Proof.
  intros Hknown.
  enough (H : hoare (fun s => (video_Id v, "png") ∈ last_uploaded_files s)
                (fun ev => match ev with BucketUpload _ _ => False | _ => True end)
                (process_video e v)
                (fun _ s => (video_Id v, "png") ∈ last_uploaded_files s))
    by (by apply H).
  unfold_task. hoare_inv known_side.
Qed.

Lemma uploaded_thumbnail_not_uploaded_again_witness :
  let s := State "thumb" "temp" "thumb" ∅ [] [] {[("0a1b2c3d", "png")]} ∅ in
  let v := Video "0a1b2c3d" "https://cdn.example/0/1/clip.mp4?ex=67357a78" in
  let e := Env Http200 (ProbeFloat (FFinite 12.5)) FfmpegOk None None in
  Forall (fun ev => match ev with BucketUpload _ _ => False | _ => True end)
         (process_video e v s).1.2.
Proof.
  intros s v e. apply (uploaded_thumbnail_not_uploaded_again e v s).
  apply (bool_decide_unpack _). vm_compute. exact I.
Defined.

(** X10. A temporary video file found on disk is used as it is: when
    [temp/<id>.mp4] exists at the start of the task (left, say, by a download
    that failed half-way), the task makes no HTTP request at all. *)
Theorem leftover_video_not_downloaded (e : env) (v : video) (s : state) :
  Path (temp_folder s) (video_Id v) "mp4" ∈ files s ->
  Forall (fun ev => match ev with HttpGet _ _ => False | _ => True end)
         (process_video e v s).1.2.
Proof.
  intros Hleft.
  enough (H : hoare (fun s => Path (temp_folder s) (video_Id v) "mp4" ∈ files s)
                (fun ev => match ev with HttpGet _ _ => False | _ => True end)
                (process_video e v) (fun _ _ => True))
    by (by apply H).
  unfold_task.
  apply hoare_read; intros tmp. apply hoare_read; intros out.
  eapply hoare_conseq with (P' := fun s => Path tmp (video_Id v) "mp4" ∈ files s)
                           (Q' := fun _ _ => True);
    [ | by intros s0 [[H <-] _] | done].
  eapply hoare_try_except with (Q1 := fun _ _ => True); [ | done | ].
  - apply hoare_read; intros m. apply hoare_read; intros th.
    eapply hoare_conseq with (P' := fun s => Path tmp (video_Id v) "mp4" ∈ files s)
                             (Q' := fun _ _ => True);
      [ | by intros s0 [[H _] _] | done].
    destruct (m && th).
    + eapply hoare_bind with (Q1 := fun _ _ => True); [|done|intros ?].
      * by apply hoare_log.
      * by apply hoare_ret.
    + eapply hoare_bind with (Q1 := fun _ _ => True); [|done|intros ?].
      * apply hoare_when; [intros _|done].
        apply (hoare_read_known _ _ _ _ true).
        { intros s0 H. by apply bool_decide_eq_true_2. }
        cbn. by apply hoare_ret.
      * hoare_inv known_side.
  - intros exc. hoare_inv known_side.
Qed.


Lemma leftover_video_not_downloaded_witness :
  let s := State "thumb" "temp" "thumb" ∅ [] [] ∅ {[Path "temp" "0a1b2c3d" "mp4"]} in
  let v := Video "0a1b2c3d" "https://cdn.example/0/1/clip.mp4?ex=67357a78" in
  let e := Env (DownloadError "ClientConnectorError" false) ProbeNoOutput FfmpegOk None None in
  Forall (fun ev => match ev with HttpGet _ _ => False | _ => True end)
         (process_video e v s).1.2.
Proof.
  intros s v e. apply (leftover_video_not_downloaded e v s).
  apply (bool_decide_unpack _). vm_compute. exact I.
Defined.

(** *** The temporary file *)

Lemma hoare_process_video_cleanup (e : env) (v : video) (tf : string) :
  hoare (fun s => temp_folder s = tf) (fun _ => True) (process_video e v)
        (fun r s => r = Returns Generated -> Path tf (video_Id v) "mp4" ∉ files s).
Proof.
  set (tmp := Path tf (video_Id v) "mp4").
  unfold_task.
  apply (hoare_read_known _ _ _ _ tf); [done|]. fold tmp.
  apply hoare_read; intros out.
  eapply hoare_conseq with (P' := fun _ => True); [ | done | intros r s0 H; exact H].
  eapply hoare_try_except
    with (Q1 := fun r s => r = Returns Generated -> tmp ∉ files s); [ | done | ].
  - apply hoare_read; intros m. apply hoare_read; intros th.
    eapply hoare_conseq with (P' := fun _ => True); [ | done | intros r s0 H; exact H].
    destruct (m && th).
    + eapply hoare_bind with (Q1 := fun _ _ => True); [|done|intros ?].
      * by apply hoare_log.
      * by apply hoare_ret.
    + eapply hoare_bind with (Q1 := fun _ _ => True); [|done|intros ?].
      { hoare_inv known_side. }
      eapply hoare_bind with (Q1 := fun _ _ => True); [|done|intros ?].
      { hoare_inv known_side. }
      eapply hoare_bind with (Q1 := fun _ _ => True); [|done|intros ?].
      { hoare_inv known_side. }
      apply hoare_read; intros t_exists.
      eapply hoare_bind
        with (Q1 := fun r s => match r with Returns _ => tmp ∉ files s | Raises _ => True end);
        [ | done | intros ?].
      * destruct t_exists; cbn [when].
        -- eapply hoare_bind with (Q1 := fun _ _ => True); [|done|intros ?].
           { by apply hoare_emit. }
           destruct (os_remove e).
           ++ by apply hoare_raise.
           ++ eapply hoare_bind with (Q1 := fun _ s => tmp ∉ files s); [|done|intros ?].
              ** apply hoare_modify. intros s0 _. cbn. set_solver.
              ** by apply hoare_log.
        -- apply hoare_ret. intros s0 [_ H]. by apply bool_decide_eq_false_1 in H.
      * eapply hoare_bind with (Q1 := fun _ s => tmp ∉ files s); [|done|intros ?].
        -- hoare_inv known_side.
        -- by apply hoare_ret.
  - intros exc.
    eapply hoare_bind with (Q1 := fun _ _ => True); [|done|intros ?].
    + by apply hoare_log.
    + by apply hoare_ret.
Qed.


(** X11. A task that reports [Generated] leaves no temporary video behind:
    [temp/<id>.mp4] is not on disk when it returns, whether the task
    downloaded it or found it there. *)
Theorem generated_task_leaves_no_temp_file (e : env) (v : video) (s : state) :
  (process_video e v s).2 = Returns Generated ->
  Path (temp_folder s) (video_Id v) "mp4" ∉ files (process_video e v s).1.1.
Proof.
  intros Hgen. by apply (hoare_process_video_cleanup e v (temp_folder s)).
Qed.

Lemma generated_task_leaves_no_temp_file_witness :
  let v := Video "0a1b2c3d" "https://cdn.example/0/1/clip.mp4?ex=67357a78" in
  let e := Env Http200 (ProbeFloat (FFinite 12.5)) FfmpegOk None None in
  Path "temp" "0a1b2c3d" "mp4" ∉ files (process_video e v fresh_state).1.1.
Proof.
  intros v e. apply (generated_task_leaves_no_temp_file e v fresh_state).
  vm_compute. reflexivity.
Defined.

(** *** The duration a task hands to the Metadata Batcher *)

Lemma hoare_process_video_queues (e : env) (v : video) (len : pyfloat)
    (q0 : list metadata_entry) (vl0 : gmap string pyfloat) :
  ffprobe e = ProbeFloat len ->
  (forall exc created, http_get e <> DownloadError exc created) ->
  vl0 !! video_Id v = None ->
  hoare (fun s => metadata_queue s = q0 /\ video_lengths s = vl0) (fun _ => True)
        (process_video e v)
        (fun _ s => metadata_queue s = q0 ++ [Entry (Some (video_Id v)) (Some len)]
                    /\ video_lengths s = vl0).
Proof.
  intros Hprobe Hget Hnew.
  set (I0 := fun s => metadata_queue s = q0 /\ video_lengths s = vl0).
  set (I1 := fun s => metadata_queue s = q0 ++ [Entry (Some (video_Id v)) (Some len)]
                      /\ video_lengths s = vl0).
  unfold_task.
  apply hoare_read; intros tmp. apply hoare_read; intros out.
  eapply hoare_conseq with (P' := I0) (Q' := fun _ => I1);
    [ | by intros s0 [[H _] _] | done].
  eapply hoare_try_except with (Q1 := fun _ => I1); [ | done | ].
  - apply (hoare_read_known _ _ _ _ false).
    { intros s0 [_ ->]. apply bool_decide_eq_false_2. rewrite Hnew. by intros []. }
    apply hoare_read; intros th.
    eapply hoare_conseq with (P' := I0) (Q' := fun _ => I1);
      [ | by intros s0 [H _] | done].
    cbn [andb negb orb when].
    eapply hoare_bind
      with (Q1 := fun r s => match r with Returns _ => I0 s | Raises _ => False end);
      [ | done | intros ?].
    { apply hoare_read; intros t_exists.
      eapply hoare_conseq with (P' := I0); [ | by intros s0 [H _] | intros r s0 H; exact H].
      destruct t_exists; cbn [negb when]; [by apply hoare_ret|].
      eapply hoare_bind
        with (Q1 := fun r s => match r with Returns _ => I0 s | Raises _ => False end);
        [|done|intros ?].
      { by apply hoare_log. }
      eapply hoare_bind
        with (Q1 := fun r s => match r with Returns _ => I0 s | Raises _ => False end);
        [|done|intros ?].
      { by apply hoare_emit. }
      destruct (http_get e) as [|code|exc created] eqn:Hg.
      - by apply hoare_modify.
      - by apply hoare_ret.
      - by destruct (Hget exc created). }
    eapply hoare_bind with (Q1 := fun _ => I1); [ | done | intros ?].
    { rewrite Hprobe.
      eapply hoare_bind
        with (Q1 := fun r s => r = Returns (Some len) /\ I0 s); [ | | intros vl].
      - eapply hoare_bind
          with (Q1 := fun r s => match r with Returns _ => I0 s | Raises _ => False end);
          [|done|intros ?].
        { by apply hoare_emit. }
        eapply hoare_bind
          with (Q1 := fun r s => match r with Returns _ => I0 s | Raises _ => False end);
          [|done|intros ?].
        { by apply hoare_log. }
        by apply hoare_ret.
      - by intros exc s0 [[=] _].
      - destruct vl as [len'|]; [|by apply hoare_false; intros s0 [[=] _]].
        eapply hoare_bind
          with (Q1 := fun r s => match r with
                                 | Returns _ => len' = len /\ I0 s
                                 | Raises _ => False
                                 end); [|done|intros ?].
        { apply hoare_log; [done|]. by intros s0 [[= ->] H]. }
        eapply hoare_bind with (Q1 := fun _ => I1); [|done|intros ?].
        { apply hoare_modify. intros s0 [-> [Hq Hv]]. unfold I1. cbn. by rewrite Hq. }
        hoare_inv known_side. }
    hoare_inv known_side.
  - intros exc. hoare_inv known_side.
Qed.

End TaskFacts.

(** ** The Metadata Batcher over whole cycles, and after a task *)

Module BatcherRunFacts.
Import ThumbnailGenerator.

(** What [handle_entry] does, with the conditions under which it accepts. *)
Lemma handle_entry_accepts (now : Q) (entry : metadata_entry) (s : state) (b : batcher) :
  (exists t, handle_entry now entry (s, b) = (s, b, t))
  \/ (exists vid len,
        entry = Entry (Some vid) (Some len)
        /\ str_truthy vid = true /\ float_truthy len = true
        /\ video_lengths s !! vid = None
        /\ handle_entry now entry (s, b)
           = (set_video_lengths <[vid := len]> s,
              Batcher true now (new_metadata b ++ [entry]),
              [Log DEBUG (MsgAddedToBatch vid len)])).
Proof.
  unfold handle_entry. destruct entry as [[vid|] [len|]]; cbn; try by eauto.
  - destruct (str_truthy vid) eqn:Hv; cbn; [|by eauto].
    destruct (float_truthy len) eqn:Hl; cbn; [|by eauto].
    destruct (video_lengths s !! vid) as [existing|] eqn:Hrec.
    + destruct (float_ne existing len); eauto.
    + right. by exists vid, len.
  - destruct (str_truthy vid); cbn; by eauto.
Qed.

Lemma recorded_entry_insert (s : state) (entry : metadata_entry) (vid : string)
    (len : pyfloat) :
  video_lengths s !! vid = None ->
  recorded_entry s entry ->
  recorded_entry (set_video_lengths <[vid := len]> s) entry
  /\ entry_Id entry <> Some vid.
Proof.
  intros Hfree (vid' & len' & -> & Hv & Hl & Hrec).
  assert (vid <> vid') by congruence.
  split; [|cbn; congruence].
  exists vid', len'. split_and!; try done.
  unfold set_video_lengths. cbn [video_lengths]. by rewrite lookup_insert_ne.
Qed.

Lemma handle_entry_recorded_batch (now : Q) (entry : metadata_entry) (s : state)
    (b : batcher) :
  batcher_ok b -> batch_recorded s b ->
  forall s' b' t, handle_entry now entry (s, b) = (s', b', t) ->
    batcher_ok b' /\ batch_recorded s' b' /\ metadata_queue s' = metadata_queue s.
Proof.
  intros Hok [Hdup Hrec] s' b' t Hrun.
  destruct (handle_entry_accepts now entry s b)
    as [[t0 H0] | (vid & len & -> & Hv & Hl & Hfree & H0)];
    rewrite H0 in Hrun; injection Hrun as <- <- <-.
  - done.
  - split; [|split; [|done]].
    + unfold batcher_ok. cbn. split; [|done].
      intros _ Hnil. by apply app_eq_nil in Hnil as [_ [=]].
    + unfold batch_recorded. cbn [new_metadata]. split.
      * rewrite fmap_app. apply NoDup_app. split; [done|]. split; [|apply NoDup_singleton].
        intros id Hin Hid. cbn in Hid. apply list_elem_of_singleton in Hid as ->.
        apply list_elem_of_fmap in Hin as (entry & Hid & Hin).
        rewrite Forall_forall in Hrec.
        by destruct (recorded_entry_insert s entry vid len Hfree (Hrec entry Hin)).
      * apply Forall_app. split.
        -- eapply Forall_impl; [exact Hrec|]. intros entry Hentry.
           by destruct (recorded_entry_insert s entry vid len Hfree Hentry).
        -- apply Forall_singleton. exists vid, len. split_and!; try done.
           unfold set_video_lengths. cbn [video_lengths]. by rewrite lookup_insert_eq.
Qed.

Lemma drain_entries_recorded_batch (clock : nat -> Q) (queue : list metadata_entry) :
  forall (i : nat) (s : state) (b : batcher),
    batcher_ok b -> batch_recorded s b ->
    forall s' b' t, drain_entries clock i queue (s, b) = (s', b', t) ->
      batcher_ok b' /\ batch_recorded s' b' /\ metadata_queue s' = metadata_queue s.
Proof.
  induction queue as [|entry queue IH]; intros i s b Hok Hrec s' b' t Hrun.
  - cbn in Hrun. by injection Hrun as <- <- <-.
  - cbn [drain_entries] in Hrun.
    destruct (handle_entry (clock i) entry (s, b)) as [[s1 b1] t1] eqn:H1.
    destruct (drain_entries clock (S i) queue (s1, b1)) as [[s2 b2] t2] eqn:H2.
    injection Hrun as <- <- <-.
    destruct (handle_entry_recorded_batch _ _ _ _ Hok Hrec _ _ _ H1) as (Hok1 & Hrec1 & Hq1).
    destruct (IH _ _ _ Hok1 Hrec1 _ _ _ H2) as (Hok2 & Hrec2 & Hq2).
    split_and!; try done. congruence.
Qed.

Lemma handle_entry_logs (now : Q) (entry : metadata_entry) (sb : state * batcher) :
  exists lvl msg, (handle_entry now entry sb).2 = [Log lvl msg].
Proof.
  destruct sb as [s b]. unfold handle_entry.
  destruct (negb _); [by eauto|].
  destruct (entry_Id entry) as [vid|], (entry_Length entry) as [len|]; try by eauto.
  destruct (video_lengths s !! vid) as [existing|]; [|by eauto].
  destruct (float_ne existing len); eauto.
Qed.

Lemma drain_entries_no_push (clock : nat -> Q) (queue : list metadata_entry) :
  forall (i : nat) (sb : state * batcher) (batch : list metadata_entry),
    PushBatchRuntimes batch ∉ (drain_entries clock i queue sb).2.
Proof.
  induction queue as [|entry queue IH]; intros i sb batch.
  - cbn. apply not_elem_of_nil.
  - cbn [drain_entries].
    destruct (handle_entry_logs (clock i) entry sb) as (lvl & msg & Hlog).
    destruct (handle_entry (clock i) entry sb) as [sb1 t1].
    specialize (IH (S i) sb1 batch).
    destruct (drain_entries clock (S i) queue sb1) as [sb2 t2].
    cbn [fst snd] in *. subst t1. rewrite elem_of_app. intros [Hin|Hin]; [|done].
    by apply list_elem_of_singleton in Hin.
Qed.

(** X12. The Metadata Batcher keeps its batch consistent with what it has
    recorded.  If, before a cycle, the batch holds one entry per id, each a
    well-formed entry whose length is the recorded duration of its id (as is
    the case for the empty batch the batcher starts with), then the same
    holds after the cycle, the cycle has emptied the metadata queue, and
    every batch it hands to [push_batch_runtimes] is non-empty, names each id
    once and carries for each id the duration recorded for it, whether the
    push returns or raises. *)
Theorem batch_cycle_keeps_batch_recorded (push : option string) (clock : nat -> Q)
    (now : Q) (s : state) (b : batcher) :
  batcher_ok b -> batch_recorded s b ->
  let '(s', b', t) := batch_cycle push clock now (s, b) in
  batcher_ok b' /\ batch_recorded s' b'
  /\ metadata_queue s' = []
  /\ forall batch, PushBatchRuntimes batch ∈ t ->
       batch <> [] /\ NoDup (entry_Id <$> batch) /\ Forall (recorded_entry s') batch.
Proof.
  intros Hok Hrec. unfold batch_cycle.
  pose proof (drain_entries_no_push clock (metadata_queue s) 0
                (set_metadata_queue (fun _ => []) s, b)) as Hnopush.
  destruct (drain_entries clock 0 (metadata_queue s)
              (set_metadata_queue (fun _ => []) s, b)) as [[s1 b1] t1] eqn:Hdrain.
  destruct (drain_entries_recorded_batch clock (metadata_queue s) 0
              (set_metadata_queue (fun _ => []) s) b Hok Hrec _ _ _ Hdrain)
    as (Hok1 & Hrec1 & Hq1).
  assert (Hpushed : forall batch r,
            PushBatchRuntimes batch
              ∈ t1 ++ [Log INFO (MsgUploadingBatch (length (new_metadata b1)));
                       PushBatchRuntimes (new_metadata b1)] ++ cycle_end r ->
            flush_due now b1 = true ->
            batch <> [] /\ NoDup (entry_Id <$> batch) /\ Forall (recorded_entry s1) batch).
  { intros batch r Hin Hdue.
    apply elem_of_app in Hin as [Hin|Hin]; [by destruct (Hnopush batch)|].
    apply elem_of_cons in Hin as [[=]|Hin].
    apply elem_of_cons in Hin as [Hin|Hin];
      [|destruct r; cbn in Hin; by apply list_elem_of_singleton in Hin].
    injection Hin as ->.
    destruct Hrec1 as [Hdup1 Hall1]. split_and!; try done.
    apply Hok1. unfold flush_due in Hdue. by apply andb_true_iff in Hdue as [? _]. }
  unfold flush_check. destruct (flush_due now b1) eqn:Hdue.
  - destruct push as [exc|].
    + split_and!; try done. intros batch Hin. by eapply Hpushed.
    + split_and!.
      * unfold batcher_ok. cbn. split; [done | by intros []].
      * split; [apply NoDup_nil_2 | apply Forall_nil_2].
      * done.
      * intros batch Hin. by eapply Hpushed.
  - split_and!; try done.
    intros batch Hin. apply elem_of_app in Hin as [Hin|Hin]; [by destruct (Hnopush batch)|].
    cbn in Hin. by apply list_elem_of_singleton in Hin.
Qed.

Lemma batch_cycle_keeps_batch_recorded_witness :
  let a := Entry (Some "a") (Some (FFinite 10)) in
  let c := Entry (Some "c") (Some (FFinite 7)) in
  let s := State "thumb" "temp" "thumb" {["a" := FFinite 10]} [] [c; a] ∅ ∅ in
  let b := Batcher true 0 [a] in
  let '(s', b', t) := batch_cycle (Some "ServiceUnavailable") (fun _ => 5%Q) 66 (s, b) in
  batcher_ok b' /\ batch_recorded s' b'
  /\ metadata_queue s' = []
  /\ forall batch, PushBatchRuntimes batch ∈ t ->
       batch <> [] /\ NoDup (entry_Id <$> batch) /\ Forall (recorded_entry s') batch.
Proof.
  intros a c s b.
  apply (batch_cycle_keeps_batch_recorded (Some "ServiceUnavailable") (fun _ => 5%Q) 66 s b).
  - unfold batcher_ok. cbn. split; [discriminate | reflexivity].
  - split.
    + cbn. apply NoDup_singleton.
    + apply Forall_singleton. exists "a", (FFinite 10). split_and!; reflexivity.
Defined.

(** *** A task followed by a cycle of the batcher *)

Lemma process_video_queues (e : env) (v : video) (s : state) (len : pyfloat) :
  ffprobe e = ProbeFloat len ->
  (forall exc created, http_get e <> DownloadError exc created) ->
  video_lengths s !! video_Id v = None ->
  metadata_queue (process_video e v s).1.1
  = metadata_queue s ++ [Entry (Some (video_Id v)) (Some len)]
  /\ video_lengths (process_video e v s).1.1 = video_lengths s.
Proof.
  intros Hprobe Hget Hnew.
  by apply (TaskFacts.hoare_process_video_queues e v len (metadata_queue s)
              (video_lengths s) Hprobe Hget Hnew s).
Qed.

(** X13. The duration a task measures becomes known at the next cycle of the
    batcher.  When ffprobe prints a non-zero duration for a video with a
    non-empty id whose duration is unknown, the download does not raise and
    the metadata queue was empty, then after the task and one cycle of
    [batch_save_metadata] the duration is recorded in [video_lengths] under
    the id, the queue is empty again, and the entry is in the batch or was
    flushed with it in that very cycle. *)
Theorem probed_duration_is_recorded (push : option string) (e : env) (v : video)
    (s : state) (b : batcher) (clock : nat -> Q) (now : Q) (len : pyfloat) :
  ffprobe e = ProbeFloat len ->
  float_truthy len = true ->
  str_truthy (video_Id v) = true ->
  (forall exc created, http_get e <> DownloadError exc created) ->
  video_lengths s !! video_Id v = None ->
  metadata_queue s = [] ->
  let entry := Entry (Some (video_Id v)) (Some len) in
  let '(s2, b2, t2) := batch_cycle push clock now ((process_video e v s).1.1, b) in
  video_lengths s2 = <[video_Id v := len]> (video_lengths s)
  /\ metadata_queue s2 = []
  /\ (new_metadata b2 = new_metadata b ++ [entry]
      \/ (new_metadata b2 = [] /\ PushBatchRuntimes (new_metadata b ++ [entry]) ∈ t2)).
Proof.
  intros Hprobe Hlen Hid Hget Hnew Hempty entry.
  destruct (process_video_queues e v s len Hprobe Hget Hnew) as [Hq Hv].
  rewrite Hempty in Hq. cbn in Hq.
  set (s1 := (process_video e v s).1.1) in *.
  unfold batch_cycle. rewrite Hq. cbn [drain_entries].
  unfold handle_entry. cbn [entry_Id entry_Length opt_truthy].
  rewrite Hid, Hlen. cbn [andb negb].
  unfold set_metadata_queue at 1. cbn [video_lengths]. rewrite Hv, Hnew.
  cbn [app]. unfold flush_check.
  destruct (flush_due now _); [destruct push|]; cbn.
  - split_and!; [by rewrite Hv | done | by left].
  - split_and!; [by rewrite Hv | done |]. right. split; [done|].
    apply list_elem_of_In. cbn. tauto.
  - split_and!; [by rewrite Hv | done | by left].
Qed.

Lemma probed_duration_is_recorded_witness :
  let v := Video "0a1b2c3d" "https://cdn.example/0/1/clip.mp4?ex=67357a78" in
  let e := Env Http200 (ProbeFloat (FFinite 12.5)) FfmpegOk None None in
  let entry := Entry (Some "0a1b2c3d") (Some (FFinite 12.5)) in
  let '(s2, b2, t2) :=
    batch_cycle None (fun _ => 5%Q) 6
      ((process_video e v fresh_state).1.1, batcher_init 0) in
  video_lengths s2 = <["0a1b2c3d" := FFinite 12.5]> (video_lengths fresh_state)
  /\ metadata_queue s2 = []
  /\ (new_metadata b2 = new_metadata (batcher_init 0) ++ [entry]
      \/ (new_metadata b2 = []
          /\ PushBatchRuntimes (new_metadata (batcher_init 0) ++ [entry]) ∈ t2)).
Proof.
  intros v e entry.
  apply (probed_duration_is_recorded None e v fresh_state (batcher_init 0)
           (fun _ => 5%Q) 6 (FFinite 12.5)); try reflexivity.
  intros exc created. discriminate.
Defined.

(** X14. A measured duration of zero is never recorded.  When ffprobe prints
    [0.0] (or the id is empty), the task still queues the entry, and the
    batcher rejects it as invalid: after the task and one cycle the recorded
    durations are what they were, the id is still unknown, and the cycle has
    logged the entry as invalid; so each later task for that video downloads
    and probes it again. *)
Theorem zero_duration_is_never_recorded (push : option string) (e : env) (v : video)
    (s : state) (b : batcher) (clock : nat -> Q) (now : Q) (len : pyfloat) :
  ffprobe e = ProbeFloat len ->
  str_truthy (video_Id v) && float_truthy len = false ->
  (forall exc created, http_get e <> DownloadError exc created) ->
  video_lengths s !! video_Id v = None ->
  metadata_queue s = [] ->
  let entry := Entry (Some (video_Id v)) (Some len) in
  let '(s2, b2, t2) := batch_cycle push clock now ((process_video e v s).1.1, b) in
  video_lengths s2 = video_lengths s
  /\ video_lengths s2 !! video_Id v = None
  /\ Log ERROR (MsgInvalidEntry entry) ∈ t2
  /\ b2 = (flush_check push now b).1.1.
Proof.
  intros Hprobe Hfalsy Hget Hnew Hempty entry.
  destruct (process_video_queues e v s len Hprobe Hget Hnew) as [Hq Hv].
  rewrite Hempty in Hq. cbn in Hq.
  set (s1 := (process_video e v s).1.1) in *.
  unfold batch_cycle. rewrite Hq. cbn [drain_entries].
  unfold handle_entry. cbn [entry_Id entry_Length opt_truthy].
  rewrite Hfalsy. cbn [negb app].
  destruct (flush_check push now b) as [[b2 t2] r]. cbn.
  split_and!; [done | by rewrite Hv | | done].
  apply elem_of_cons. by left.
Qed.

Lemma zero_duration_is_never_recorded_witness :
  let v := Video "0a1b2c3d" "https://cdn.example/0/1/clip.mp4?ex=67357a78" in
  let e := Env Http200 (ProbeFloat (FFinite 0)) FfmpegOk None None in
  let entry := Entry (Some "0a1b2c3d") (Some (FFinite 0)) in
  let '(s2, b2, t2) :=
    batch_cycle None (fun _ => 5%Q) 6
      ((process_video e v fresh_state).1.1, batcher_init 0) in
  video_lengths s2 = video_lengths fresh_state
  /\ video_lengths s2 !! "0a1b2c3d" = None
  /\ Log ERROR (MsgInvalidEntry entry) ∈ t2
  /\ b2 = (flush_check None 6 (batcher_init 0)).1.1.
Proof.
  intros v e entry.
  apply (zero_duration_is_never_recorded None e v fresh_state (batcher_init 0)
           (fun _ => 5%Q) 6 (FFinite 0)); try reflexivity.
  intros exc created. discriminate.
Defined.

End BatcherRunFacts.

(** ** The Expiration Scheduler over its loops ([start],
    [populate_refetch_queue_from_datastore], [process_expired_messages]) *)

Module SchedulerRunFacts.
Import Heapq HeapqFacts RefetchHandler RefetchFacts.
Local Open Scope nat_scope.

(** *** Failed re-fetches *)

Lemma process_loop_failures (submit : heap_entry -> option string) (now : Z) (fuel : nat) :
  forall heap : list heap_entry,
    failures (process_loop submit now fuel heap).2
    = omap (fun x => exc ← submit x; Some (message_id x, channel_id x, exc))
           (process_loop submit now fuel heap).1.2.
Proof.
  induction fuel as [|fuel IH]; intros heap; [done|].
  cbn [process_loop].
  destruct (heap !! 0) as [top|]; [|done].
  destruct (expired now top); [|done].
  destruct (heappop entry_lt heap) as [[x heap1]|]; [|done].
  specialize (IH heap1).
  destruct (process_loop submit now fuel heap1) as [[heap2 popped] t2].
  cbn [fst snd] in *. unfold failures in *.
  rewrite !omap_app, IH.
  destruct (submit x) as [exc|] eqn:Hs; cbn; rewrite Hs; reflexivity.
Qed.

(** X15. A re-fetch that cannot be handed to the bot is logged and given up:
    the failures logged by [process_expired_messages] are exactly those of
    the popped entries whose submission raised, in the order of popping; the
    loop goes on to the next entry; and an expired entry is not in the heap
    afterwards whether its submission raised or not, so it is not tried
    again. *)
Theorem failed_refetch_is_logged_and_dropped (submit : heap_entry -> option string)
    (now : Z) (heap : list heap_entry) :
  is_heap entry_lt heap ->
  let '(heap', popped, t) := process_expired_messages submit now heap in
  failures t = omap (fun x => exc ← submit x; Some (message_id x, channel_id x, exc)) popped
  /\ (popped ++ heap' ≡ₚ heap)
  /\ forall x, x ∈ heap -> expired now x = true ->
       x ∈ popped /\ (x ∉ heap')
       /\ forall exc, submit x = Some exc ->
            (message_id x, channel_id x, exc) ∈ failures t.
Proof.
  intros Hheap. unfold process_expired_messages.
  pose proof (process_loop_failures submit now (length heap) heap) as Hfail.
  destruct (process_loop_spec submit now (length heap) heap Hheap (le_n _))
    as (heap' & popped & t & Hrun & Hperm & Hexp & Hnot & _ & _ & _).
  rewrite Hrun in *. cbn [fst snd] in Hfail.
  split; [done|]. split; [done|].
  intros x Hx Hexpired.
  assert (Hnotin : x ∉ heap').
  { intros Hin. rewrite Forall_forall in Hnot. specialize (Hnot x Hin). congruence. }
  assert (Hin : x ∈ popped).
  { rewrite <- Hperm in Hx. apply elem_of_app in Hx as [|]; done. }
  split; [done|]. split; [done|].
  intros exc Hexc. rewrite Hfail. apply list_elem_of_omap.
  exists x. split; [done|]. by rewrite Hexc.
Qed.

Lemma failed_refetch_is_logged_and_dropped_witness :
  let e100 := HeapEntry (NInt 100) "aa" "11" "7" in
  let e200 := HeapEntry (NInt 200) "bb" "22" "7" in
  let e300 := HeapEntry (NInt 300) "cc" "33" "7" in
  let submit := fun x : heap_entry =>
    if String.eqb (message_id x) "aa" then Some "RuntimeError" else None in
  let '(heap', popped, t) := process_expired_messages submit 250 [e100; e300; e200] in
  failures t = omap (fun x => exc ← submit x; Some (message_id x, channel_id x, exc)) popped
  /\ (popped ++ heap' ≡ₚ [e100; e300; e200])
  /\ forall x, x ∈ [e100; e300; e200] -> expired 250 x = true ->
       x ∈ popped /\ (x ∉ heap')
       /\ forall exc, submit x = Some exc ->
            (message_id x, channel_id x, exc) ∈ failures t.
Proof.
  intros e100 e200 e300 submit.
  apply (failed_refetch_is_logged_and_dropped submit 250 [e100; e300; e200]).
  intros i j a b [-> | ->] Ha Hb;
    destruct i as [|[|[|i]]]; cbn in Ha, Hb; try discriminate;
    injection Ha as <-; injection Hb as <-; reflexivity.
Defined.

(** *** A heap that has been processed *)

Lemma expired_mono (now now' : Z) (x : heap_entry) :
  (now' <= now)%Z -> expired now x = false -> expired now' x = false.
Proof.
  unfold expired. intros Hle Hnot.
  destruct (Qle_bool (number_value (expire_at x)) (inject_Z now')) eqn:Hexp; [|done].
  apply Qle_bool_iff in Hexp.
  assert (Hle' : (inject_Z now' <= inject_Z now)%Q) by (by rewrite <- Zle_Qle).
  assert (H : Qle_bool (number_value (expire_at x)) (inject_Z now) = true).
  { apply Qle_bool_iff. by apply Qle_trans with (inject_Z now'). }
  congruence.
Qed.

(** X16. [process_expired_messages] leaves nothing to do: run again at the
    same or an earlier time on the heap it leaves, with whatever outcome of
    the submissions, it pops nothing, submits nothing, logs nothing and
    leaves the heap as it is. *)
Theorem processed_heap_is_settled (submit submit' : heap_entry -> option string)
    (now now' : Z) (heap : list heap_entry) :
  is_heap entry_lt heap ->
  (now' <= now)%Z ->
  let heap' := (process_expired_messages submit now heap).1.1 in
  process_expired_messages submit' now' heap' = (heap', [], []).
Proof.
  intros Hheap Hle. unfold process_expired_messages at 2.
  destruct (process_loop_spec submit now (length heap) heap Hheap (le_n _))
    as (heap' & popped & t & Hrun & _ & _ & Hnot & _ & _ & _).
  unfold process_expired_messages. rewrite Hrun. cbn [fst].
  destruct heap' as [|top rest]; [done|].
  cbn [length process_loop lookup list_lookup].
  apply Forall_cons in Hnot as [Htop _].
  by rewrite (expired_mono now now' top Hle Htop).
Qed.

Lemma processed_heap_is_settled_witness :
  let e100 := HeapEntry (NInt 100) "aa" "11" "7" in
  let e200 := HeapEntry (NInt 200) "bb" "22" "7" in
  let e300 := HeapEntry (NInt 300) "cc" "33" "7" in
  let heap' := (process_expired_messages (fun _ => None) 250 [e100; e300; e200]).1.1 in
  process_expired_messages (fun _ => Some "RuntimeError") 250 heap' = (heap', [], []).
Proof.
  intros e100 e200 e300.
  apply (processed_heap_is_settled (fun _ => None) (fun _ => Some "RuntimeError")
           250 250 [e100; e300; e200]).
  - intros i j a b [-> | ->] Ha Hb;
      destruct i as [|[|[|i]]]; cbn in Ha, Hb; try discriminate;
      injection Ha as <-; injection Hb as <-; reflexivity.
  - reflexivity.
Defined.

(** *** Populating the queue from the datastore *)

Lemma queue_entry_of_cases (message : stored_message) :
  (complete message = false /\ queue_entry_of message = None)
  \/ (complete message = true /\ sm_Id message = None
      /\ breaks_populate message = true)
  \/ (exists id d c,
        complete message = true /\ sm_Id message = Some id
        /\ sm_Discord_id message = Some d /\ sm_channelId message = Some c
        /\ queue_entry_of message
           = Some (QueueEntry (sm_Expire_Timestamp message) id d c)).
Proof.
  unfold queue_entry_of, breaks_populate.
  destruct (complete message) eqn:Hc; [|by left]. right.
  destruct (sm_Id message) as [id|]; [right|by left].
  unfold complete in Hc.
  destruct (sm_Discord_id message) as [d|]; [|by rewrite andb_false_r in Hc].
  destruct (sm_channelId message) as [c|]; [|by rewrite andb_false_r in Hc].
  by exists id, d, c.
Qed.

Lemma omap_cons {A B} (f : A -> option B) (x : A) (l : list A) :
  omap f (x :: l) = option_list (f x) ++ omap f l.
Proof. cbn. by destruct (f x). Qed.

Lemma populate_loop_complete (messages : list stored_message) :
  Forall (fun message => breaks_populate message = false) messages ->
  (populate_loop messages).1.1 = omap queue_entry_of messages
  /\ (populate_loop messages).2 = None.
Proof.
  induction 1 as [|message messages Hm _ IH]; [done|].
  cbn [populate_loop]. rewrite omap_cons.
  destruct (populate_loop messages) as [[queue t] exc]. cbn [fst snd] in IH.
  destruct IH as [-> ->].
  destruct (queue_entry_of_cases message)
    as [[Hc ->] | [(_ & _ & Hb) | (id & d & c & Hc & Hid & Hd & Hch & ->)]].
  - by rewrite Hc.
  - congruence.
  - by rewrite Hc, Hid, Hd, Hch.
Qed.

Lemma omap_queue_then_heap (messages : list stored_message) :
  omap heap_entry_of (omap queue_entry_of messages)
  = omap (fun message => queue_entry_of message ≫= heap_entry_of) messages.
Proof.
  induction messages as [|message messages IH]; [done|].
  rewrite !omap_cons, omap_app, IH. f_equal.
  destruct (queue_entry_of message) as [entry|]; [|done].
  cbn. by destruct (heap_entry_of entry).
Qed.



Lemma populate_loop_breaks (pre post : list stored_message) (message : stored_message) :
  Forall (fun message => breaks_populate message = false) pre ->
  breaks_populate message = true ->
  (populate_loop (pre ++ message :: post)).1.1 = omap queue_entry_of pre
  /\ (populate_loop (pre ++ message :: post)).2 = Some "KeyError"%string.
Proof.
  intros Hpre Hbreak. induction Hpre as [|m pre Hm _ IH].
  - cbn [app populate_loop].
    destruct (queue_entry_of_cases message)
      as [[Hc _] | [(Hc & Hid & _) | (id & d & c & Hc & Hid & _)]].
    + unfold breaks_populate in Hbreak. by rewrite Hc in Hbreak.
    + by rewrite Hc, Hid.
    + unfold breaks_populate in Hbreak. rewrite Hc, Hid in Hbreak.
      rewrite bool_decide_eq_true_2 in Hbreak by done. done.
  - cbn [app populate_loop]. rewrite omap_cons.
    destruct (populate_loop (pre ++ message :: post)) as [[queue t] exc].
    cbn [fst snd] in IH. destruct IH as [-> ->].
    destruct (queue_entry_of_cases m)
      as [[Hc ->] | [(_ & _ & Hb) | (id & d & c & Hc & Hid & Hd & Hch & ->)]].
    + by rewrite Hc.
    + congruence.
    + by rewrite Hc, Hid, Hd, Hch.
Qed.

(** X18. One document without ["Id"] ends the population.  At the first
    complete document that lacks the key ["Id"], the [KeyError] leaves the
    loop: the documents before it are queued as usual, the error is the last
    line logged, and no document after it is queued, however complete. *)
Theorem populate_stops_at_missing_id (pre post : list stored_message)
    (message : stored_message) :
  Forall (fun message => breaks_populate message = false) pre ->
  breaks_populate message = true ->
  let '(queue, t) :=
    populate_refetch_queue_from_datastore (Some (pre ++ message :: post)) in
  queue = omap queue_entry_of pre
  /\ last t = Some (LogPopulateError "KeyError").
Proof.
  intros Hpre Hbreak. unfold populate_refetch_queue_from_datastore.
  destruct (populate_loop_breaks pre post message Hpre Hbreak) as [Hqueue Hexc].
  destruct (populate_loop (pre ++ message :: post)) as [[queue t] exc].
  cbn [fst snd] in *. subst. split; [done|].
  rewrite app_assoc. apply last_snoc.
Qed.

Lemma populate_stops_at_missing_id_witness :
  let dated := StoredMessage (Some "aa") (PyNum (NInt 1731557880)) (Some "11") (Some "7") in
  let nameless := StoredMessage None (PyNum (NInt 1731557881)) (Some "22") (Some "7") in
  let late := StoredMessage (Some "cc") (PyNum (NInt 1731557882)) (Some "33") (Some "7") in
  let '(queue, t) :=
    populate_refetch_queue_from_datastore (Some ([dated] ++ nameless :: [late])) in
  queue = omap queue_entry_of [dated]
  /\ last t = Some (LogPopulateError "KeyError").
Proof.
  intros dated nameless late.
  apply (populate_stops_at_missing_id [dated] [late] nameless).
  - repeat constructor.
  - reflexivity.
Defined.

(** *** The five quiet minutes of [start] *)

Lemma take_arrivals_spec (arrivals : list (queue_entry * Q)) :
  forall sch : scheduler,
    let '(sch', t) := take_arrivals arrivals sch in
    refetch_heap sch' ≡ₚ omap heap_entry_of arrivals.*1 ++ refetch_heap sch
    /\ submitted t = []
    /\ last_message_time sch'
       = match last arrivals with
         | Some (_, seen_at) => seen_at
         | None => last_message_time sch
         end.
Proof.
  induction arrivals as [|[entry seen_at] arrivals IH]; intros sch; [done|].
  cbn [take_arrivals].
  destruct (enqueue_spec entry (refetch_heap sch)) as (heap1 & t1 & -> & Hperm & Ht1 & _).
  specialize (IH (Scheduler heap1 seen_at true)).
  destruct (take_arrivals arrivals (Scheduler heap1 seen_at true)) as [sch2 t2].
  cbn [refetch_heap last_message_time] in IH. destruct IH as (Hperm2 & Hsub2 & Hlast2).
  split_and!.
  - rewrite Hperm2, Hperm, fmap_cons, omap_cons. cbn [fst].
    rewrite <- app_assoc. apply Permutation_app_swap_app.
  - unfold submitted in *. rewrite omap_app, Hsub2, Ht1. unfold invalid_log_of.
    by destruct (is_int_or_float _).
  - rewrite Hlast2. destruct arrivals as [|a arrivals']; [done|].
    cbn [last]. by destruct (last (a :: arrivals')) as [[]|] eqn:Hl;
      [|apply last_None in Hl].
Qed.

Lemma start_cycle_gate_closed (submit : heap_entry -> option string) (check_interval : Z)
    (cycle : list (queue_entry * Q) * Q * Z) (sch : scheduler) :
  gate_closed cycle ->
  let '(sch', t) := start_cycle submit check_interval cycle.1.1 cycle.1.2 cycle.2 sch in
  refetch_heap sch' ≡ₚ omap heap_entry_of cycle.1.1.*1 ++ refetch_heap sch
  /\ cycle_submitted t = [].
Proof.
  destruct cycle as [[arrivals checked_at] now]. unfold gate_closed. cbn [fst snd].
  intros Hgate. unfold start_cycle.
  pose proof (take_arrivals_spec arrivals sch) as Hspec.
  destruct (take_arrivals arrivals sch) as [sch1 t1].
  destruct Hspec as (Hperm & Hsub & Hlast).
  destruct (last arrivals) as [[entry seen_at]|]; [|done].
  destruct (Qlt_le_dec (last_message_time sch1 + 300) checked_at) as [Hlt|_].
  { rewrite Hlast in Hlt. by apply Qlt_not_le in Hlt. }
  cbn [refetch_heap]. split; [done|].
  unfold cycle_submitted. rewrite !omap_app.
  assert (Hproc : forall l : list event,
             omap (fun e => match e with Processing ev => Some ev | _ => None end)
                  (Processing <$> l) = l).
  { induction l as [|x l IHl]; [done|]. cbn. by rewrite IHl. }
  rewrite !Hproc. cbn [fmap list_fmap omap app].
  unfold submitted in *. rewrite !omap_app, Hsub. cbn.
  destruct (print_sleeping sch1); cbn; [|done].
  by destruct (refetch_heap sch1 !! 0).
Qed.

(** X19. Steady arrivals starve the re-fetches.  Over any number of turns of
    [start] in each of which an entry arrives and the test of the five
    minutes is made no later than 300 seconds after the last arrival, no
    re-fetch is submitted, whatever the time and however long the entries
    have expired: all numeric entries received are still in the heap, with
    what the heap held before. *)
Theorem steady_arrivals_starve_refetches (submit : heap_entry -> option string)
    (check_interval : Z) (cycles : list (list (queue_entry * Q) * Q * Z))
    (sch : scheduler) :
  Forall gate_closed cycles ->
  let '(sch', t) := start_run submit check_interval cycles sch in
  cycle_submitted t = []
  /\ refetch_heap sch'
     ≡ₚ omap heap_entry_of (cycles ≫= fun cycle => cycle.1.1.*1) ++ refetch_heap sch.
Proof.
  intros Hgates. revert sch.
  induction Hgates as [|cycle cycles Hgate _ IH]; intros sch; [done|].
  pose proof (start_cycle_gate_closed submit check_interval cycle sch Hgate) as H1.
  destruct cycle as [[arrivals checked_at] now]. cbn [start_run fst snd] in *.
  destruct (start_cycle submit check_interval arrivals checked_at now sch) as [sch1 t1].
  destruct H1 as [Hperm1 Hsub1]. specialize (IH sch1).
  destruct (start_run submit check_interval cycles sch1) as [sch2 t2].
  destruct IH as [Hsub2 Hperm2]. split.
  - unfold cycle_submitted, submitted in *. rewrite !omap_app, Hsub1. exact Hsub2.
  - rewrite Hperm2, Hperm1. cbn [mbind list_bind]. rewrite omap_app.
    rewrite <- !app_assoc. apply Permutation_app_swap_app.
Qed.

Lemma steady_arrivals_starve_refetches_witness :
  let overdue := QueueEntry (PyNum (NInt 100)) "aa" "11" "7" in
  let cycles := [([(overdue, 1000%Q)], 1060%Q, 1060%Z); ([(overdue, 1100%Q)], 1400%Q, 1400%Z)] in
  let '(sch', t) := start_run (fun _ => None) 60 cycles (Scheduler [] 0 true) in
  cycle_submitted t = []
  /\ refetch_heap sch'
     ≡ₚ omap heap_entry_of (cycles ≫= fun cycle => cycle.1.1.*1) ++ [].
Proof.
  intros overdue cycles.
  apply (steady_arrivals_starve_refetches (fun _ => None) 60 cycles (Scheduler [] 0 true)).
  repeat constructor; vm_compute; discriminate.
Defined.

End SchedulerRunFacts.

(** ** The bot's handling of a message ([trim_attachment_url],
    [get_expiration_timestamp], [build_message_data], [process_message]) *)

Module MessageFacts.
Import DiscordBotHandler BotFacts.
Local Open Scope nat_scope.

(** *** Where the URL is cut *)

Lemma starts_with_app (needle l : pystr) :
  starts_with needle l = true -> l = needle ++ drop (length needle) l.
Proof.
  revert l. induction needle as [|a needle IH]; intros l H; [done|].
  destruct l as [|b l]; [done|]. cbn in H.
  apply andb_true_iff in H as [Hab H]. apply Z.eqb_eq in Hab as ->.
  cbn. f_equal. by apply IH.
Qed.

Lemma str_contains_drop (needle l : pystr) (n : nat) :
  str_contains needle l = false -> str_contains needle (drop n l) = false.
Proof.
  revert l. induction n as [|n IH]; intros l H; [by rewrite drop_0|].
  destruct l as [|c l]; [done|]. cbn [drop].
  apply IH. cbn [str_contains] in H. by apply orb_false_elim in H as [_ H].
Qed.

Lemma str_contains_split (l : pystr) :
  str_contains ex_marker l = true ->
  exists base rest, l = base ++ ex_marker ++ rest /\ str_contains ex_marker rest = false.
Proof.
  induction l as [|c l IH]; [done|].
  destruct (str_contains ex_marker l) eqn:Htail.
  - intros _. destruct (IH eq_refl) as (base & rest & -> & Hrest).
    by exists (c :: base), rest.
  - cbn [str_contains]. rewrite Htail, orb_false_r. intros Hhead.
    exists [], (drop (length ex_marker) (c :: l)). split.
    + by apply starts_with_app.
    + change (drop (length ex_marker) (c :: l)) with (drop 3 l).
      by apply str_contains_drop.
Qed.

Lemma starts_with_marker_head (c : Z) (l : pystr) :
  c <> 63%Z -> starts_with ex_marker (c :: l) = false.
Proof.
  intros Hne.
  change (starts_with ex_marker (c :: l)) with ((63 =? c)%Z && starts_with ex_param l).
  by rewrite (proj2 (Z.eqb_neq 63 c)) by done.
Qed.

Lemma no_question_mark_no_marker (l : pystr) :
  63%Z ∉ l -> str_contains ex_marker l = false.
Proof.
  induction l as [|c l IH]; [done|]. intros Hl.
  apply not_elem_of_cons in Hl as [Hne Hl].
  cbn [str_contains]. rewrite IH by done. rewrite orb_false_r.
  by apply starts_with_marker_head.
Qed.

(** X20. [trim_attachment_url] cuts at the last ["?ex="] and nowhere else:
    a URL without the marker is returned whole, and any other URL is the
    result, followed by the marker, followed by a rest that does not contain
    the marker. *)
Theorem trim_splits_at_last_marker (URL : pystr) :
  (str_contains ex_marker URL = false /\ trim_attachment_url URL = URL)
  \/ (exists rest,
        URL = trim_attachment_url URL ++ ex_marker ++ rest
        /\ str_contains ex_marker rest = false).
Proof.
  destruct (str_contains ex_marker URL) eqn:Hc.
  - right. destruct (str_contains_split URL Hc) as (base & rest & -> & Hrest).
    exists rest. by rewrite trim_attachment_url_marker.
  - left. split; [done|]. unfold trim_attachment_url. by rewrite Hc.
Qed.

(** *** The expiry read from the URL *)

Lemma str_split_nonempty (sep : Z) (l : pystr) :
  exists piece pieces, str_split sep l = piece :: pieces.
Proof.
  induction l as [|c l (piece & pieces & IH)]; [by eexists _, _|].
  cbn [str_split]. destruct (c =? sep)%Z; [by eexists _, _|].
  rewrite IH. by eexists _, _.
Qed.

Lemma str_split_whole (sep : Z) (l : pystr) :
  sep ∉ l -> str_split sep l = [l].
Proof.
  induction l as [|c l IH]; [done|]. intros Hsep.
  apply not_elem_of_cons in Hsep as [Hne Hsep].
  cbn [str_split]. rewrite (proj2 (Z.eqb_neq c sep)) by done.
  by rewrite IH.
Qed.

Lemma str_split_app (sep : Z) (a b : pystr) :
  sep ∉ a -> str_split sep (a ++ sep :: b) = a :: str_split sep b.
Proof.
  induction a as [|c a IH]; intros Hsep.
  - cbn. by rewrite Z.eqb_refl.
  - apply not_elem_of_cons in Hsep as [Hne Hsep].
    cbn [app str_split]. rewrite (proj2 (Z.eqb_neq c sep)) by done.
    by rewrite IH.
Qed.

Lemma last_str_split (sep : Z) (base query : pystr) :
  sep ∉ query -> List.last (str_split sep (base ++ sep :: query)) [] = query.
Proof.
  intros Hsep. induction base as [|c base IH].
  - cbn [app str_split]. rewrite Z.eqb_refl, str_split_whole by done. done.
  - cbn [app str_split].
    destruct (str_split_nonempty sep (base ++ sep :: query)) as (piece & pieces & Hs).
    rewrite Hs in *. destruct (c =? sep)%Z; [done|].
    destruct pieces; [|done].
    cbn in IH. subst piece.
    assert (Hlen : length (str_split sep (base ++ sep :: query)) = 1) by (by rewrite Hs).
    assert (Hin : sep ∈ base ++ sep :: query) by set_solver.
    clear -Hlen Hin. exfalso.
    induction (base ++ sep :: query) as [|d l IHl]; [by apply elem_of_nil in Hin|].
    cbn [str_split] in Hlen. destruct (Z.eqb_spec d sep) as [->|Hne].
    + destruct (str_split_nonempty sep l) as (p & ps & Hp). by rewrite Hp in Hlen.
    + apply elem_of_cons in Hin as [->|Hin]; [done|].
      destruct (str_split_nonempty sep l) as (p & ps & Hp).
      rewrite Hp in *. cbn in Hlen. apply IHl; [|done]. cbn. lia.
Qed.

Lemma starts_with_ex_param (rest : pystr) : starts_with ex_param (ex_param ++ rest) = true.
Proof. reflexivity. Qed.

Lemma get_expiration_of_query (int16 : pystr -> option Z) (base hex tail : pystr) :
  63%Z ∉ hex ++ tail -> 38%Z ∉ hex -> 61%Z ∉ hex ->
  tail = [] \/ (exists tail', tail = 38%Z :: tail') ->
  get_expiration_timestamp int16 (base ++ 63%Z :: ex_param ++ hex ++ tail)
  = Returns (int16 hex).
Proof.
  intros H63 H38 H61 Htail. unfold get_expiration_timestamp.
  rewrite last_str_split
    by (change (63%Z ∉ [101; 120; 61]%Z ++ hex ++ tail); set_solver).
  assert (Hfirst : exists pieces,
             str_split 38 (ex_param ++ hex ++ tail) = (ex_param ++ hex) :: pieces).
  { assert (Hno : 38%Z ∉ ex_param ++ hex)
      by (change (38%Z ∉ [101; 120; 61]%Z ++ hex); set_solver).
    destruct Htail as [->|[tail' ->]].
    - rewrite app_nil_r, str_split_whole by done. by eexists.
    - rewrite app_assoc, str_split_app by done. by eexists. }
  destruct Hfirst as [pieces ->]. cbn [List.find].
  rewrite starts_with_ex_param.
  change (ex_param ++ hex) with ([101; 120]%Z ++ 61%Z :: hex).
  rewrite str_split_app by set_solver. rewrite str_split_whole by done. done.
Qed.

(** X21. [get_expiration_timestamp] never raises: the [ValueError] of
    [int(., 16)] is caught, and the index [1] it takes in
    [param.split('=')] always exists, because it is only taken for a
    parameter that starts with ["ex="]. *)
Theorem get_expiration_timestamp_returns (int16 : pystr -> option Z) (url : pystr) :
  exists expire, get_expiration_timestamp int16 url = Returns expire.
Proof.
  unfold get_expiration_timestamp.
  destruct (List.find _ _) as [param|] eqn:Hfind; [|by eexists].
  apply List.find_some in Hfind as [_ Hstart].
  apply starts_with_app in Hstart. rewrite Hstart.
  change (ex_param ++ ?r) with ([101; 120]%Z ++ 61%Z :: r).
  rewrite str_split_app by set_solver.
  destruct (str_split_nonempty 61 (drop (length ex_param) param)) as (p & ps & ->).
  by eexists.
Qed.

(** X22. On a signed attachment URL the two readers of the marker agree.
    For [base ?ex=hex tail], where [hex] holds none of [?], [&], [=], and
    [tail] is empty or starts with [&] and holds no [?], the expiry is
    [int(hex, 16)] ([None] when that is not a number) and the URL is trimmed
    to [base], so that the id does not depend on [hex] and [tail]. *)
Theorem signed_url_expiry_and_trim (int16 : pystr -> option Z) (base hex tail : pystr) :
  63%Z ∉ hex ++ tail -> 38%Z ∉ hex -> 61%Z ∉ hex ->
  tail = [] \/ (exists tail', tail = 38%Z :: tail') ->
  let url := base ++ ex_marker ++ hex ++ tail in
  get_expiration_timestamp int16 url = Returns (int16 hex)
  /\ trim_attachment_url url = base.
Proof.
  intros H63 H38 H61 Htail url. split.
  - by apply get_expiration_of_query.
  - by apply trim_attachment_url_marker, no_question_mark_no_marker.
Qed.

Lemma signed_url_expiry_and_trim_witness :
  let int16 := fun s : pystr =>
    if bool_decide (s = pystr_of_string "67357a78") then Some 1731558008%Z else None in
  let url := pystr_of_string "https://h/a.mp4" ++ ex_marker
             ++ pystr_of_string "67357a78" ++ pystr_of_string "&is=673428f8&hm=22eb&" in
  get_expiration_timestamp int16 url = Returns (int16 (pystr_of_string "67357a78"))
  /\ trim_attachment_url url = pystr_of_string "https://h/a.mp4".
Proof.
  intros int16 url.
  apply (signed_url_expiry_and_trim int16 (pystr_of_string "https://h/a.mp4")
           (pystr_of_string "67357a78") (pystr_of_string "&is=673428f8&hm=22eb&")).
  - apply (bool_decide_unpack _). vm_compute. exact I.
  - apply (bool_decide_unpack _). vm_compute. exact I.
  - apply (bool_decide_unpack _). vm_compute. exact I.
  - right. by eexists.
Defined.

Lemma starts_with_param_app (first rest : pystr) :
  starts_with ex_param first = false ->
  starts_with ex_param (first ++ 38%Z :: rest) = false.
Proof.
  change ex_param with [101; 120; 61]%Z.
  destruct first as [|a [|b [|c first]]]; cbn [starts_with app]; intros H.
  - reflexivity.
  - destruct (101 =? a)%Z; reflexivity.
  - destruct (101 =? a)%Z; [|reflexivity]. destruct (120 =? b)%Z; reflexivity.
  - exact H.
Qed.

(** X23. When [ex] is not the first parameter of the query the two readers
    disagree: for [base ? first &ex=hex], with no [?] in [base] and none of
    [?], [&] in [first] and [hex], and no [=] in [hex], a [first] that does
    not start with ["ex="] leaves the URL untrimmed, so that the id is
    computed from the whole URL, [hex] included, while the expiry is still
    read as [int(hex, 16)]. *)
Theorem unsigned_prefix_defeats_trim (int16 : pystr -> option Z) (base first hex : pystr) :
  63%Z ∉ base -> 63%Z ∉ first -> 38%Z ∉ first -> starts_with ex_param first = false ->
  63%Z ∉ hex -> 38%Z ∉ hex -> 61%Z ∉ hex ->
  let url := base ++ 63%Z :: first ++ 38%Z :: ex_param ++ hex in
  trim_attachment_url url = url
  /\ get_expiration_timestamp int16 url = Returns (int16 hex).
Proof.
  intros Hb Hf63 Hf38 Hfirst Hh63 Hh38 Hh61 url. split.
  - unfold trim_attachment_url.
    pose proof no_question_mark_no_marker as Hno.
    assert (Hq : str_contains ex_marker (63%Z :: first ++ 38%Z :: ex_param ++ hex) = false).
    { cbn [str_contains]. rewrite Hno
        by (change (63%Z ∉ first ++ 38%Z :: [101; 120; 61]%Z ++ hex); set_solver).
      rewrite orb_false_r.
      change (starts_with ex_marker (63%Z :: ?l)) with ((63 =? 63)%Z && starts_with ex_param l).
      rewrite Z.eqb_refl. by apply starts_with_param_app. }
    assert (Hall : str_contains ex_marker url = false).
    { unfold url. clear -Hb Hq. induction base as [|c base IH]; [done|].
      apply not_elem_of_cons in Hb as [Hne Hb].
      cbn [app str_contains]. rewrite IH by done. rewrite orb_false_r.
      by apply starts_with_marker_head. }
    by rewrite Hall.
  - unfold url, get_expiration_timestamp.
    rewrite last_str_split
      by (change (63%Z ∉ first ++ 38%Z :: [101; 120; 61]%Z ++ hex); set_solver).
    rewrite str_split_app by done. cbn [List.find]. rewrite Hfirst.
    rewrite str_split_whole
      by (change (38%Z ∉ [101; 120; 61]%Z ++ hex); set_solver).
    cbn [List.find]. rewrite starts_with_ex_param.
    change (ex_param ++ hex) with ([101; 120]%Z ++ 61%Z :: hex).
    rewrite str_split_app by set_solver. rewrite str_split_whole by done. done.
Qed.

Lemma unsigned_prefix_defeats_trim_witness :
  let int16 := fun s : pystr =>
    if bool_decide (s = pystr_of_string "67357a78") then Some 1731558008%Z else None in
  let url := pystr_of_string "https://h/a.mp4" ++ 63%Z :: pystr_of_string "is=673428f8"
             ++ 38%Z :: ex_param ++ pystr_of_string "67357a78" in
  trim_attachment_url url = url
  /\ get_expiration_timestamp int16 url = Returns (int16 (pystr_of_string "67357a78")).
Proof.
  intros int16 url.
  apply (unsigned_prefix_defeats_trim int16 (pystr_of_string "https://h/a.mp4")
           (pystr_of_string "is=673428f8") (pystr_of_string "67357a78")).
  all: apply (bool_decide_unpack _); vm_compute; exact I.
Defined.

(** *** The stored file name *)

Lemma str_remove_plain (stem : pystr) :
  str_contains mp4 stem = false ->
  str_remove mp4 0 (stem ++ mp4) = stem.
Proof.
  induction stem as [|c stem IH]; [done|].
  intros Hno. cbn [str_contains] in Hno.
  apply orb_false_elim in Hno as [Hhead Htail].
  cbn [app str_remove].
  assert (Hstart : starts_with mp4 (c :: stem ++ mp4) = false).
  { destruct stem as [|c1 [|c2 [|c3 [|c4 stem]]]];
      cbn in Hhead |- *;
      repeat match goal with
             | |- context [(?a =? ?b)%Z] => destruct (Z.eqb_spec a b); subst; cbn; try done
             end. }
  rewrite Hstart. f_equal. by apply IH.
Qed.

(** X24. The file name stored for an ordinary video is its stem: for a name
    [stem.mp4] whose [stem] does not contain [".mp4"],
    [build_message_data] stores [stem] as ["Filename"], together with the id
    it was given and the attachment's own URL. *)
Theorem stored_filename_is_the_stem (int16 : pystr -> option Z) (message : discord_message)
    (message_id : string) (url stem : pystr) (data : message_record) :
  str_contains mp4 stem = false ->
  build_message_data int16 message message_id (Attachment url (stem ++ mp4)) = Returns data ->
  rec_Filename data = stem /\ rec_Id data = message_id /\ rec_Attachment_URL data = url.
Proof.
  intros Hstem. unfold build_message_data.
  destruct (msg_guild_id message); [|done].
  destruct (get_expiration_timestamp int16 _); [|done].
  intros [= <-]. cbn. by rewrite str_remove_plain.
Qed.

Lemma stored_filename_is_the_stem_witness :
  let message :=
    DiscordMessage (pystr_of_string "1291615821864501260") (pystr_of_string "2")
      (Some (pystr_of_string "1")) (pystr_of_string "alice") (pystr_of_string "alice")
      (pystr_of_string "42") None (pystr_of_string "2024-11-13 04:05:06+00:00")
      1731470706 (pystr_of_string "clip") [] in
  let url := pystr_of_string "https://h/a.mp4?ex=67357a78&is=673428f8" in
  exists data,
    build_message_data (fun _ => Some 1731558008%Z) message "0a1b2c3d"
      (Attachment url (pystr_of_string "my.clip" ++ mp4)) = Returns data
    /\ rec_Filename data = pystr_of_string "my.clip"
    /\ rec_Id data = "0a1b2c3d"%string /\ rec_Attachment_URL data = url.
Proof.
  intros message url. eexists. split; [reflexivity|].
  apply (stored_filename_is_the_stem (fun _ => Some 1731558008%Z) message "0a1b2c3d" url
           (pystr_of_string "my.clip")); reflexivity.
Defined.

(** *** The two queues *)

Lemma process_attachments_puts (int16 : pystr -> option Z) (message : discord_message)
    (attachments : list attachment) :
  (process_attachments int16 message attachments).2 = Returns tt ->
  thumbnail_puts (process_attachments int16 message attachments).1
  = omap (video_of message) attachments
  /\ (fun du => (rec_Id du.1, rec_Attachment_URL du.1))
       <$> message_puts (process_attachments int16 message attachments).1
     = omap (video_of message) attachments
  /\ Forall (fun du => du.2 = UserRecord (msg_author_name message) (msg_avatar_url message))
            (message_puts (process_attachments int16 message attachments).1).
Proof.
  induction attachments as [|a attachments IH]; [done|].
  rewrite !SchedulerRunFacts.omap_cons. cbn [process_attachments].
  destruct (attachment_uuid _ _ (att_url a)) as [uuid|exc] eqn:Hu; [|done].
  destruct (str_contains mp4 (att_url a)) eqn:Hc; cbn [negb].
  2: { assert (Hv : video_of message a = None) by (unfold video_of; by rewrite Hc).
       rewrite Hv. exact IH. }
  assert (Hv : video_of message a = Some (uuid, att_url a))
    by (unfold video_of; by rewrite Hc, Hu).
  rewrite Hv.
  destruct (build_message_data int16 message uuid a) as [data|exc] eqn:Hdata; [|done].
  destruct (process_attachments int16 message attachments) as [t r].
  cbn [fst snd] in *. intros Hr. destruct (IH Hr) as (IH1 & IH2 & IH3).
  assert (Hd : rec_Id data = uuid /\ rec_Attachment_URL data = att_url a).
  { unfold build_message_data in Hdata. destruct (msg_guild_id message); [|done].
    destruct (get_expiration_timestamp int16 _); [|done]. by injection Hdata as <-. }
  destruct Hd as [Hid Hurl].
  unfold thumbnail_puts, message_puts in *. cbn. rewrite IH1, IH2, Hid, Hurl.
  split_and!; try done. by constructor.
Qed.

(** X25. The two queues are filled in step.  When [process_message]
    returns, the thumbnail queue and the message queue have received, in the
    order of the attachments, one entry each for exactly the attachments
    whose URL contains [".mp4"]: the same id and the same URL on both, the id
    being the digest of the author id, the creation time and the trimmed URL;
    and every message entry comes with the same poster record. *)
Theorem process_message_fills_both_queues (int16 : pystr -> option Z)
    (message : discord_message) :
  (process_message int16 message).2 = Returns tt ->
  let t := (process_message int16 message).1 in
  thumbnail_puts t = omap (video_of message) (msg_attachments message)
  /\ (fun du => (rec_Id du.1, rec_Attachment_URL du.1)) <$> message_puts t = thumbnail_puts t
  /\ Forall (fun du => du.2 = UserRecord (msg_author_name message) (msg_avatar_url message))
            (message_puts t).
Proof.
  unfold process_message.
  pose proof (process_attachments_puts int16 message (msg_attachments message)) as H.
  destruct (process_attachments int16 message (msg_attachments message)) as [t r].
  cbn [fst snd] in *. intros Hr. destruct (H Hr) as (H1 & H2 & H3). cbv zeta.
  unfold thumbnail_puts, message_puts in *.
  rewrite !SchedulerRunFacts.omap_cons.
  change (option_list (@None (string * pystr))) with (@nil (string * pystr)).
  change (option_list (@None (message_record * user_record)))
    with (@nil (message_record * user_record)).
  rewrite !app_nil_l. by rewrite H2, H1.
Qed.

Lemma process_message_fills_both_queues_witness :
  let video := Attachment (pystr_of_string "https://h/a.mp4?ex=67357a78&is=673428f8")
                          (pystr_of_string "a.mp4") in
  let image := Attachment (pystr_of_string "https://h/b.png?ex=67357a78") (pystr_of_string "b.png") in
  let message :=
    DiscordMessage (pystr_of_string "1291615821864501260") (pystr_of_string "2")
      (Some (pystr_of_string "1")) (pystr_of_string "alice") (pystr_of_string "alice")
      (pystr_of_string "42") None (pystr_of_string "2024-11-13 04:05:06+00:00")
      1731470706 (pystr_of_string "clip") [image; video] in
  let t := (process_message (fun _ => None) message).1 in
  thumbnail_puts t = omap (video_of message) (msg_attachments message)
  /\ (fun du => (rec_Id du.1, rec_Attachment_URL du.1)) <$> message_puts t = thumbnail_puts t
  /\ Forall (fun du => du.2 = UserRecord (msg_author_name message) (msg_avatar_url message))
            (message_puts t).
Proof.
  intros video image message.
  apply (process_message_fills_both_queues (fun _ => None) message).
  vm_compute. reflexivity.
Defined.

Lemma process_attachments_app (int16 : pystr -> option Z) (message : discord_message)
    (pre rest : list attachment) :
  (process_attachments int16 message pre).2 = Returns tt ->
  process_attachments int16 message (pre ++ rest)
  = ((process_attachments int16 message pre).1 ++ (process_attachments int16 message rest).1,
     (process_attachments int16 message rest).2).
Proof.
  induction pre as [|a pre IH].
  { intros _. cbn [app process_attachments fst].
    by destruct (process_attachments int16 message rest). }
  cbn [app process_attachments].
  destruct (attachment_uuid _ _ (att_url a)) as [uuid|exc]; [|done].
  destruct (str_contains mp4 (att_url a)); cbn [negb]; [|exact IH].
  destruct (build_message_data int16 message uuid a) as [data|exc]; [|done].
  destruct (process_attachments int16 message pre) as [t r]. cbn [fst snd] in *.
  intros Hr. rewrite (IH Hr). done.
Qed.

(** X26. An attachment whose id cannot be computed ends the processing of
    the message, video or not: the id is computed before the test for
    [".mp4"], so when it raises (a lone surrogate in the URL) the exception
    leaves [process_message]; the attachments before it have been queued,
    the attachments after it are not looked at. *)
Theorem process_message_stops_at_bad_attachment (int16 : pystr -> option Z)
    (message : discord_message) (pre post : list attachment) (a : attachment)
    (exc : string) :
  msg_attachments message = pre ++ a :: post ->
  (process_attachments int16 message pre).2 = Returns tt ->
  attachment_uuid (msg_author_id message) (msg_created_at message) (att_url a) = Raises exc ->
  process_message int16 message
  = (LogProcessing (msg_channel_id message) (msg_author_name message)
       :: (process_attachments int16 message pre).1,
     Raises exc).
Proof.
  intros Hatts Hpre Hbad. unfold process_message.
  rewrite Hatts, (process_attachments_app int16 message pre (a :: post) Hpre).
  cbn [process_attachments]. rewrite Hbad. cbn [fst snd]. by rewrite app_nil_r.
Qed.

Lemma process_message_stops_at_bad_attachment_witness :
  let video := Attachment (pystr_of_string "https://h/a.mp4?ex=67357a78&is=673428f8")
                          (pystr_of_string "a.mp4") in
  let broken := Attachment (pystr_of_string "https://h/" ++ [55357%Z]
                            ++ pystr_of_string ".png") (pystr_of_string "b.png") in
  let message :=
    DiscordMessage (pystr_of_string "1291615821864501260") (pystr_of_string "2")
      (Some (pystr_of_string "1")) (pystr_of_string "alice") (pystr_of_string "alice")
      (pystr_of_string "42") None (pystr_of_string "2024-11-13 04:05:06+00:00")
      1731470706 (pystr_of_string "clip") [video; broken; video] in
  process_message (fun _ => None) message
  = (LogProcessing (msg_channel_id message) (msg_author_name message)
       :: (process_attachments (fun _ => None) message [video]).1,
     Raises "UnicodeEncodeError").
Proof.
  intros video broken message.
  apply (process_message_stops_at_bad_attachment (fun _ => None) message
           [video] [video] broken "UnicodeEncodeError").
  - reflexivity.
  - vm_compute. reflexivity.
  - vm_compute. reflexivity.
Defined.

End MessageFacts.

(** ** The names of the uploaded thumbnails ([get_all_uuids]) *)

Module UploaderFacts.
Import ThumbnailGenerator TaskFacts.

Lemma list_ascii_of_string_app (s1 s2 : string) :
  String.list_ascii_of_string (s1 +:+ s2)
  = String.list_ascii_of_string s1 ++ String.list_ascii_of_string s2.
Proof.
  induction s1 as [|c s1 IH]; [done|].
  change (String c s1 +:+ s2) with (String c (s1 +:+ s2)).
  cbn [String.list_ascii_of_string app]. by rewrite IH.
Qed.

Lemma before_last_dot_none (name : list ascii) :
  "."%char ∉ name -> before_last_dot name = None.
Proof.
  induction name as [|c name IH]; [done|]. intros Hdot.
  apply not_elem_of_cons in Hdot as [Hne Hdot].
  cbn [before_last_dot]. rewrite IH by done.
  destruct (Ascii.eqb_spec c "."); [by subst|done].
Qed.

Lemma before_last_dot_app (stem ext : list ascii) :
  "."%char ∉ ext -> before_last_dot (stem ++ "."%char :: ext) = Some stem.
Proof.
  intros Hdot. induction stem as [|c stem IH].
  - cbn [app before_last_dot]. by rewrite before_last_dot_none.
  - cbn [app before_last_dot]. by rewrite IH.
Qed.

(** The name given to a blob is read back as the id, dots in the id
    included, as long as the extension has no dot. *)
Lemma uuid_of_blob_round_trip (fstem fext : string) :
  "."%char ∉ String.list_ascii_of_string fext ->
  uuid_of_blob ("thumb/" +:+ fstem +:+ "." +:+ fext) = fstem.
Proof.
  intros Hdot. unfold uuid_of_blob.
  rewrite !list_ascii_of_string_app.
  change (String.list_ascii_of_string "thumb/") with ["t"; "h"; "u"; "m"; "b"; "/"]%char.
  change (String.list_ascii_of_string ".") with ["."%char].
  cbn [app drop]. rewrite !drop_0, before_last_dot_app by done. cbn [default].
  apply String.string_of_list_ascii_of_string.
Qed.

(** X27. What a task uploads is found again at the next start: the name of
    every blob a task sends to the bucket is read back by [get_all_uuids] as
    the id of the task's video, whatever the id (dots included), so that the
    id is in [uploaded_uuids] after a restart. *)
Theorem uploaded_blob_is_listed_under_the_id (e : env) (v : video) (s : state) :
  Forall (fun ev => match ev with
                    | BucketUpload _ blob => uuid_of_blob blob = video_Id v
                    | _ => True
                    end) (process_video e v s).1.2.
Proof.
  enough (H : hoare (fun _ => True)
                (fun ev => match ev with
                           | BucketUpload _ blob => uuid_of_blob blob = video_Id v
                           | _ => True
                           end)
                (process_video e v) (fun _ _ => True))
    by (by apply H).
  unfold_task.
  hoare_inv ltac:(first [ exact I
                        | apply uuid_of_blob_round_trip; apply (bool_decide_unpack _);
                          vm_compute; exact I
                        | done ]).
Qed.

End UploaderFacts.

(** ** The batch writers of the datastore ([push_batch_msgs], [push_batch_runtimes]) *)

Module DatastoreFacts.
Import DatastoreHandler.

Section Client.

Variable raises : call -> option string.
Variable doc_exists : nat -> bool.

(** The [for] loops only stage: they commit nothing and log no error. *)
Lemma and_then_committed (logged : list event) (staged : list write)
    (rest : list event * pyresult (list write)) :
  committed (and_then logged staged rest).1 = committed logged ++ committed rest.1.
Proof. unfold committed, and_then. cbn [fst]. apply omap_app. Qed.

Lemma stage_messages_quiet (messages : list MessageHandler.message_data) :
  forall i,
    committed (stage_messages raises i messages).1 = []
    /\ forall exc, LogErrorPushingMessages exc ∉ (stage_messages raises i messages).1.
Proof.
  induction messages as [|m ms IH]; intros i; cbn [stage_messages].
  - split; [done|]. intros exc H. inversion H.
  - destruct (IH (S i)) as [IHc IHe].
    destruct (negb (str_truthy (MessageHandler.Id m))).
    + rewrite and_then_committed, IHc. split; [done|].
      intros exc H. cbn in H. apply elem_of_cons in H as [H|H]; [done|by eapply IHe].
    + destruct (raises (CallDocument i)); [split; [done|intros exc H; inversion H]|].
      destruct (raises (CallSet i)); [split; [done|intros exc H; inversion H]|].
      rewrite and_then_committed, IHc. split; [done|]. exact IHe.
Qed.

Lemma stage_messages_staged (messages : list MessageHandler.message_data) :
  forall i staged,
    (stage_messages raises i messages).2 = Returns staged ->
    staged = (fun m => WriteSet (MessageHandler.Id m) m)
               <$> filter (fun m => str_truthy (MessageHandler.Id m) = true) messages.
Proof.
  induction messages as [|m ms IH]; intros i staged; cbn [stage_messages].
  - cbn. by intros [= <-].
  - rewrite filter_cons. destruct (str_truthy (MessageHandler.Id m)) eqn:Hid; cbn [negb].
    + rewrite decide_True by done.
      destruct (raises (CallDocument i)); [done|].
      destruct (raises (CallSet i)); [done|].
      unfold and_then. cbn [snd].
      destruct (stage_messages raises (S i) ms).2 as [staged'|exc] eqn:Hr; [|done].
      intros [= <-]. cbn. f_equal. by eapply IH.
    + rewrite decide_False by done.
      unfold and_then. cbn [snd].
      destruct (stage_messages raises (S i) ms).2 as [staged'|exc] eqn:Hr; [|done].
      intros [= <-]. cbn. by eapply IH.
Qed.

Lemma stage_runtimes_quiet (runtimes : list ThumbnailGenerator.metadata_entry) :
  forall i,
    committed (stage_runtimes raises doc_exists i runtimes).1 = []
    /\ forall exc,
         LogErrorPushingRuntimes exc ∉ (stage_runtimes raises doc_exists i runtimes).1.
Proof.
  induction runtimes as [|r rs IH]; intros i; cbn [stage_runtimes].
  - split; [done|]. intros exc H. inversion H.
  - destruct (IH (S i)) as [IHc IHe].
    assert (Hskip : forall ev, committed [ev] = [] ->
              (forall exc, ev <> LogErrorPushingRuntimes exc) ->
              committed (and_then [ev] [] (stage_runtimes raises doc_exists (S i) rs)).1 = []
              /\ forall exc, LogErrorPushingRuntimes exc
                             ∉ (and_then [ev] [] (stage_runtimes raises doc_exists (S i) rs)).1).
    { intros ev Hc Hne. rewrite and_then_committed, IHc, Hc. split; [done|].
      intros exc H. cbn in H. apply elem_of_cons in H as [H|H]; [by eapply Hne|by eapply IHe]. }
    destruct (ThumbnailGenerator.entry_Id r) as [msg_id|],
             (ThumbnailGenerator.entry_Length r) as [value|];
      try (apply Hskip; done).
    destruct (negb (str_truthy msg_id)); [by apply Hskip|].
    destruct (raises (CallDocument i)); [split; [done|intros exc H; inversion H]|].
    destruct (raises (CallGet i)); [split; [done|intros exc H; inversion H]|].
    destruct (negb (doc_exists i)); [by apply Hskip|].
    destruct (raises (CallUpdate i)); [split; [done|intros exc H; inversion H]|].
    rewrite and_then_committed, IHc. split; [done|]. exact IHe.
Qed.

Lemma committed_app (t1 t2 : list event) :
  committed (t1 ++ t2) = committed t1 ++ committed t2.
Proof. apply omap_app. Qed.


(** *** The Metadata Batcher followed by [push_batch_runtimes] *)

Lemma stage_runtimes_recorded (s : ThumbnailGenerator.state)
    (runtimes : list ThumbnailGenerator.metadata_entry) :
  Forall (ThumbnailGenerator.recorded_entry s) runtimes ->
  forall i,
    (LogSkippingRuntime ∉ (stage_runtimes raises doc_exists i runtimes).1)
    /\ forall writes,
         (stage_runtimes raises doc_exists i runtimes).2 = Returns writes ->
         (forall w, w ∈ writes ->
            exists vid len, w = WriteUpdate vid len
              /\ ThumbnailGenerator.Entry (Some vid) (Some len) ∈ runtimes)
         /\ (forall k entry, runtimes !! k = Some entry -> doc_exists (i + k)%nat = true ->
               exists vid len, entry = ThumbnailGenerator.Entry (Some vid) (Some len)
                 /\ WriteUpdate vid len ∈ writes).
Proof.
  induction 1 as [|r rs Hr Hrs IH]; intros i; cbn [stage_runtimes].
  - split; [intros H; inversion H|]. intros writes [= <-]. split.
    + intros w H. inversion H.
    + intros k entry H. done.
  - destruct Hr as (vid & len & -> & Hvid & _ & _). cbn. rewrite Hvid. cbn [negb].
    destruct (IH (S i)) as [IHs IHw].
    destruct (raises (CallDocument i)); [split; [intros H; inversion H|done]|].
    destruct (raises (CallGet i)); [split; [intros H; inversion H|done]|].
    destruct (doc_exists i) eqn:Hex; cbn [negb].
    + destruct (raises (CallUpdate i)); [split; [intros H; inversion H|done]|].
      unfold and_then. cbn [fst snd app]. split; [exact IHs|].
      intros writes Hret.
      destruct (stage_runtimes raises doc_exists (S i) rs).2 as [staged|] eqn:Hst; [|done].
      injection Hret as <-. destruct (IHw staged eq_refl) as [IH1 IH2]. split.
      * intros w Hw. apply elem_of_cons in Hw as [->|Hw].
        -- exists vid, len. split; [done|]. apply elem_of_cons. by left.
        -- destruct (IH1 w Hw) as (vid' & len' & -> & Hin).
           exists vid', len'. split; [done|]. apply elem_of_cons. by right.
      * intros [|k] entry Hk Hexk.
        -- injection Hk as <-. exists vid, len. split; [done|]. apply elem_of_cons. by left.
        -- cbn in Hk. replace (i + S k)%nat with (S i + k)%nat in Hexk by lia.
           destruct (IH2 k entry Hk Hexk) as (vid' & len' & -> & Hin).
           exists vid', len'. split; [done|]. apply elem_of_cons. by right.
    + unfold and_then. cbn [fst snd app]. split.
      * intros H. apply elem_of_cons in H as [H|H]; [done|by apply IHs].
      * intros writes Hret.
        destruct (stage_runtimes raises doc_exists (S i) rs).2 as [staged|] eqn:Hst; [|done].
        injection Hret as <-. destruct (IHw staged eq_refl) as [IH1 IH2]. split.
        -- intros w Hw. destruct (IH1 w Hw) as (vid' & len' & -> & Hin).
           exists vid', len'. split; [done|]. apply elem_of_cons. by right.
        -- intros [|k] entry Hk Hexk.
           ++ replace (i + 0)%nat with i in Hexk by lia. congruence.
           ++ cbn in Hk. replace (i + S k)%nat with (S i + k)%nat in Hexk by lia.
              exact (IH2 k entry Hk Hexk).
Qed.

Lemma stage_runtimes_ids (runtimes : list ThumbnailGenerator.metadata_entry) :
  forall i writes,
    (stage_runtimes raises doc_exists i runtimes).2 = Returns writes ->
    (Some <$> (write_id <$> writes)) `sublist_of` (ThumbnailGenerator.entry_Id <$> runtimes).
Proof.
  induction runtimes as [|r rs IH]; intros i writes; cbn [stage_runtimes].
  - by intros [= <-].
  - assert (Hskip : forall ev,
              (and_then [ev] [] (stage_runtimes raises doc_exists (S i) rs)).2
              = Returns writes ->
              (Some <$> (write_id <$> writes))
                `sublist_of` (ThumbnailGenerator.entry_Id <$> r :: rs)).
    { intros ev. unfold and_then. cbn [snd app].
      destruct (stage_runtimes raises doc_exists (S i) rs).2 as [staged|] eqn:Hst; [|done].
      intros [= <-]. cbn. apply sublist_cons. by eapply IH. }
    destruct (ThumbnailGenerator.entry_Id r) as [msg_id|] eqn:Hid,
             (ThumbnailGenerator.entry_Length r) as [value|];
      try (apply Hskip; done).
    destruct (negb (str_truthy msg_id)); [by apply Hskip|].
    destruct (raises (CallDocument i)); [done|].
    destruct (raises (CallGet i)); [done|].
    destruct (negb (doc_exists i)); [by apply Hskip|].
    destruct (raises (CallUpdate i)); [done|].
    unfold and_then. cbn [snd app].
    destruct (stage_runtimes raises doc_exists (S i) rs).2 as [staged|] eqn:Hst; [|done].
    intros [= <-]. cbn. rewrite Hid. apply sublist_skip. by eapply IH.
Qed.

(** The trace of [push_batch_runtimes] once [self.db.batch()] has returned. *)
Lemma push_batch_runtimes_shape (runtimes : list ThumbnailGenerator.metadata_entry) :
  runtimes <> [] -> raises CallBatch = None ->
  (push_batch_runtimes raises doc_exists runtimes).2 = Returns tt
  /\ ((exists exc,
         (push_batch_runtimes raises doc_exists runtimes).1
         = LogPushingRuntimes (length runtimes)
             :: (stage_runtimes raises doc_exists 0 runtimes).1
             ++ [LogErrorPushingRuntimes exc])
      \/ (exists writes,
            (stage_runtimes raises doc_exists 0 runtimes).2 = Returns writes
            /\ (push_batch_runtimes raises doc_exists runtimes).1
               = LogPushingRuntimes (length runtimes)
                   :: (stage_runtimes raises doc_exists 0 runtimes).1
                   ++ [Commit writes; LogPushedRuntimes (length runtimes)])).
Proof.
  intros Hne Hb. unfold push_batch_runtimes. destruct runtimes as [|r rs]; [done|].
  rewrite Hb. set (runtimes := r :: rs).
  destruct (stage_runtimes raises doc_exists 0 runtimes) as [t [staged|exc1]].
  - destruct (raises CallCommit) as [exc2|]; cbn [fst snd].
    + split; [done|]. left. by exists exc2.
    + split; [done|]. right. by exists staged.
  - cbn [fst snd]. split; [done|]. left. by exists exc1.
Qed.

Lemma committed_cons_log (ev : event) (t : list event) :
  (forall writes, ev <> Commit writes) -> committed (ev :: t) = committed t.
Proof. intros H. destruct ev; try done. by destruct (H writes). Qed.

Lemma push_batch_runtimes_committed (runtimes : list ThumbnailGenerator.metadata_entry)
    (writes : list write) :
  writes ∈ committed (push_batch_runtimes raises doc_exists runtimes).1 ->
  (stage_runtimes raises doc_exists 0 runtimes).2 = Returns writes.
Proof.
  destruct runtimes as [|r rs]; [cbn; intros H; inversion H|].
  destruct (raises CallBatch) as [exc0|] eqn:Hb.
  { unfold push_batch_runtimes. rewrite Hb. cbn. intros H. inversion H. }
  destruct (push_batch_runtimes_shape (r :: rs)) as [_ [[exc ->]|(ws & Hws & ->)]];
    [done..| |].
  all: rewrite committed_cons_log by done.
  all: rewrite committed_app, (proj1 (stage_runtimes_quiet _ 0)); cbn.
  - intros H. inversion H.
  - intros H. apply list_elem_of_singleton in H. by subst.
Qed.

Lemma push_batch_runtimes_skips (runtimes : list ThumbnailGenerator.metadata_entry) :
  LogSkippingRuntime ∈ (push_batch_runtimes raises doc_exists runtimes).1 ->
  LogSkippingRuntime ∈ (stage_runtimes raises doc_exists 0 runtimes).1.
Proof.
  destruct runtimes as [|r rs].
  { cbn. intros H. by apply list_elem_of_singleton in H. }
  destruct (raises CallBatch) as [exc0|] eqn:Hb.
  { unfold push_batch_runtimes. rewrite Hb. cbn. intros H.
    by apply list_elem_of_singleton in H. }
  destruct (push_batch_runtimes_shape (r :: rs)) as [_ [[exc ->]|(ws & Hws & ->)]];
    [done..| |].
  all: intros H; apply elem_of_cons in H as [H|H]; [done|].
  all: apply elem_of_app in H as [H|H]; [done|].
  - by apply list_elem_of_singleton in H.
  - apply elem_of_cons in H as [H|H]; [done|]. by apply list_elem_of_singleton in H.
Qed.

Lemma push_batch_runtimes_error (runtimes : list ThumbnailGenerator.metadata_entry)
    (exc : string) :
  LogErrorPushingRuntimes exc ∈ (push_batch_runtimes raises doc_exists runtimes).1 ->
  (push_batch_runtimes raises doc_exists runtimes).2 = Returns tt
  /\ committed (push_batch_runtimes raises doc_exists runtimes).1 = [].
Proof.
  destruct runtimes as [|r rs].
  { cbn. intros H. by apply list_elem_of_singleton in H. }
  destruct (raises CallBatch) as [exc0|] eqn:Hb.
  { unfold push_batch_runtimes. rewrite Hb. cbn. intros H.
    by apply list_elem_of_singleton in H. }
  destruct (push_batch_runtimes_shape (r :: rs)) as [Hr [[exc' Ht]|(ws & Hws & Ht)]];
    [done..| |].
  all: rewrite Ht; intros H; split; [exact Hr|].
  - rewrite committed_cons_log by done.
    by rewrite committed_app, (proj1 (stage_runtimes_quiet _ 0)).
  - apply elem_of_cons in H as [H|H]; [done|].
    apply elem_of_app in H as [H|H]; [by apply stage_runtimes_quiet in H|].
    apply elem_of_cons in H as [H|H]; [done|]. by apply list_elem_of_singleton in H.
Qed.

Lemma recorded_entry_lookup (s : ThumbnailGenerator.state)
    (batch : list ThumbnailGenerator.metadata_entry) (vid : string) (len : pyfloat) :
  Forall (ThumbnailGenerator.recorded_entry s) batch ->
  ThumbnailGenerator.Entry (Some vid) (Some len) ∈ batch ->
  str_truthy vid = true /\ float_truthy len = true
  /\ ThumbnailGenerator.video_lengths s !! vid = Some len.
Proof.
  intros Hall Hin. rewrite Forall_forall in Hall.
  destruct (Hall _ Hin) as (vid' & len' & [= -> ->] & ? & ? & ?). done.
Qed.


Lemma flush_due_later (now now' : Q) (b : ThumbnailGenerator.batcher) :
  (now <= now')%Q ->
  ThumbnailGenerator.flush_due now b = true -> ThumbnailGenerator.flush_due now' b = true.
Proof.
  intros Hle. unfold ThumbnailGenerator.flush_due, time_ge.
  rewrite !andb_true_iff, !orb_true_iff, !Qle_bool_iff.
  intros [Hc [Hn|Ht]]; (split; [done|]); [by left|right]. lra.
Qed.

(** X30. What becomes of a batch of durations whose push fails depends on
    where it fails.  For a due flush of a recorded batch: when
    [self.db.batch()] raises, the exception leaves [push_batch_runtimes] and
    [upload_runtime], nothing is committed, the batcher keeps the batch and
    the flag, logs the exception and ends the cycle without its sleep, and
    the flush is due again at every later check, so the batch is pushed
    again.  Otherwise [push_batch_runtimes] returns, the batcher clears the
    batch and sleeps, even when an error was logged inside the [try] and no
    commit completed; as the ids stay recorded in [video_lengths], an entry
    of that batch arriving again later is never put back into a batch, so
    such a batch is not pushed again. *)
Theorem failed_push_is_retried_only_if_it_raises (s : ThumbnailGenerator.state)
    (b : ThumbnailGenerator.batcher) (now : Q) :
  ThumbnailGenerator.batcher_ok b ->
  ThumbnailGenerator.batch_recorded s b ->
  ThumbnailGenerator.flush_due now b = true ->
  let batch := ThumbnailGenerator.new_metadata b in
  let pushed := push_batch_runtimes raises doc_exists batch in
  let write :=
    [ThumbnailGenerator.Log ThumbnailGenerator.INFO
       (ThumbnailGenerator.MsgUploadingBatch (length batch));
     ThumbnailGenerator.PushBatchRuntimes batch] in
  let '(b1, t1, r1) :=
    ThumbnailGenerator.flush_check (upload_runtime raises doc_exists batch) now b in
  match raises CallBatch with
  | Some exc =>
      pushed.2 = Raises exc
      /\ committed pushed.1 = []
      /\ b1 = b
      /\ t1 ++ ThumbnailGenerator.cycle_end r1
         = write ++ [ThumbnailGenerator.Log ThumbnailGenerator.CRITICAL
                       (ThumbnailGenerator.MsgBatchError exc)]
      /\ forall now', (now <= now')%Q -> ThumbnailGenerator.flush_due now' b1 = true
  | None =>
      pushed.2 = Returns tt
      /\ ThumbnailGenerator.new_metadata b1 = []
      /\ ThumbnailGenerator.changes_made b1 = false
      /\ t1 ++ ThumbnailGenerator.cycle_end r1 = write ++ [ThumbnailGenerator.AsyncSleep 1]
      /\ (forall exc, LogErrorPushingRuntimes exc ∈ pushed.1 -> committed pushed.1 = [])
      /\ (forall now', ThumbnailGenerator.flush_due now' b1 = false)
      /\ forall entry s' b' now',
           entry ∈ batch ->
           ThumbnailGenerator.video_lengths s ⊆ ThumbnailGenerator.video_lengths s' ->
           (ThumbnailGenerator.handle_entry now' entry (s', b')).1 = (s', b')
  end.
Proof.
  intros Hok [Hnd Hall] Hdue batch pushed write.
  assert (Hne : batch <> []).
  { apply Hok. unfold ThumbnailGenerator.flush_due in Hdue.
    by apply andb_true_iff in Hdue as [? _]. }
  unfold ThumbnailGenerator.flush_check, upload_runtime. rewrite Hdue.
  fold batch. fold pushed.
  destruct (raises CallBatch) as [exc|] eqn:Hb.
  - assert (Hp : pushed = ([LogPushingRuntimes (length batch)], Raises exc)).
    { unfold pushed, push_batch_runtimes. destruct batch; [done|]. by rewrite Hb. }
    rewrite Hp. cbn. split_and!; try done.
    intros now' Hle. by eapply flush_due_later.
  - destruct (push_batch_runtimes_shape batch Hne Hb) as [Hr _].
    fold pushed in Hr. rewrite Hr. cbn. split_and!; try done.
    + intros exc Herr. by apply push_batch_runtimes_error in Herr as [_ Hc].
    + intros entry s' b' now' Hin Hsub. rewrite Forall_forall in Hall.
      destruct (Hall _ Hin) as (vid & len & -> & Hvid & Hlen & Hrec).
      unfold ThumbnailGenerator.handle_entry. cbn. rewrite Hvid, Hlen. cbn.
      rewrite (lookup_weaken _ _ _ _ Hrec Hsub).
      by destruct (float_ne len len).
Qed.

End Client.


Lemma failed_push_is_retried_only_if_it_raises_witness :
  let a := ThumbnailGenerator.Entry (Some "a") (Some (FFinite 10)) in
  let b := ThumbnailGenerator.Batcher true 0 [a] in
  let raises := fun c => match c with
                         | CallBatch => Some "DefaultCredentialsError"
                         | _ => None
                         end in
  let doc_exists := fun _ : nat => true in
  let pushed := push_batch_runtimes raises doc_exists [a] in
  let write :=
    [ThumbnailGenerator.Log ThumbnailGenerator.INFO (ThumbnailGenerator.MsgUploadingBatch 1);
     ThumbnailGenerator.PushBatchRuntimes [a]] in
  let '(b1, t1, r1) :=
    ThumbnailGenerator.flush_check (upload_runtime raises doc_exists [a]) 66 b in
  pushed.2 = Raises "DefaultCredentialsError"
  /\ committed pushed.1 = []
  /\ b1 = b
  /\ t1 ++ ThumbnailGenerator.cycle_end r1
     = write ++ [ThumbnailGenerator.Log ThumbnailGenerator.CRITICAL
                   (ThumbnailGenerator.MsgBatchError "DefaultCredentialsError")]
  /\ forall now', (66 <= now')%Q -> ThumbnailGenerator.flush_due now' b1 = true.
Proof.
  intros a b raises doc_exists.
  refine (failed_push_is_retried_only_if_it_raises raises doc_exists
            (ThumbnailGenerator.State "thumb" "temp" "thumb" {["a" := FFinite 10]} [] [] ∅ ∅)
            b 66 _ _ _).
  - unfold ThumbnailGenerator.batcher_ok. cbn. split; [discriminate | reflexivity].
  - split.
    + cbn. apply NoDup_singleton.
    + apply Forall_singleton. exists "a", (FFinite 10). split_and!; reflexivity.
  - reflexivity.
Defined.

End DatastoreFacts.
